(** * GuardianJS: the audio acquisition protocol, the canonical encoder,
      the stable hash and the anchor builder

    A shallow embedding of [src/sources/audio.ts], [src/hash.ts] and
    [src/anchor.ts], and of the code around them: the collectors
    [src/sources/webgl.ts], [src/sources/webgpu.ts] and [src/sources/eme.ts],
    [src/computeBrowserSignals.ts], [src/agent.ts], [src/utils/data.ts] and
    [src/utils/misc.ts].  JavaScript strings are sequences of UTF-16 code
    units, 32-bit integer arithmetic is written out on [Z], objects are
    property lists in the engine's own-property order, numbers are IEEE 754
    binary64 floats, and the render job is a state with the events that
    move it.  What a collector finds in the browser is an argument of its
    model. *)

From Stdlib Require Import String Ascii DecimalString.
From Stdlib Require Import ZArith List Bool Lia.
From Stdlib Require Import Permutation Sorted.
From Stdlib Require Import Floats.
Import ListNotations.

Local Open Scope Z_scope.

(* ================================================================== *)
(** * The JavaScript values the code computes with *)
(* ================================================================== *)

Module JS.

(** A string is its sequence of UTF-16 code units ([charCodeAt]). *)
Definition jsstring := list Z.

(** A literal of the source, whose characters are all Basic Latin. *)
Definition lit (s : String.string) : jsstring :=
  map (fun a => Z.of_N (N_of_ascii a)) (String.list_ascii_of_string s).

Arguments lit s%_string.

Fixpoint str_eqb (a b : jsstring) : bool :=
  match a, b with
  | [], [] => true
  | x :: a', y :: b' => (x =? y) && str_eqb a' b'
  | _, _ => false
  end.

(** [a < b] on strings, the comparison of [Array.prototype.sort] without a
    comparator: code unit by code unit, a proper prefix first. *)
Fixpoint str_ltb (a b : jsstring) : bool :=
  match a, b with
  | _, [] => false
  | [], _ :: _ => true
  | x :: a', y :: b' => (x <? y) || ((x =? y) && str_ltb a' b')
  end.

(** ** 32-bit integers *)

Definition ToUint32 (x : Z) : Z := x mod 2 ^ 32.

Definition ToInt32 (x : Z) : Z :=
  let u := x mod 2 ^ 32 in
  if 2 ^ 31 <=? u then u - 2 ^ 32 else u.

(** [a ^ b] *)
Definition bitxor (a b : Z) : Z := ToInt32 (Z.lxor (ToInt32 a) (ToInt32 b)).

(** [a >>> n] *)
Definition ushr (a n : Z) : Z := Z.shiftr (ToUint32 a) (ToUint32 n mod 32).

(** [Math.imul(a, b)] *)
Definition imul (a b : Z) : Z := ToInt32 (ToUint32 a * ToUint32 b).

(** ** [Number.prototype.toString(16)] and [String.prototype.padStart] *)

(** The digit of a value below 16, lowercase. *)
Definition hexDigit (d : Z) : Z := if d <? 10 then 48 + d else 87 + d.

Fixpoint toString16_aux (fuel : nat) (n : Z) (acc : jsstring) : jsstring :=
  match fuel with
  | O => acc
  | S fuel' =>
      if n <? 16 then hexDigit n :: acc
      else toString16_aux fuel' (n / 16) (hexDigit (n mod 16) :: acc)
  end.

(** [n.toString(16)] for an integer [n >= 0]: most significant digit first,
    no leading zero, ["0"] for zero.  The fuel covers every digit of [n]. *)
Definition toString16 (n : Z) : jsstring :=
  toString16_aux (S (Z.to_nat (Z.log2 n))) n [].

(** [s.padStart(targetLength, c)] with a one-character filler [c]. *)
Definition padStart (s : jsstring) (targetLength : nat) (c : Z) : jsstring :=
  repeat c (targetLength - length s) ++ s.

(** [s.slice(0, n)] *)
Definition slice0 (s : jsstring) (n : nat) : jsstring := firstn n s.

Definition isLowerHex (c : Z) : bool :=
  ((48 <=? c) && (c <=? 57)) || ((97 <=? c) && (c <=? 102)).

(** ** What the engine supplies

    [Number::toString] (the shortest decimal text that reads back as the
    same double) and the Unicode lower-casing table are the engine's; the
    code below is stated for every engine. *)
Class Runtime := {
  Number_toString : float -> jsstring;
  String_toLowerCase : jsstring -> jsstring
}.

(** ** Values *)

Unset Elimination Schemes.

Inductive value :=
| VUndefined
| VNull
| VBool (b : bool)
| VNum (x : float)
| VStr (s : jsstring)
| VArr (items : list value)
| VObj (props : list (jsstring * value)).

Set Elimination Schemes.

(** ** Ordinary objects

    The own properties of an object, in the order [Object.keys] and
    [JSON.stringify] enumerate them: array-index keys first, in ascending
    numeric order, then the other keys in the order of their creation. *)

Definition isDigit (c : Z) : bool := (48 <=? c) && (c <=? 57).

(** The array index a property key denotes: a canonical decimal numeral
    (no leading zero) below [2^32 - 1]. *)
Definition arrayIndex (k : jsstring) : option Z :=
  match k with
  | [] => None
  | c :: rest =>
      if forallb isDigit k && (negb (c =? 48) || match rest with [] => true | _ => false end)
      then
        let n := fold_left (fun acc d => acc * 10 + (d - 48)) k 0 in
        if n <? 2 ^ 32 - 1 then Some n else None
      else None
  end.

(** Whether a new key [k] is enumerated before the existing key [k']. *)
Definition goesBefore (k k' : jsstring) : bool :=
  match arrayIndex k, arrayIndex k' with
  | Some i, Some j => i <? j
  | Some _, None => true
  | None, _ => false
  end.

(** [CreateDataProperty(o, k, v)]: an existing key keeps its place. *)
Fixpoint defineProperty {A} (o : list (jsstring * A)) (k : jsstring) (v : A)
  : list (jsstring * A) :=
  match o with
  | [] => [(k, v)]
  | (k', v') :: o' =>
      if str_eqb k k' then (k, v) :: o'
      else if goesBefore k k' then (k, v) :: (k', v') :: o'
      else (k', v') :: defineProperty o' k v
  end.

Definition proto : jsstring := lit "__proto__".

(** [o[k] = v] on an object made by an object literal: the key
    ["__proto__"] reaches the accessor of [Object.prototype] and makes no
    own property; every other key is defined on [o]. *)
Definition assignProperty {A} (o : list (jsstring * A)) (k : jsstring) (v : A)
  : list (jsstring * A) :=
  if str_eqb k proto then o else defineProperty o k v.

(** [o[k]] for an own property. *)
Fixpoint getProperty {A} (o : list (jsstring * A)) (k : jsstring) : option A :=
  match o with
  | [] => None
  | (k', v) :: o' => if str_eqb k k' then Some v else getProperty o' k
  end.

Definition Object_keys {A} (o : list (jsstring * A)) : list jsstring :=
  map fst o.

(** An object literal [{ k1: v1, ..., kn: vn }]. *)
Definition objectLiteral {A} (fields : list (jsstring * A)) : list (jsstring * A) :=
  fold_left (fun o kv => defineProperty o (fst kv) (snd kv)) fields [].

(** ** Arrays of strings *)

Fixpoint sortInsert (x : jsstring) (l : list jsstring) : list jsstring :=
  match l with
  | [] => [x]
  | y :: l' => if str_ltb y x then y :: sortInsert x l' else x :: l
  end.

(** [a.sort()] on strings: ascending code-unit order. *)
Definition Array_sort (a : list jsstring) : list jsstring :=
  fold_right sortInsert [] a.

Fixpoint mem (x : jsstring) (l : list jsstring) : bool :=
  match l with
  | [] => false
  | y :: l' => str_eqb x y || mem x l'
  end.

(** [[...new Set(a)]]: the first occurrence of every element, in order. *)
Definition uniq (a : list jsstring) : list jsstring :=
  rev (fold_left (fun seen x => if mem x seen then seen else x :: seen) a []).

(** ** [String.prototype.trim] *)

Definition isWhiteSpace (c : Z) : bool :=
  ((9 <=? c) && (c <=? 13)) || (c =? 32) || (c =? 160) || (c =? 0x1680)
  || ((0x2000 <=? c) && (c <=? 0x200A)) || (c =? 0x2028) || (c =? 0x2029)
  || (c =? 0x202F) || (c =? 0x205F) || (c =? 0x3000) || (c =? 0xFEFF).

Fixpoint trimStart (s : jsstring) : jsstring :=
  match s with
  | [] => []
  | c :: s' => if isWhiteSpace c then trimStart s' else s
  end.

Definition trim (s : jsstring) : jsstring :=
  rev (trimStart (rev (trimStart s))).

(** ** [JSON.stringify]: the quoting of strings *)

Definition isHighSurrogate (c : Z) : bool := (0xD800 <=? c) && (c <=? 0xDBFF).
Definition isLowSurrogate (c : Z) : bool := (0xDC00 <=? c) && (c <=? 0xDFFF).

(** [\uXXXX] *)
Definition UnicodeEscape (c : Z) : jsstring :=
  92 :: 117 :: padStart (toString16 c) 4 48.

Fixpoint quoteUnits (s : jsstring) : jsstring :=
  match s with
  | [] => []
  | c :: s' =>
      if c =? 8 then 92 :: 98 :: quoteUnits s'
      else if c =? 9 then 92 :: 116 :: quoteUnits s'
      else if c =? 10 then 92 :: 110 :: quoteUnits s'
      else if c =? 12 then 92 :: 102 :: quoteUnits s'
      else if c =? 13 then 92 :: 114 :: quoteUnits s'
      else if c =? 34 then 92 :: 34 :: quoteUnits s'
      else if c =? 92 then 92 :: 92 :: quoteUnits s'
      else if c <? 32 then UnicodeEscape c ++ quoteUnits s'
      else if isHighSurrogate c then
        match s' with
        | d :: s'' =>
            if isLowSurrogate d then c :: d :: quoteUnits s''
            else UnicodeEscape c ++ quoteUnits s'
        | [] => UnicodeEscape c
        end
      else if isLowSurrogate c then UnicodeEscape c ++ quoteUnits s'
      else c :: quoteUnits s'
  end.

Definition QuoteJSONString (s : jsstring) : jsstring :=
  34 :: quoteUnits s ++ [34].

(** [parts.join(",")] *)
Fixpoint joinComma (parts : list jsstring) : jsstring :=
  match parts with
  | [] => []
  | [p] => p
  | p :: rest => p ++ 44 :: joinComma rest
  end.

End JS.

Import JS.

(* ================================================================== *)
(** * hash.ts *)
(* ================================================================== *)

Module Hash.

Section WithRuntime.

Context {R : Runtime}.

(** The body of [replacer] on an object [val]: a new object that receives
    the properties of [val] in the order of [Object.keys(val).sort()].
    The values are only moved, whatever they are. *)
Definition replacerProps {A} (val : list (jsstring * A)) : list (jsstring * A) :=
  fold_left
    (fun sorted k =>
       match getProperty val k with
       | Some v => assignProperty sorted k v
       | None => sorted
       end)
    (Array_sort (Object_keys val)) [].

(** [replacer(_key, val)]: everything but a plain object is returned as it
    is ([!val], not an object, or an array). *)
Definition replacer (val : value) : value :=
  match val with
  | VObj props => VObj (replacerProps props)
  | _ => val
  end.

(** [SerializeJSONObject]: the members whose value has a text, in order. *)
Definition SerializeJSONObject (members : list (jsstring * option jsstring)) : jsstring :=
  123 :: joinComma
           (flat_map (fun m => match snd m with
                               | Some text => [QuoteJSONString (fst m) ++ 58 :: text]
                               | None => []
                               end) members) ++ [125].

(** [SerializeJSONArray]: an element without a text is written [null]. *)
Definition SerializeJSONArray (items : list (option jsstring)) : jsstring :=
  91 :: joinComma
          (map (fun t => match t with Some text => text | None => lit "null" end) items)
     ++ [93].

(** [canonicalize(value)], that is [JSON.stringify(value, replacer)]; [None]
    is the [undefined] that [JSON.stringify] returns for [undefined].  The
    replacer only reorders the properties of an object, so here the members
    are serialized first and reordered after; [canonicalize_by_replacer]
    below states the order of the engine, replacer first. *)
Fixpoint canonicalize (v : value) : option jsstring :=
  match v with
  | VUndefined => None
  | VNull => Some (lit "null")
  | VBool b => Some (if b then lit "true" else lit "false")
  | VNum x => Some (if is_finite x then Number_toString x else lit "null")
  | VStr s => Some (QuoteJSONString s)
  | VArr items => Some (SerializeJSONArray (map canonicalize items))
  | VObj props =>
      Some (SerializeJSONObject
              (replacerProps (map (fun kv => (fst kv, canonicalize (snd kv))) props)))
  end.

(** [JSON.parse(text)] builds an object by defining its members in the
    order of the text. *)
Definition parseMembers (members : list (jsstring * option value)) : list (jsstring * value) :=
  fold_left
    (fun o m => match snd m with
                | Some w => defineProperty o (fst m) w
                | None => o
                end)
    members [].

(** [JSON.parse(canonicalize(v))].  The parser is the engine's; what it
    reads back from the text of [v] is [v] without the properties that had
    no text, with [null] for an array element without a text and for a
    number that is not finite, and with [0] for [-0]; the text of the
    result is the text that was parsed ([canonicalize_parseCanonical]
    below).  [None]: there is no text to parse. *)
Fixpoint parseCanonical (v : value) : option value :=
  match v with
  | VUndefined => None
  | VNull => Some VNull
  | VBool b => Some (VBool b)
  | VNum x =>
      Some (if is_finite x then VNum (if (x =? 0)%float then 0%float else x) else VNull)
  | VStr s => Some (VStr s)
  | VArr items =>
      Some (VArr (map (fun i => match parseCanonical i with
                                | Some w => w
                                | None => VNull
                                end) items))
  | VObj props =>
      Some (VObj (parseMembers
                    (replacerProps (map (fun kv => (fst kv, parseCanonical (snd kv))) props))))
  end.

(** [normalizeString(input)]; [None] is [undefined] (or [null]). *)
Definition normalizeString (input : option jsstring) : option jsstring :=
  match input with
  | None => None
  | Some [] => None
  | Some s =>
      match String_toLowerCase (trim s) with
      | [] => None
      | trimmed => Some trimmed
      end
  end.

(** One round of the loop: both accumulators take the code unit [ch]. *)
Definition mix (h : Z * Z) (ch : Z) : Z * Z :=
  (imul (bitxor (fst h) ch) 2654435761, imul (bitxor (snd h) ch) 1597334677).

(** The body of [stableHash] once [json] is a string. *)
Definition stableHashString (json : jsstring) : jsstring :=
  let len := Z.of_nat (length json) in
  let h1 := bitxor 0xdeadbeef len in
  let h2 := bitxor 0x41c6ce57 len in
  let '(h1, h2) := fold_left mix json (h1, h2) in
  let h1 := bitxor (imul (bitxor h1 (ushr h1 16)) 2246822507)
                   (imul (bitxor h2 (ushr h2 13)) 3266489909) in
  let h2 := bitxor (imul (bitxor h2 (ushr h2 16)) 2246822507)
                   (imul (bitxor h1 (ushr h1 13)) 3266489909) in
  let hi := padStart (toString16 (ushr h1 0)) 8 48 in
  let lo := padStart (toString16 (ushr h2 0)) 8 48 in
  hi ++ lo.

(** [stableHash(value)].  [None]: [canonicalize(value)] is [undefined] and
    reading [json.length] throws a [TypeError]. *)
Definition stableHash (v : value) : option jsstring :=
  match v with
  | VStr s => Some (stableHashString s)
  | _ =>
      match canonicalize v with
      | Some json => Some (stableHashString json)
      | None => None
      end
  end.

End WithRuntime.

End Hash.

Import Hash.

(* ================================================================== *)
(** * sources/audio.ts *)
(* ================================================================== *)

Module Audio.

Inductive SpecialFingerprint :=
| KnownForSuspending
| NotSupported
| Timeout
| KnownForAntifingerprinting.

(** The number an enum member stands for. *)
Definition code (f : SpecialFingerprint) : float :=
  match f with
  | KnownForSuspending => (-1)%float
  | NotSupported => (-2)%float
  | Timeout => (-3)%float
  | KnownForAntifingerprinting => (-4)%float
  end.

Inductive InnerErrorName := InnerTimeout | InnerSuspended.

Definition innerErrorName (n : InnerErrorName) : jsstring :=
  match n with
  | InnerTimeout => lit "timeout"
  | InnerSuspended => lit "suspended"
  end.

(** An error object is the one [makeInnerError] made or one that
    [context.startRendering()] threw; both have a [name]. *)
Inductive Error :=
| InnerError (n : InnerErrorName)
| Thrown (name message : jsstring).

Definition makeInnerError (n : InnerErrorName) : Error := InnerError n.

Definition name (e : Error) : jsstring :=
  match e with
  | InnerError n => innerErrorName n
  | Thrown n _ => n
  end.

(** ** The browser *)

(** What [window] has and what the predicates of [utils/browser] answer. *)
Record Browser := {
  OfflineAudioContext : bool;
  webkitOfflineAudioContext : bool;
  isWebKit : bool;
  isDesktopWebKit : bool;
  isWebKit606OrNewer : bool;
  isWebKit616OrNewer : bool;
  isSafariWebKit : bool;
  isChromium : bool;
  isSamsungInternet : bool;
  isChromium122OrNewer : bool
}.

Definition doesBrowserSuspendAudioContext (b : Browser) : bool :=
  isWebKit b && negb (isDesktopWebKit b) && negb (isWebKit606OrNewer b).

Definition isSafari17OrNewer (b : Browser) : bool :=
  isWebKit b && isWebKit616OrNewer b && isSafariWebKit b.

Definition doesBrowserPerformAntifingerprinting (b : Browser) : bool :=
  isChromium b && isSamsungInternet b && isChromium122OrNewer b.

(** ** The render job of [startRenderingAudio] *)

Definition renderTryMaxCount : Z := 3.
Definition renderRetryDelay : Z := 500.
Definition runningMaxAwaitTime : Z := 500.
Definition runningSufficientTime : Z := 5000.

(** The rendered buffer of a context with one channel. *)
Record AudioBuffer := { channel0 : list float }.

Inductive Settled (A : Type) :=
| Pending
| Fulfilled (a : A)
| Rejected (e : Error).

Arguments Pending {A}.
Arguments Fulfilled {A} a.
Arguments Rejected {A} e.

Inductive Callback := CallTryRender | CallRejectTimeout.

(** A pending [setTimeout(callback, delay)]. *)
Record Timer := { callback : Callback; delay : Z }.

(** The variables of the closure, the promise and the pending timers. *)
Record Job := {
  isFinalized : bool;
  renderTryCount : Z;
  startedRunningAt : Z;
  resultPromise : Settled AudioBuffer;
  timers : list Timer
}.

Inductive ContextState := StateRunning | StateSuspended | StateClosed.

(** What one run of [tryRender] meets: the name and message of the
    exception of [context.startRendering()] if it throws, [context.state]
    after the call ([StateClosed] stands for every state the [switch] has
    no case for), [document.hidden], and the clock at [startedRunningAt =
    Date.now()] and inside [startRunningTimeout]. *)
Record Attempt := {
  startRenderingThrows : option (jsstring * jsstring);
  contextState : ContextState;
  documentHidden : bool;
  nowStarted : Z;
  nowTimeout : Z
}.

(** [resolve] and [reject] settle a promise once. *)
Definition resolve (buffer : AudioBuffer) (j : Job) : Job :=
  match resultPromise j with
  | Pending =>
      {| isFinalized := isFinalized j; renderTryCount := renderTryCount j;
         startedRunningAt := startedRunningAt j;
         resultPromise := Fulfilled buffer; timers := timers j |}
  | _ => j
  end.

Definition reject (e : Error) (j : Job) : Job :=
  match resultPromise j with
  | Pending =>
      {| isFinalized := isFinalized j; renderTryCount := renderTryCount j;
         startedRunningAt := startedRunningAt j;
         resultPromise := Rejected e; timers := timers j |}
  | _ => j
  end.

Definition setTimeout (cb : Callback) (ms : Z) (j : Job) : Job :=
  {| isFinalized := isFinalized j; renderTryCount := renderTryCount j;
     startedRunningAt := startedRunningAt j;
     resultPromise := resultPromise j;
     timers := timers j ++ [{| callback := cb; delay := ms |}] |}.

Definition startRunningTimeout (now : Z) (j : Job) : Job :=
  setTimeout CallRejectTimeout
    (Z.min runningMaxAwaitTime (startedRunningAt j + runningSufficientTime - now)) j.

Definition tryRender (a : Attempt) (j : Job) : Job :=
  match startRenderingThrows a with
  | Some (name, message) => reject (Thrown name message) j
  | None =>
      match contextState a with
      | StateRunning =>
          let j :=
            {| isFinalized := isFinalized j; renderTryCount := renderTryCount j;
               startedRunningAt := nowStarted a;
               resultPromise := resultPromise j; timers := timers j |} in
          if isFinalized j then startRunningTimeout (nowTimeout a) j else j
      | StateSuspended =>
          let j :=
            if negb (documentHidden a) then
              {| isFinalized := isFinalized j; renderTryCount := renderTryCount j + 1;
                 startedRunningAt := startedRunningAt j;
                 resultPromise := resultPromise j; timers := timers j |}
            else j in
          if isFinalized j && (renderTryMaxCount <=? renderTryCount j)
          then reject (makeInnerError InnerSuspended) j
          else setTimeout CallTryRender renderRetryDelay j
      | StateClosed => j
      end
  end.

Definition finalize (now : Z) (j : Job) : Job :=
  if negb (isFinalized j) then
    let j :=
      {| isFinalized := true; renderTryCount := renderTryCount j;
         startedRunningAt := startedRunningAt j;
         resultPromise := resultPromise j; timers := timers j |} in
    if 0 <? startedRunningAt j then startRunningTimeout now j else j
  else j.

(** [startRenderingAudio(context)]: the executor of the promise sets the
    variables and calls [tryRender] once. *)
Definition startRenderingAudio (first : Attempt) : Job :=
  tryRender first
    {| isFinalized := false; renderTryCount := 0; startedRunningAt := 0;
       resultPromise := Pending; timers := [] |}.

(** What happens to a job afterwards: the caller invokes the callable
    ([finishRendering]), the context completes ([oncomplete]), or the
    [i]-th pending timer fires. *)
Inductive Event :=
| Finalize (now : Z)
| Complete (buffer : AudioBuffer)
| Fire (i : nat) (a : Attempt).

Fixpoint removeNth {A} (i : nat) (l : list A) : list A :=
  match l, i with
  | [], _ => []
  | _ :: l', O => l'
  | x :: l', S i' => x :: removeNth i' l'
  end.

Definition step (j : Job) (ev : Event) : Job :=
  match ev with
  | Finalize now => finalize now j
  | Complete buffer => resolve buffer j
  | Fire i a =>
      match nth_error (timers j) i with
      | None => j
      | Some t =>
          let j :=
            {| isFinalized := isFinalized j; renderTryCount := renderTryCount j;
               startedRunningAt := startedRunningAt j;
               resultPromise := resultPromise j; timers := removeNth i (timers j) |} in
          match callback t with
          | CallTryRender => tryRender a j
          | CallRejectTimeout => reject (makeInnerError InnerTimeout) j
          end
      end
  end.

Definition run (j : Job) (evs : list Event) : Job := fold_left step evs j.

(** ** The fingerprint *)

Definition hashFromIndex : nat := 4500.
Definition hashToIndex : nat := 5000.

(** [signal.subarray(begin)] *)
Definition subarray (signal : list float) (begin : nat) : list float :=
  skipn begin signal.

Definition getHash (signal : list float) : float :=
  fold_left (fun hash x => (hash + abs x)%float) signal 0%float.

(** [fingerprintPromise]: [renderPromise.then(onFulfilled, onRejected)]. *)
Definition fingerprintPromise (renderPromise : Settled AudioBuffer) : Settled float :=
  match renderPromise with
  | Pending => Pending
  | Fulfilled buffer => Fulfilled (getHash (subarray (channel0 buffer) hashFromIndex))
  | Rejected error =>
      if str_eqb (name error) (innerErrorName InnerTimeout)
         || str_eqb (name error) (innerErrorName InnerSuspended)
      then Fulfilled (code Timeout)
      else Rejected error
  end.

(** [number | (() => Promise<number>)]: the callable closes over its job. *)
Inductive Fingerprint :=
| Immediate (x : float)
| Deferred (job : Job).

(** [first] is what the first [tryRender] meets if a job is started. *)
Definition getUnstableAudioFingerprint (b : Browser) (first : Attempt) : Fingerprint :=
  if negb (OfflineAudioContext b || webkitOfflineAudioContext b) then
    Immediate (code NotSupported)
  else if doesBrowserSuspendAudioContext b then
    Immediate (code KnownForSuspending)
  else Deferred (startRenderingAudio first).

Definition getAudioFingerprint (b : Browser) (first : Attempt) : Fingerprint :=
  if isSafari17OrNewer b then Immediate (code NotSupported)
  else if doesBrowserPerformAntifingerprinting b then
    Immediate (code KnownForAntifingerprinting)
  else getUnstableAudioFingerprint b first.

(** Calling the callable at time [now]: [finishRendering()], then the
    promise of the fingerprint. *)
Definition invoke (now : Z) (job : Job) : Job := finalize now job.

End Audio.

(* ================================================================== *)
(** * types.ts and anchor.ts *)
(* ================================================================== *)

Module Anchor.

Import Audio.

(** [BrowserSignals['webgl']]; [extensions] is [None] for [undefined] and
    for [null]. *)
Record WebGl := {
  version : option jsstring;
  vendor : option jsstring;
  renderer : option jsstring;
  vendorUnmasked : option jsstring;
  rendererUnmasked : option jsstring;
  shadingLanguageVersion : option jsstring;
  extensions : option (list jsstring)
}.

(** [WebGlExtensionsPayload]; [supportedExtensions] is its [extensions]
    ([None] for [null]). *)
Record WebGlExtensionsPayload := {
  contextAttributes : list jsstring;
  parameters : list jsstring;
  shaderPrecisions : list jsstring;
  supportedExtensions : option (list jsstring);
  extensionParameters : list jsstring;
  unsupportedExtensions : list jsstring
}.

(** [WebGpuInfo]; [gpuVendor] is its [vendor]. *)
Record WebGpuInfo := {
  supported : bool;
  isFallbackAdapter : option bool;
  gpuVendor : option jsstring;
  architecture : option jsstring;
  device : option jsstring
}.

Record EmeInfo := { widevineSupported : option bool }.

Record PerformanceTimingInfo := { precision : float; baseline : float }.

(** [Partial<BrowserSignals>]: every field may be missing.  [others] are
    the properties of the object that the interface does not declare
    (a platform string, a device pixel ratio, viewport dimensions, ...). *)
Record BrowserSignals := {
  userAgent : option jsstring;
  hardwareConcurrency : option float;
  deviceMemory : option float;
  webgl : option WebGl;
  webgExtensions : option WebGlExtensionsPayload;
  audioFingerprint : option Fingerprint;
  mathFingerprint : option (list (jsstring * float));
  webgpu : option WebGpuInfo;
  eme : option EmeInfo;
  performanceTiming : option PerformanceTimingInfo;
  others : list (jsstring * value)
}.

Record VisitorId := { anchor : value; visitorId : jsstring }.

Section WithRuntime.

Context {R : Runtime}.

(** [a || b] on two optional strings: [a] unless it is missing or empty. *)
Definition orString (a b : option jsstring) : option jsstring :=
  match a with
  | Some (_ :: _) => a
  | _ => b
  end.

(** [o?.f] *)
Definition optField {A B} (o : option A) (f : A -> option B) : option B :=
  match o with
  | Some x => f x
  | None => None
  end.

Definition ofOption {A} (f : A -> value) (o : option A) : value :=
  match o with
  | Some x => f x
  | None => VUndefined
  end.

Definition strings (l : list jsstring) : value := VArr (map VStr l).

(** [Array.isArray(l) && l.length ? stableHash(prepare(l)) : undefined];
    the outer [None] is an exception of [stableHash]. *)
Definition hashNonEmpty (prepare : list jsstring -> list jsstring)
  (l : option (list jsstring)) : option value :=
  match l with
  | Some ((_ :: _) as items) => option_map VStr (stableHash (strings (prepare items)))
  | _ => Some VUndefined
  end.

(** The object literal [anchor] of [computeAnchor], before it is
    canonicalized; [None] is an exception of [stableHash]. *)
Definition anchorLiteral (b : BrowserSignals) : option value :=
  let vendor := normalizeString (orString (optField (webgl b) vendorUnmasked)
                                          (optField (webgl b) vendor)) in
  let renderer := normalizeString (orString (optField (webgl b) rendererUnmasked)
                                            (optField (webgl b) renderer)) in
  let gpu :=
    match vendor, renderer with
    | None, None => VUndefined
    | _, _ => VObj (objectLiteral [(lit "vendor", ofOption VStr vendor);
                                   (lit "renderer", ofOption VStr renderer)])
    end in
  let webglExtApp := option_map Array_sort (optField (webgl b) extensions) in
  let webgExt := optField (webgExtensions b) supportedExtensions in
  let webgParams := option_map parameters (webgExtensions b) in
  let webgShaderPrec := option_map shaderPrecisions (webgExtensions b) in
  let hw := ofOption VNum (hardwareConcurrency b) in
  let mem := ofOption VNum (deviceMemory b) in
  let audio :=
    match audioFingerprint b with
    | Some (Immediate x) => VNum x
    | _ => VUndefined
    end in
  let math :=
    ofOption (fun m => VObj (map (fun kx => (fst kx, VNum (snd kx))) m))
             (mathFingerprint b) in
  let webgpu :=
    ofOption (fun g => VObj (objectLiteral
                [(lit "supported", VBool (supported g));
                 (lit "isFallbackAdapter",
                  VBool (match isFallbackAdapter g with Some f => f | None => false end))]))
             (webgpu b) in
  let eme :=
    match optField (eme b) widevineSupported with
    | Some w => VNum (if w then 1%float else 0%float)
    | None => VUndefined
    end in
  match
    match performanceTiming b with
    | Some t => option_map VStr
                  (stableHash (VObj (objectLiteral [(lit "precision", VNum (precision t));
                                                    (lit "baseline", VNum (baseline t))])))
    | None => Some VUndefined
    end,
    match webglExtApp with
    | Some sorted => option_map VStr (stableHash (strings sorted))
    | None => Some VUndefined
    end,
    hashNonEmpty (fun l => Array_sort (uniq l)) webgExt,
    hashNonEmpty Array_sort webgParams,
    hashNonEmpty Array_sort webgShaderPrec
  with
  | Some pt, Some ext, Some xExt, Some params, Some shader =>
      Some (VObj (objectLiteral
              [(lit "gpu", gpu);
               (lit "webgl", VObj (objectLiteral [(lit "ext", ext);
                                                  (lit "xExt", xExt);
                                                  (lit "params", params);
                                                  (lit "shader", shader)]));
               (lit "hw", hw);
               (lit "mem", mem);
               (lit "audio", audio);
               (lit "math", math);
               (lit "webgpu", webgpu);
               (lit "eme", eme);
               (lit "pt", pt)]))
  | _, _, _, _, _ => None
  end.

(** [computeAnchor(b)]: [JSON.parse(canonicalize(anchor))].  [None] is an
    exception. *)
Definition computeAnchor (b : BrowserSignals) : option value :=
  match anchorLiteral b with
  | Some literal => parseCanonical literal
  | None => None
  end.

(** The caller's object after [computeAnchor(b)]: [webgParams.sort()] and
    [webgShaderPrec.sort()] have sorted its two arrays in place. *)
Definition sortedInPlace (b : BrowserSignals) : BrowserSignals :=
  {| userAgent := userAgent b;
     hardwareConcurrency := hardwareConcurrency b;
     deviceMemory := deviceMemory b;
     webgl := webgl b;
     webgExtensions :=
       option_map
         (fun e => {| contextAttributes := contextAttributes e;
                      parameters := Array_sort (parameters e);
                      shaderPrecisions := Array_sort (shaderPrecisions e);
                      supportedExtensions := supportedExtensions e;
                      extensionParameters := extensionParameters e;
                      unsupportedExtensions := unsupportedExtensions e |})
         (webgExtensions b);
     audioFingerprint := audioFingerprint b;
     mathFingerprint := mathFingerprint b;
     webgpu := webgpu b;
     eme := eme b;
     performanceTiming := performanceTiming b;
     others := others b |}.

(** [computeVisitorId(signals)]; [None] is an exception. *)
Definition computeVisitorId (signals : BrowserSignals) : option VisitorId :=
  match computeAnchor signals with
  | Some anchor =>
      match stableHash (ofOption VStr (canonicalize anchor)) with
      | Some anchorHash =>
          Some {| anchor := anchor; visitorId := slice0 anchorHash 22 |}
      | None => None
      end
  | None => None
  end.

End WithRuntime.

End Anchor.

(* ================================================================== *)
(** * utils/data.ts *)
(* ================================================================== *)

Module Data.

(** The primitive values: what [===] compares by value. *)
Inductive primitive :=
| PUndefined
| PNull
| PBool (b : bool)
| PNum (x : float)
| PStr (s : jsstring).

(** [a === b] on primitives: numbers as IEEE 754 compares them (NaN equals
    nothing, the two zeros are equal), strings code unit by code unit. *)
Definition strictEquals (a b : primitive) : bool :=
  match a, b with
  | PUndefined, PUndefined => true
  | PNull, PNull => true
  | PBool x, PBool y => Bool.eqb x y
  | PNum x, PNum y => (x =? y)%float
  | PStr s, PStr t => str_eqb s t
  | _, _ => false
  end.

(** [includes(haystack, needle)]: the loop returns at the first element
    that is [===] to the needle. *)
Fixpoint includes (haystack : list primitive) (needle : primitive) : bool :=
  match haystack with
  | [] => false
  | x :: rest => if strictEquals x needle then true else includes rest needle
  end.

Definition excludes (haystack : list primitive) (needle : primitive) : bool :=
  negb (includes haystack needle).

(** A value of any type, as far as [ToBoolean] reads it: a primitive with
    what it holds, or an object, of which only the internal slot
    [[IsHTMLDDA]] counts, which [document.all] has and no other. *)
Inductive unknown :=
| UUndefined
| UNull
| UBool (b : bool)
| UNum (x : float)
| UBigInt (n : Z)
| UStr (s : jsstring)
| USymbol
| UObject (isHTMLDDA : bool).

(** [ToBoolean]: what [value ? 1 : 0] tests. *)
Definition ToBoolean (v : unknown) : bool :=
  match v with
  | UUndefined | UNull => false
  | UBool b => b
  | UNum x => negb ((x =? 0)%float || is_nan x)
  | UBigInt n => negb (n =? 0)
  | UStr s => match s with [] => false | _ => true end
  | USymbol => true
  | UObject isHTMLDDA => negb isHTMLDDA
  end.

(** [countTruthy(values)]: the sum is a whole number below [2^32], the
    length of an array, so the additions are exact. *)
Definition countTruthy (values : list unknown) : Z :=
  fold_left (fun sum v => sum + (if ToBoolean v then 1 else 0)) values 0.

(** [replaceNaN(value, replacement)] *)
Definition replaceNaN (v replacement : value) : value :=
  match v with
  | VNum x => if is_nan x then replacement else v
  | _ => v
  end.

(** ** Sets

    A [Set] keeps one element of every value, in the order of insertion;
    [has] compares with [SameValueZero], which on the stored elements (a
    [Set] stores [+0] for [-0]) is equality. *)
Section Sets.

Context {A : Type} (sameValue : A -> A -> bool).

Definition has (s : list A) (x : A) : bool := existsb (sameValue x) s.

Definition size (s : list A) : nat := length s.

(** The loop of [areSetsEqual] over [set1.values()]. *)
Fixpoint allIn (items : list A) (set2 : list A) : bool :=
  match items with
  | [] => true
  | x :: rest => if negb (has set2 x) then false else allIn rest set2
  end.

(** [areSetsEqual(set1, set2)]; [sameObject] is [set1 === set2]. *)
Definition areSetsEqual (sameObject : bool) (set1 set2 : list A) : bool :=
  if sameObject then true
  else if negb (Nat.eqb (size set1) (size set2)) then false
  else allIn set1 set2.

End Sets.

(** ** [maxInIterator]

    The items the iterator yields until it is done, and the variables
    [maxItem] and [maxItemScore], which start [undefined]; [undefined] is
    a value like another, which the iterator may yield. *)
Section MaxInIterator.

Context {T : Type} (undefined : T) (getItemScore : T -> float).

Definition maxStep (st : T * option float) (item : T) : T * option float :=
  let score := getItemScore item in
  match snd st with
  | None => (item, Some score)
  | Some maxItemScore =>
      if (maxItemScore <? score)%float then (item, Some score) else st
  end.

Definition maxInIterator (items : list T) : T :=
  fst (fold_left maxStep items (undefined, None)).

End MaxInIterator.

(** ** [TextEncoder.prototype.encode]

    The engine's encoder: the string is read as code points, a surrogate
    that is not part of a pair as U+FFFD, and every code point is written
    in UTF-8. *)
Definition utf8 (cp : Z) : list Z :=
  if cp <? 0x80 then [cp]
  else if cp <? 0x800 then
    [Z.lor 0xC0 (Z.shiftr cp 6); Z.lor 0x80 (Z.land cp 0x3F)]
  else if cp <? 0x10000 then
    [Z.lor 0xE0 (Z.shiftr cp 12);
     Z.lor 0x80 (Z.land (Z.shiftr cp 6) 0x3F);
     Z.lor 0x80 (Z.land cp 0x3F)]
  else
    [Z.lor 0xF0 (Z.shiftr cp 18);
     Z.lor 0x80 (Z.land (Z.shiftr cp 12) 0x3F);
     Z.lor 0x80 (Z.land (Z.shiftr cp 6) 0x3F);
     Z.lor 0x80 (Z.land cp 0x3F)].

Fixpoint TextEncoder_encode (input : jsstring) : list Z :=
  match input with
  | [] => []
  | c :: rest =>
      if isHighSurrogate c then
        match rest with
        | d :: rest' =>
            if isLowSurrogate d
            then utf8 (0x10000 + (c - 0xD800) * 0x400 + (d - 0xDC00))
                   ++ TextEncoder_encode rest'
            else utf8 0xFFFD ++ TextEncoder_encode rest
        | [] => utf8 0xFFFD
        end
      else if isLowSurrogate c then utf8 0xFFFD ++ TextEncoder_encode rest
      else utf8 c ++ TextEncoder_encode rest
  end.

(** The loop of [getUTF8Bytes]: [result] holds the code units seen so far,
    and the first code unit above 127 hands the whole input to the
    encoder. *)
Fixpoint getUTF8Bytes_from (input rest result : jsstring) : list Z :=
  match rest with
  | [] => result
  | charCode :: rest' =>
      if 127 <? charCode then TextEncoder_encode input
      else getUTF8Bytes_from input rest' (result ++ [charCode])
  end.

Definition getUTF8Bytes (input : jsstring) : list Z :=
  getUTF8Bytes_from input input [].

End Data.

(* ================================================================== *)
(** * utils/misc.ts *)
(* ================================================================== *)

Module Misc.

(** [s.split(sep)] with a separator of one code unit. *)
Fixpoint split (sep : Z) (s : jsstring) : list jsstring :=
  match s with
  | [] => [[]]
  | c :: rest =>
      if c =? sep then [] :: split sep rest
      else match split sep rest with
           | line :: lines => (c :: line) :: lines
           | [] => [[c]]
           end
  end.

(** What [errorToObject] reads of an error: [error.name], [error.message]
    and [error.stack], wherever the object or its prototypes have them,
    and the own enumerable properties, in the order of enumeration. *)
Record ErrorObject := {
  errorName : value;
  errorMessage : value;
  errorStack : option jsstring;
  ownEnumerable : list (jsstring * value)
}.

(** [error.stack?.split('\n')] *)
Definition stackLines (error : ErrorObject) : value :=
  match errorStack error with
  | Some stack => VArr (map VStr (split 10 stack))
  | None => VUndefined
  end.

(** [errorToObject(error)]: the three named properties, then the spread
    of the own enumerable properties. *)
Definition errorToObject (error : ErrorObject) : list (jsstring * value) :=
  objectLiteral
    ([(lit "name", errorName error);
      (lit "message", errorMessage error);
      (lit "stack", stackLines error)]
     ++ ownEnumerable error).

End Misc.

(* ================================================================== *)
(** * sources/webgl.ts *)
(* ================================================================== *)

Module WebGl.

(** What a call of [gl.getParameter] returns, as the code reads it: the
    text of the value ([String(value)], which [toString()] and a template
    literal both give), or [null] or [undefined]. *)
Inductive ParameterValue :=
| IsNull
| IsUndefined
| HasText (text : jsstring).

Inductive ShaderType := FRAGMENT_SHADER | VERTEX_SHADER.

Inductive PrecisionType :=
| LOW_FLOAT | MEDIUM_FLOAT | HIGH_FLOAT | LOW_INT | MEDIUM_INT | HIGH_INT.

(** An extension object: the keys of its prototype and the values of its
    properties. *)
Record GlExtension := {
  extensionPrototypeKeys : list jsstring;
  extensionConstant : jsstring -> float
}.

(** A rendering context, as far as the two collectors use it. *)
Record GlContext := {
  hasGetParameter : bool;
  getParameter : float -> ParameterValue;
  prototypeKeys : list jsstring;
  constant : jsstring -> float;
  getExtension : jsstring -> option GlExtension;
  getSupportedExtensions : option (list jsstring);
  getContextAttributes : option (list (jsstring * jsstring));
  getShaderPrecisionFormat : ShaderType -> PrecisionType -> option (float * float * float)
}.

(** What the collectors ask of [utils/browser]: [isGecko()] besides the
    predicates that the audio source asks. *)
Record Engine := {
  browser : Audio.Browser;
  isGecko : bool
}.

Definition STATUS_NO_GL_CONTEXT : float := (-1)%float.
Definition STATUS_GET_PARAMETER_NOT_A_FUNCTION : float := (-2)%float.

Definition validContextParameters : list float :=
  [10752; 2849; 2884; 2885; 2886; 2928; 2929; 2930; 2931; 2932; 2960; 2961;
   2962; 2963; 2964; 2965; 2966; 2967; 2968; 2978; 3024; 3042; 3088; 3089;
   3106; 3107; 32773; 32777; 32777; 32823; 32824; 32936; 32937; 32938; 32939;
   32968; 32969; 32970; 32971; 3317; 33170; 3333; 3379; 3386; 33901; 33902;
   34016; 34024; 34076; 3408; 3410; 3411; 3412; 3413; 3414; 3415; 34467;
   34816; 34817; 34818; 34819; 34877; 34921; 34930; 35660; 35661; 35724;
   35738; 35739; 36003; 36004; 36005; 36347; 36348; 36349; 37440; 37441;
   37443; 7936; 7937; 7938]%float.

Definition validExtensionParams : list float :=
  [34047; 35723; 36063; 34852; 34853; 34854; 34229; 36392; 36795; 38449]%float.

Definition shaderTypes : list ShaderType := [FRAGMENT_SHADER; VERTEX_SHADER].

Definition precisionTypes : list PrecisionType :=
  [LOW_FLOAT; MEDIUM_FLOAT; HIGH_FLOAT; LOW_INT; MEDIUM_INT; HIGH_INT].

Definition shaderTypeName (t : ShaderType) : jsstring :=
  match t with
  | FRAGMENT_SHADER => lit "FRAGMENT_SHADER"
  | VERTEX_SHADER => lit "VERTEX_SHADER"
  end.

Definition precisionTypeName (t : PrecisionType) : jsstring :=
  match t with
  | LOW_FLOAT => lit "LOW_FLOAT"
  | MEDIUM_FLOAT => lit "MEDIUM_FLOAT"
  | HIGH_FLOAT => lit "HIGH_FLOAT"
  | LOW_INT => lit "LOW_INT"
  | MEDIUM_INT => lit "MEDIUM_INT"
  | HIGH_INT => lit "HIGH_INT"
  end.

Definition rendererInfoExtensionName : jsstring := lit "WEBGL_debug_renderer_info".
Definition polygonModeExtensionName : jsstring := lit "WEBGL_polygon_mode".

(** [set.has(code)] on a set of numbers none of which is zero or NaN. *)
Definition setHas (set : list float) (code : float) : bool :=
  existsb (fun member => (code =? member)%float) set.

(** ** The context and its cache *)

(** What [canvas.getContext(type)] does. *)
Inductive ContextAttempt :=
| ContextThrows
| ContextNull
| Context (gl : GlContext).

(** A canvas: [getContext] for ['webgl'] and for ['experimental-webgl']. *)
Record Canvas := {
  webgl : ContextAttempt;
  experimentalWebgl : ContextAttempt
}.

(** [cache.webgl]: [None] when the property is missing, [Some context]
    for [{ context }], whose context may be missing itself. *)
Definition Cache := option (option GlContext).

(** [getWebGLContext(cache)] with the canvas that [document.createElement]
    gives: the context and the cache afterwards. *)
Definition getWebGLContext (cache : Cache) (canvas : Canvas)
  : option GlContext * Cache :=
  match cache with
  | Some entry => (entry, cache)
  | None =>
      let context :=
        match webgl canvas with
        | Context gl => Some gl
        | _ =>
            match experimentalWebgl canvas with
            | Context gl => Some gl
            | _ => None
            end
        end in
      (context, Some context)
  end.

Definition isValidParameterGetter (gl : GlContext) : bool := hasGetParameter gl.

Definition shouldAvoidDebugRendererInfo (e : Engine) : bool := isGecko e.

Definition shouldAvoidPolygonModeExtensions (e : Engine) : bool :=
  Audio.isChromium (browser e) || Audio.isWebKit (browser e).

(** ** [getWebGlBasics] *)

Record WebGlBasicsPayload := {
  version : jsstring;
  vendor : jsstring;
  vendorUnmasked : option jsstring;
  renderer : jsstring;
  rendererUnmasked : option jsstring;
  shadingLanguageVersion : jsstring
}.

(** [value?.toString()] *)
Definition toStringOpt (v : ParameterValue) : option jsstring :=
  match v with
  | HasText text => Some text
  | _ => None
  end.

(** [value?.toString() || ''] *)
Definition toStringOrEmpty (v : ParameterValue) : jsstring :=
  match v with
  | HasText text => text
  | _ => []
  end.

Definition getWebGlBasics (e : Engine) (cache : Cache) (canvas : Canvas)
  : (float + WebGlBasicsPayload) * Cache :=
  let '(context, cache) := getWebGLContext cache canvas in
  (match context with
   | None => inl STATUS_NO_GL_CONTEXT
   | Some gl =>
       if negb (isValidParameterGetter gl) then inl STATUS_GET_PARAMETER_NOT_A_FUNCTION
       else
         let debugExtension :=
           if shouldAvoidDebugRendererInfo e then None
           else getExtension gl rendererInfoExtensionName in
         inr {| version := toStringOrEmpty (getParameter gl (constant gl (lit "VERSION")));
                vendor := toStringOrEmpty (getParameter gl (constant gl (lit "VENDOR")));
                vendorUnmasked :=
                  match debugExtension with
                  | Some ext =>
                      toStringOpt
                        (getParameter gl (extensionConstant ext (lit "UNMASKED_VENDOR_WEBGL")))
                  | None => Some []
                  end;
                renderer := toStringOrEmpty (getParameter gl (constant gl (lit "RENDERER")));
                rendererUnmasked :=
                  match debugExtension with
                  | Some ext =>
                      toStringOpt
                        (getParameter gl (extensionConstant ext (lit "UNMASKED_RENDERER_WEBGL")))
                  | None => Some []
                  end;
                shadingLanguageVersion :=
                  toStringOrEmpty
                    (getParameter gl (constant gl (lit "SHADING_LANGUAGE_VERSION"))) |}
   end, cache).

(** ** [getWebGlExtensions] *)

(** [!key.match(/[^A-Z0-9_x]/)] *)
Definition isConstantLike (key : jsstring) : bool :=
  forallb (fun c => ((65 <=? c) && (c <=? 90)) || ((48 <=? c) && (c <=? 57))
                    || (c =? 95) || (c =? 120)) key.

Definition getConstantsFromPrototype (keys : list jsstring) : list jsstring :=
  filter isConstantLike keys.

Section WithRuntime.

Context {R : Runtime}.

(** The text of a parameter in a template literal. *)
Definition templateText (v : ParameterValue) : jsstring :=
  match v with
  | IsNull => lit "null"
  | IsUndefined => lit "undefined"
  | HasText text => text
  end.

(** [`${constant}=${code}${valid.has(code) ? `=${gl.getParameter(code)}` : ''}`] *)
Definition parameterLine (gl : GlContext) (valid : list float)
  (constant : jsstring) (code : float) : jsstring :=
  constant ++ 61 :: Number_toString code
    ++ (if setHas valid code then 61 :: templateText (getParameter gl code) else []).

(** [getShaderPrecision(gl, shaderType, precisionType)] *)
Definition getShaderPrecision (gl : GlContext) (shaderType : ShaderType)
  (precisionType : PrecisionType) : list float :=
  match getShaderPrecisionFormat gl shaderType precisionType with
  | Some (rangeMin, rangeMax, precision) => [rangeMin; rangeMax; precision]
  | None => []
  end.

(** [`${shaderType}.${precisionType}=${shaderPrecision.join(',')}`] *)
Definition shaderPrecisionLine (gl : GlContext) (shaderType : ShaderType)
  (precisionType : PrecisionType) : jsstring :=
  shaderTypeName shaderType ++ 46 :: precisionTypeName precisionType
    ++ 61 :: joinComma (map Number_toString (getShaderPrecision gl shaderType precisionType)).

(** The loop over the supported extensions: the names that could not be
    loaded and the lines of the parameters of the others. *)
Fixpoint extensionLoop (e : Engine) (gl : GlContext) (names : list jsstring)
  (unsupportedExtensions extensionParameters : list jsstring)
  : list jsstring * list jsstring :=
  match names with
  | [] => (unsupportedExtensions, extensionParameters)
  | name :: rest =>
      if (str_eqb name rendererInfoExtensionName && shouldAvoidDebugRendererInfo e)
         || (str_eqb name polygonModeExtensionName && shouldAvoidPolygonModeExtensions e)
      then extensionLoop e gl rest unsupportedExtensions extensionParameters
      else
        match getExtension gl name with
        | None =>
            extensionLoop e gl rest (unsupportedExtensions ++ [name]) extensionParameters
        | Some extension =>
            extensionLoop e gl rest unsupportedExtensions
              (extensionParameters ++
               map (fun constant =>
                      parameterLine gl validExtensionParams constant
                        (extensionConstant extension constant))
                   (getConstantsFromPrototype (extensionPrototypeKeys extension)))
        end
  end.

Definition getWebGlExtensions (e : Engine) (cache : Cache) (canvas : Canvas)
  : (float + Anchor.WebGlExtensionsPayload) * Cache :=
  let '(context, cache) := getWebGLContext cache canvas in
  (match context with
   | None => inl STATUS_NO_GL_CONTEXT
   | Some gl =>
       if negb (isValidParameterGetter gl) then inl STATUS_GET_PARAMETER_NOT_A_FUNCTION
       else
         let extensions := getSupportedExtensions gl in
         let attributes :=
           match getContextAttributes gl with
           | Some contextAttributes =>
               map (fun attribute => fst attribute ++ 61 :: snd attribute)
                   contextAttributes
           | None => []
           end in
         let parameters :=
           map (fun constant =>
                  parameterLine gl validContextParameters constant (WebGl.constant gl constant))
               (getConstantsFromPrototype (prototypeKeys gl)) in
         let '(unsupportedExtensions, extensionParameters) :=
           match extensions with
           | Some names => extensionLoop e gl names [] []
           | None => ([], [])
           end in
         let shaderPrecisions :=
           flat_map (fun shaderType =>
                       map (shaderPrecisionLine gl shaderType) precisionTypes)
                    shaderTypes in
         inr {| Anchor.contextAttributes := attributes;
                Anchor.parameters := Array_sort parameters;
                Anchor.shaderPrecisions := shaderPrecisions;
                Anchor.supportedExtensions := extensions;
                Anchor.extensionParameters := Array_sort extensionParameters;
                Anchor.unsupportedExtensions := unsupportedExtensions |}
   end, cache).

End WithRuntime.

End WebGl.

(* ================================================================== *)
(** * sources/webgpu.ts *)
(* ================================================================== *)

Module WebGpu.

(** [adapter.adapterInfo], when it is truthy. *)
Record AdapterInfo := {
  infoVendor : value;
  infoArchitecture : value;
  infoDevice : value
}.

Record Adapter := {
  adapterIsFallbackAdapter : value;
  adapterInfo : option AdapterInfo
}.

(** What [getWebGpuInfo] meets: an exception anywhere in the [try] block
    (reading [navigator], calling or awaiting [requestAdapter]), a
    navigator without a usable [gpu.requestAdapter], or the adapter that
    the request resolves to ([None]: a falsy one). *)
Inductive Environment :=
| Throws
| NoRequestAdapter
| Resolves (adapter : option Adapter).

(** [typeof v === 'string' ? v : undefined] *)
Definition stringOrUndefined (v : value) : option jsstring :=
  match v with
  | VStr s => Some s
  | _ => None
  end.

(** [v === true] *)
Definition isTrue (v : value) : bool :=
  match v with
  | VBool true => true
  | _ => false
  end.

Definition getWebGpuInfo (env : Environment) : Anchor.WebGpuInfo :=
  match env with
  | Throws | NoRequestAdapter =>
      {| Anchor.supported := false; Anchor.isFallbackAdapter := None;
         Anchor.gpuVendor := None; Anchor.architecture := None; Anchor.device := None |}
  | Resolves None =>
      {| Anchor.supported := true; Anchor.isFallbackAdapter := Some true;
         Anchor.gpuVendor := None; Anchor.architecture := None; Anchor.device := None |}
  | Resolves (Some adapter) =>
      let info := adapterInfo adapter in
      {| Anchor.supported := true;
         Anchor.isFallbackAdapter := Some (isTrue (adapterIsFallbackAdapter adapter));
         Anchor.gpuVendor :=
           match info with Some i => stringOrUndefined (infoVendor i) | None => None end;
         Anchor.architecture :=
           match info with Some i => stringOrUndefined (infoArchitecture i) | None => None end;
         Anchor.device :=
           match info with Some i => stringOrUndefined (infoDevice i) | None => None end |}
  end.

End WebGpu.

(* ================================================================== *)
(** * sources/eme.ts *)
(* ================================================================== *)

Module Eme.

(** The probe of the Permissions Policy: the inner [try] block throws, the
    document has no policy with a function [allowsFeature], or
    [allowsFeature("encrypted-media")] returns a value. *)
Inductive PolicyProbe :=
| PolicyThrows
| NoPolicy
| AllowsFeature (answer : value).

(** The probe of [window.isSecureContext]: the inner [try] block throws,
    or the property has a value ([VUndefined] without a window). *)
Inductive SecureContextProbe :=
| SecureContextThrows
| IsSecureContext (v : value).

(** The probe of the key system: reading [navigator] throws, there is no
    function [requestMediaKeySystemAccess], or the request settles. *)
Inductive KeySystemProbe :=
| NavigatorThrows
| NoRequestFunction
| AccessGranted
| AccessDenied.

Record Environment := {
  policy : PolicyProbe;
  secureContext : SecureContextProbe;
  keySystem : KeySystemProbe
}.

Definition isFalse (v : value) : bool :=
  match v with
  | VBool false => true
  | _ => false
  end.

Definition getEmeInfo (env : Environment) : Anchor.EmeInfo :=
  let unknown := {| Anchor.widevineSupported := None |} in
  if match policy env with
     | AllowsFeature answer => isFalse answer
     | _ => false
     end
  then unknown
  else if match secureContext env with
          | IsSecureContext v => isFalse v
          | SecureContextThrows => false
          end
  then unknown
  else
    match keySystem env with
    | NavigatorThrows | NoRequestFunction => unknown
    | AccessGranted => {| Anchor.widevineSupported := Some true |}
    | AccessDenied => {| Anchor.widevineSupported := Some false |}
    end.

End Eme.

(* ================================================================== *)
(** * computeBrowserSignals.ts *)
(* ================================================================== *)

Module Signals.

(** ** [getPerformanceTiming] *)

(** The variables of the loop. *)
Record Timing := {
  min : float;
  max : float;
  curr : float
}.

(** One turn of the loop, with the value that [performance.now()]
    returns in it. *)
Definition timingStep (now : float) (t : Timing) : Timing :=
  let prev := curr t in
  let curr := now in
  if (prev <? curr)%float then
    let diff := (curr - prev)%float in
    if (min t <? diff)%float then
      if (diff <? max t)%float
      then {| min := min t; max := diff; curr := curr |}
      else {| min := min t; max := max t; curr := curr |}
    else if (diff <? min t)%float
    then {| min := diff; max := min t; curr := curr |}
    else {| min := min t; max := max t; curr := curr |}
  else {| min := min t; max := max t; curr := curr |}.

(** [turns] turns of the loop; [now i] is what the call number [i] of
    [performance.now()] returns, [None] when it throws. *)
Fixpoint timingLoop (now : nat -> option float) (turns : nat) (i : nat) (t : Timing)
  : option Timing :=
  match turns with
  | O => Some t
  | S turns' =>
      match now i with
      | Some time => timingLoop now turns' (S i) (timingStep time t)
      | None => None
      end
  end.

(** The turns of the loop. *)
Definition timingTurns : nat := Z.to_nat 50000.

(** [getPerformanceTiming()]; [performance] is [None] without a window or
    without [performance.now]. *)
Definition getPerformanceTiming (performance : option (nat -> option float))
  : option Anchor.PerformanceTimingInfo :=
  match performance with
  | None => None
  | Some now =>
      match now O with
      | None => None
      | Some prev =>
          match timingLoop now timingTurns 1 {| min := 1; max := 1; curr := prev |} with
          | Some t => Some {| Anchor.precision := min t; Anchor.baseline := max t |}
          | None => None
          end
      end
  end.

(** ** [computeBrowserSignals] *)

(** The properties of [navigator] that are read. *)
Record Navigator := {
  userAgent : option jsstring;
  hardwareConcurrency : value;
  deviceMemory : value
}.

(** What the sources meet.  [mathFingerprint] is what [getMathFingerprint()]
    returns, and [firstAttempt] what the first [tryRender] meets when the
    audio source starts a render job. *)
Record Environment := {
  navigator : option Navigator;
  engine : WebGl.Engine;
  canvasOfBasics : WebGl.Canvas;
  canvasOfExtensions : WebGl.Canvas;
  webgpu : WebGpu.Environment;
  eme : Eme.Environment;
  mathFingerprint : list (jsstring * float);
  firstAttempt : Audio.Attempt;
  performance : option (nat -> option float)
}.

(** [typeof v === 'number' ? v : undefined] *)
Definition numberOrUndefined (v : value) : option float :=
  match v with
  | VNum x => Some x
  | _ => None
  end.

Section WithRuntime.

Context {R : Runtime}.

(** [computeBrowserSignals()]: each WebGL collector gets a cache of its
    own, and the audio source is called and its answer kept as it is. *)
Definition computeBrowserSignals (env : Environment) : Anchor.BrowserSignals :=
  let nav := navigator env in
  let basics := fst (WebGl.getWebGlBasics (engine env) None (canvasOfBasics env)) in
  let extensions :=
    fst (WebGl.getWebGlExtensions (engine env) None (canvasOfExtensions env)) in
  let webgpu := WebGpu.getWebGpuInfo (webgpu env) in
  let eme := Eme.getEmeInfo (eme env) in
  let mathFingerprint := mathFingerprint env in
  let audioFingerprint :=
    Audio.getAudioFingerprint (WebGl.browser (engine env)) (firstAttempt env) in
  let performanceTiming := getPerformanceTiming (performance env) in
  let webgl :=
    match basics with
    | inr basics =>
        Some {| Anchor.version := Some (WebGl.version basics);
                Anchor.vendor := Some (WebGl.vendor basics);
                Anchor.renderer := Some (WebGl.renderer basics);
                Anchor.vendorUnmasked := WebGl.vendorUnmasked basics;
                Anchor.rendererUnmasked := WebGl.rendererUnmasked basics;
                Anchor.shadingLanguageVersion := Some (WebGl.shadingLanguageVersion basics);
                Anchor.extensions :=
                  match extensions with
                  | inr extensions => Anchor.supportedExtensions extensions
                  | inl _ => None
                  end |}
    | inl _ => None
    end in
  let webgExtensions :=
    match extensions with
    | inr extensions => Some extensions
    | inl _ => None
    end in
  {| Anchor.userAgent :=
       Some (match nav with
             | Some n => match userAgent n with Some ua => ua | None => [] end
             | None => []
             end);
     Anchor.hardwareConcurrency :=
       match nav with Some n => numberOrUndefined (hardwareConcurrency n) | None => None end;
     Anchor.deviceMemory :=
       match nav with Some n => numberOrUndefined (deviceMemory n) | None => None end;
     Anchor.webgl := webgl;
     Anchor.webgExtensions := webgExtensions;
     Anchor.audioFingerprint := Some audioFingerprint;
     Anchor.mathFingerprint := Some mathFingerprint;
     Anchor.webgpu := Some webgpu;
     Anchor.eme := Some eme;
     Anchor.performanceTiming := performanceTiming;
     Anchor.others := [] |}.

End WithRuntime.

End Signals.

(* ================================================================== *)
(** * agent.ts *)
(* ================================================================== *)

Module Agent.

Record GetResult := {
  visitorId : jsstring;
  anchor : value;
  signals : Anchor.BrowserSignals;
  version : jsstring
}.

(** What the debug message interpolates. *)
Record DebugData := {
  debugVersion : jsstring;
  debugUserAgent : option jsstring;
  timeBetweenLoadAndGet : Z;
  debugVisitorId : jsstring;
  debugAnchor : value
}.

Section WithRuntime.

Context {R : Runtime}.

(** [agent.get(options)] once the signals are there: the result and what
    [console.log] is given, if anything.  The object [signals] of the
    result is the one [computeVisitorId] was given, with the arrays that
    [computeAnchor] sorted in place. *)
Definition get (version : jsstring) (debug : bool) (creationTime : Z)
  (collected : Anchor.BrowserSignals) (optionsDebug : bool) (startTime : Z)
  : option (GetResult * option DebugData) :=
  match Anchor.computeVisitorId collected with
  | None => None
  | Some id =>
      Some ({| visitorId := Anchor.visitorId id;
               anchor := Anchor.anchor id;
               signals := Anchor.sortedInPlace collected;
               version := version |},
            if debug || optionsDebug
            then Some {| debugVersion := version;
                         debugUserAgent := Anchor.userAgent collected;
                         timeBetweenLoadAndGet := startTime - creationTime;
                         debugVisitorId := Anchor.visitorId id;
                         debugAnchor := Anchor.anchor id |}
            else None)
  end.

(** [load(options)] and then [get(options)]. *)
Definition loadAndGet (version : jsstring) (debug : bool) (creationTime : Z)
  (env : Signals.Environment) (optionsDebug : bool) (startTime : Z)
  : option (GetResult * option DebugData) :=
  get version debug creationTime (Signals.computeBrowserSignals env)
      optionsDebug startTime.

End WithRuntime.

End Agent.

(* ================================================================== *)
(** * An engine to evaluate the code on concrete inputs *)
(* ================================================================== *)

Module Sample.

(** The integer a float is, when it is one. *)
Definition integerOf (x : float) : option Z :=
  match Prim2SF x with
  | S754_zero _ => Some 0
  | S754_finite s m e =>
      if 0 <=? e then Some (cond_Zopp s (Z.pos m * 2 ^ e))
      else if Z.pos m mod 2 ^ (- e) =? 0 then Some (cond_Zopp s (Z.pos m / 2 ^ (- e)))
      else None
  | _ => None
  end.

(** The decimal numeral of an integer. *)
Definition decimal (n : Z) : jsstring :=
  lit (NilZero.string_of_int (Z.to_int n)).

Definition lowerBasicLatin (c : Z) : Z :=
  if (65 <=? c) && (c <=? 90) then c + 32 else c.

(** An engine that prints the integers below [10^21] in magnitude as
    [Number::toString] does (every other number is printed [?]) and
    lower-cases the Basic Latin letters. *)
Definition engine : Runtime := {|
  Number_toString x :=
    match integerOf x with
    | Some n => if Z.abs n <? 10 ^ 21 then decimal n else lit "?"
    | None => lit "?"
    end;
  String_toLowerCase s := map lowerBasicLatin s
|}.

End Sample.

(* ================================================================== *)
(** * The vocabulary of the properties *)
(* ================================================================== *)

(** ** Floats *)

(** The sign of a float as [0 <= x] sees it: a zero of either sign, a
    positive number or [+Infinity]. *)
Definition notNegative (s : spec_float) : bool :=
  match s with
  | S754_zero _ => true
  | S754_infinity false => true
  | S754_finite false _ _ => true
  | _ => false
  end.

(** ** The render job *)

Section RenderJobVocabulary.

Import Audio.

Definition isTry (t : Timer) : bool :=
  match callback t with CallTryRender => true | CallRejectTimeout => false end.

Definition isTimeout (t : Timer) : bool :=
  match callback t with CallRejectTimeout => true | CallTryRender => false end.

(** The pending retries and the pending completion timeouts. *)
Definition countTry (j : Job) : nat := length (filter isTry (timers j)).
Definition countTimeout (j : Job) : nat := length (filter isTimeout (timers j)).

Definition notRejected {A} (p : Settled A) : Prop :=
  match p with
  | Rejected _ => False
  | _ => True
  end.

(** [Date.now()] is positive. *)
Definition clockStarted (ev : Event) : Prop :=
  match ev with
  | Fire _ a => 0 < nowStarted a
  | _ => True
  end.

(** The reading of the clock inside [startRunningTimeout]. *)
Definition clockAtTimeout (ev : Event) : Z :=
  match ev with
  | Finalize now => now
  | Fire _ a => nowTimeout a
  | Complete _ => 0
  end.

(** The run of [tryRender] that an event starts: the retry that fires. *)
Definition retryOf (j : Job) (ev : Event) : option Attempt :=
  match ev with
  | Fire i a =>
      match nth_error (timers j) i with
      | Some t =>
          match callback t with
          | CallTryRender => Some a
          | CallRejectTimeout => None
          end
      | None => None
      end
  | _ => None
  end.

(** A run of [tryRender] that reaches [case "running"]. *)
Definition findsRunning (a : Attempt) : bool :=
  match startRenderingThrows a, contextState a with
  | None, StateRunning => true
  | _, _ => false
  end.

(** The instant a job reaches [Running] in the events that follow: the
    reading of the clock in the first run of [tryRender] that finds the
    context running. *)
Fixpoint reachedRunningAfter (j : Job) (evs : list Event) : option Z :=
  match evs with
  | [] => None
  | ev :: rest =>
      match retryOf j ev with
      | Some a =>
          if findsRunning a then Some (nowStarted a)
          else reachedRunningAfter (step j ev) rest
      | None => reachedRunningAfter (step j ev) rest
      end
  end.

(** The same for the job that [startRenderingAudio] starts, whose first
    run of [tryRender] is in the executor. *)
Definition reachedRunningAt (first : Attempt) (evs : list Event) : option Z :=
  if findsRunning first then Some (nowStarted first)
  else reachedRunningAfter (startRenderingAudio first) evs.

Definition isFinalizeEvent (ev : Event) : bool :=
  match ev with
  | Finalize _ => true
  | _ => false
  end.

(** What holds of a job after any events: at most one retry and one
    completion timeout are pending; a retry is pending only before the job
    runs; a completion timeout is pending only on a finalized, running job
    that is not rejected; a job rejected for another reason than the
    timeout never ran. *)
Record Inv (j : Job) : Prop := {
  inv_try_le : (countTry j <= 1)%nat;
  inv_started_nonneg : 0 <= startedRunningAt j;
  inv_started_no_try : 0 < startedRunningAt j -> countTry j = 0%nat;
  inv_timeout_le : (countTimeout j <= 1)%nat;
  inv_timeout :
    countTimeout j = 1%nat ->
    isFinalized j = true /\ 0 < startedRunningAt j /\ notRejected (resultPromise j);
  inv_rejected :
    forall e, resultPromise j = Rejected e -> e <> InnerError InnerTimeout ->
              startedRunningAt j = 0 /\ countTry j = 0%nat;
  inv_timed_out :
    resultPromise j = Rejected (InnerError InnerTimeout) ->
    isFinalized j = true /\ 0 < startedRunningAt j /\ countTimeout j = 0%nat
}.

(** The states in which [tryRender] runs: nothing pending, not yet
    running, not rejected. *)
Definition Quiet (j : Job) : Prop :=
  countTry j = 0%nat /\ countTimeout j = 0%nat /\
  startedRunningAt j = 0 /\ notRejected (resultPromise j).

(** The rejection for suspension, on its own: it needs the finalization
    and a counter that has reached the maximum, and both stay. *)
Definition SuspendedAfterBudget (j : Job) : Prop :=
  resultPromise j = Rejected (InnerError InnerSuspended) ->
  isFinalized j = true /\ renderTryMaxCount <= renderTryCount j.

End RenderJobVocabulary.

(** ** The stable hash *)

(** The two accumulators at the start, seeded with two constants and the
    length. *)
Definition seeds (json : jsstring) : Z * Z :=
  (bitxor 0xdeadbeef (Z.of_nat (length json)),
   bitxor 0x41c6ce57 (Z.of_nat (length json))).

(** The last pass: each lane takes bits of the other. *)
Definition finalize2 (h : Z * Z) : Z * Z :=
  let h1 := bitxor (imul (bitxor (fst h) (ushr (fst h) 16)) 2246822507)
                   (imul (bitxor (snd h) (ushr (snd h) 13)) 3266489909) in
  let h2 := bitxor (imul (bitxor (snd h) (ushr (snd h) 16)) 2246822507)
                   (imul (bitxor h1 (ushr h1 13)) 3266489909) in
  (h1, h2).

Definition lane (h : Z) : jsstring := padStart (toString16 (ushr h 0)) 8 48.

Section StableHashVocabulary.

Context {R : Runtime}.

(** The string [stableHash] hashes. *)
Definition hashedText (v : value) : option jsstring :=
  match v with
  | VStr s => Some s
  | _ => canonicalize v
  end.

End StableHashVocabulary.

(** ** The anchor *)

Section AnchorVocabulary.

Import Audio Anchor.

(** The [audio] of the literal. *)
Definition audioValue (b : BrowserSignals) : value :=
  match audioFingerprint b with
  | Some (Immediate x) => VNum x
  | _ => VUndefined
  end.

(** Two bags with the same fields apart from [userAgent] and the
    properties that the interface does not declare. *)
Definition sameStableSignals (b1 b2 : BrowserSignals) : Prop :=
  hardwareConcurrency b1 = hardwareConcurrency b2 /\
  deviceMemory b1 = deviceMemory b2 /\
  webgl b1 = webgl b2 /\
  webgExtensions b1 = webgExtensions b2 /\
  audioFingerprint b1 = audioFingerprint b2 /\
  mathFingerprint b1 = mathFingerprint b2 /\
  webgpu b1 = webgpu b2 /\
  eme b1 = eme b2 /\
  performanceTiming b1 = performanceTiming b2.

End AnchorVocabulary.

(** ** The canonical encoder *)

Fixpoint nodupb (l : list jsstring) : bool :=
  match l with
  | [] => true
  | k :: l' => negb (mem k l') && nodupb l'
  end.

(** No key occurs twice in an object, at any depth. *)
Fixpoint distinctKeys (v : value) : bool :=
  match v with
  | VArr items => forallb distinctKeys items
  | VObj props =>
      nodupb (map fst props) && forallb (fun kv => distinctKeys (snd kv)) props
  | _ => true
  end.

Unset Elimination Schemes.

(** Two values that are equal up to the order of the keys of their
    objects, at every depth; arrays keep their order. *)
Inductive sameRecords : value -> value -> Prop :=
| same_undefined : sameRecords VUndefined VUndefined
| same_null : sameRecords VNull VNull
| same_bool b : sameRecords (VBool b) (VBool b)
| same_num x : sameRecords (VNum x) (VNum x)
| same_str s : sameRecords (VStr s) (VStr s)
| same_arr items1 items2 :
    Forall2 sameRecords items1 items2 ->
    sameRecords (VArr items1) (VArr items2)
| same_obj props1 permuted props2 :
    Permutation props1 permuted ->
    Forall2 (fun kv1 kv2 => fst kv1 = fst kv2 /\ sameRecords (snd kv1) (snd kv2))
            permuted props2 ->
    sameRecords (VObj props1) (VObj props2).

Set Elimination Schemes.

(** The canonical order of two keys: array indices first, by their number,
    then the other keys, code unit by code unit. *)
Definition keyBefore (k k' : jsstring) : Prop :=
  match arrayIndex k, arrayIndex k' with
  | Some i, Some j => i < j
  | Some _, None => True
  | None, Some _ => False
  | None, None => str_ltb k k' = true
  end.

Definition strLt (a b : jsstring) : Prop := str_ltb a b = true.

Definition notProto (k : jsstring) : bool := negb (str_eqb k proto).

(** The number a string of digits writes. *)
Definition digitsValue (k : jsstring) : Z :=
  fold_left (fun acc d => acc * 10 + (d - 48)) k 0.

(** A numeral without a leading zero. *)
Definition canonicalNumeral (k : jsstring) : Prop :=
  forallb isDigit k = true /\
  match k with
  | [] => False
  | c :: rest => c <> 48 \/ rest = []
  end.

(** Apostrophes for the quotation marks of a JSON text. *)
Definition json (s : string) : jsstring :=
  map (fun c => if c =? 39 then 34 else c) (lit s).

(** An object with the keys ["10"] and ["9"]. *)
Definition indexKeys : value :=
  VObj [(lit "10", VNum 1%float); (lit "9", VNum 2%float)].

(** ** Reading a canonical text back *)

(** The members of a text that have a value. *)
Definition present {A} (members : list (jsstring * option A)) : list (jsstring * A) :=
  flat_map (fun m => match snd m with
                     | Some w => [(fst m, w)]
                     | None => []
                     end) members.

Section ParseVocabulary.

Context {R : Runtime}.

(** What [JSON.parse] returns for the text of [v] has the text of [v]. *)
Definition readsBack (v : value) : Prop :=
  match parseCanonical v with
  | Some w => canonicalize w = canonicalize v
  | None => v = VUndefined
  end.

End ParseVocabulary.

(** ** Concrete inputs *)

Section AudioInputs.

Import Audio.



Definition suspendedInForeground : Attempt := {|
  startRenderingThrows := None;
  contextState := StateSuspended;
  documentHidden := false;
  nowStarted := 1000;
  nowTimeout := 1000
|}.

Definition runningAt1000 : Attempt := {|
  startRenderingThrows := None;
  contextState := StateRunning;
  documentHidden := false;
  nowStarted := 1000;
  nowTimeout := 1000
|}.

Definition flatBuffer : AudioBuffer := {| channel0 := repeat 0.5%float 5000 |}.

(** A rendered buffer of 5000 samples whose last sample is NaN. *)
Definition nanBuffer : AudioBuffer :=
  {| channel0 := repeat 0.5%float 4999 ++ [nan] |}.

Definition retryTimer : Timer :=
  {| callback := CallTryRender; delay := renderRetryDelay |}.

End AudioInputs.

Definition emptySignals : Anchor.BrowserSignals := {|
  Anchor.userAgent := None;
  Anchor.hardwareConcurrency := None;
  Anchor.deviceMemory := None;
  Anchor.webgl := None;
  Anchor.webgExtensions := None;
  Anchor.audioFingerprint := None;
  Anchor.mathFingerprint := None;
  Anchor.webgpu := None;
  Anchor.eme := None;
  Anchor.performanceTiming := None;
  Anchor.others := []
|}.

(** A desktop with eight cores, seen in a wide and in an emulated narrow
    viewport. *)
Definition desktopSignals : Anchor.BrowserSignals := {|
  Anchor.userAgent := Some (lit "Mozilla/5.0 (Macintosh)");
  Anchor.hardwareConcurrency := Some 8%float;
  Anchor.deviceMemory := Some 8%float;
  Anchor.webgl := None;
  Anchor.webgExtensions := None;
  Anchor.audioFingerprint := Some (Audio.Immediate (Audio.code Audio.NotSupported));
  Anchor.mathFingerprint := None;
  Anchor.webgpu := None;
  Anchor.eme := Some {| Anchor.widevineSupported := Some true |};
  Anchor.performanceTiming := None;
  Anchor.others := [(lit "platform", VStr (lit "MacIntel"));
                    (lit "devicePixelRatio", VNum 2%float);
                    (lit "viewport", VObj [(lit "width", VNum 1440%float);
                                           (lit "height", VNum 900%float)])]
|}.

Definition emulatedSignals : Anchor.BrowserSignals := {|
  Anchor.userAgent := Some (lit "Mozilla/5.0 (iPhone)");
  Anchor.hardwareConcurrency := Some 8%float;
  Anchor.deviceMemory := Some 8%float;
  Anchor.webgl := None;
  Anchor.webgExtensions := None;
  Anchor.audioFingerprint := Some (Audio.Immediate (Audio.code Audio.NotSupported));
  Anchor.mathFingerprint := None;
  Anchor.webgpu := None;
  Anchor.eme := Some {| Anchor.widevineSupported := Some true |};
  Anchor.performanceTiming := None;
  Anchor.others := [(lit "platform", VStr (lit "iPhone"));
                    (lit "devicePixelRatio", VNum 3%float);
                    (lit "viewport", VObj [(lit "width", VNum 390%float);
                                           (lit "height", VNum 844%float)])]
|}.

(** A bag with every source present: strings to trim and lower-case,
    arrays to sort and to deduplicate, and a math record with array-index
    keys, a negative zero and a key to escape. *)
Definition richSignals : Anchor.BrowserSignals := {|
  Anchor.userAgent := Some (lit "Mozilla/5.0 (Macintosh)");
  Anchor.hardwareConcurrency := Some 12%float;
  Anchor.deviceMemory := None;
  Anchor.webgl := Some {|
    Anchor.version := Some (lit "WebGL 1.0");
    Anchor.vendor := Some (lit "WebKit");
    Anchor.renderer := Some (lit " WebKit WebGL ");
    Anchor.vendorUnmasked := Some (lit "  Apple Inc. ");
    Anchor.rendererUnmasked := Some [];
    Anchor.shadingLanguageVersion := None;
    Anchor.extensions := Some [lit "b_ext"; lit "a_ext"; lit "Z_ext"; lit "a_ext"] |};
  Anchor.webgExtensions := Some {|
    Anchor.contextAttributes := [lit "alpha=true"];
    Anchor.parameters := [lit "P2(2)"; lit "P10(1)"; lit "A(3)"];
    Anchor.shaderPrecisions := [lit "V.LOW=1"; lit "F.LOW=2"];
    Anchor.supportedExtensions := Some [lit "x"; lit "b"; lit "x"; lit "a"; lit "b"];
    Anchor.extensionParameters := [];
    Anchor.unsupportedExtensions := [] |};
  Anchor.audioFingerprint := Some (Audio.Immediate 124%float);
  Anchor.mathFingerprint :=
    Some [(lit "tan", 3%float); (lit "10", 1%float); (lit "acos", (-0)%float);
          (lit "2", 7%float); (lit "quo\te", 5%float)];
  Anchor.webgpu := Some {|
    Anchor.supported := true;
    Anchor.isFallbackAdapter := None;
    Anchor.gpuVendor := None;
    Anchor.architecture := None;
    Anchor.device := None |};
  Anchor.eme := Some {| Anchor.widevineSupported := Some false |};
  Anchor.performanceTiming :=
    Some {| Anchor.precision := 5%float; Anchor.baseline := 100%float |};
  Anchor.others := []
|}.

(** A bag whose audio fingerprint is NaN. *)
Definition nanAudioSignals : Anchor.BrowserSignals := {|
  Anchor.userAgent := None;
  Anchor.hardwareConcurrency := None;
  Anchor.deviceMemory := None;
  Anchor.webgl := None;
  Anchor.webgExtensions := None;
  Anchor.audioFingerprint := Some (Audio.Immediate nan);
  Anchor.mathFingerprint := None;
  Anchor.webgpu := None;
  Anchor.eme := None;
  Anchor.performanceTiming := None;
  Anchor.others := []
|}.

(* ================================================================== *)
(** * The vocabulary of the further properties *)
(* ================================================================== *)

(** ** The order of the numbers *)

(** The place of a number in the order of [<]: sign class, then exponent,
    then mantissa; [None] for NaN, which is in no order. *)
Definition floatKey (f : spec_float) : option (Z * Z * Z) :=
  match f with
  | S754_zero _ => Some (0, 0, 0)
  | S754_infinity s => Some (if s then -2 else 2, 0, 0)
  | S754_nan => None
  | S754_finite s m e =>
      Some (if s then (-1, - e, Z.neg m) else (1, e, Z.pos m))
  end.

Definition lexCompare (a b : Z * Z * Z) : comparison :=
  let '(a1, a2, a3) := a in
  let '(b1, b2, b3) := b in
  match a1 ?= b1 with
  | Eq => match a2 ?= b2 with
          | Eq => a3 ?= b3
          | c => c
          end
  | c => c
  end.

Definition lexLt (a b : Z * Z * Z) : Prop :=
  fst (fst a) < fst (fst b) \/
  (fst (fst a) = fst (fst b) /\
   (snd (fst a) < snd (fst b) \/ (snd (fst a) = snd (fst b) /\ snd a < snd b))).

(** ** The 32-bit values and the hexadecimal numerals of the stable hash *)

(** A value that is its own [ToInt32]: what [^] and [Math.imul] return. *)
Definition isInt32 (x : Z) : Prop := ToInt32 x = x.

(** The value of a lowercase hexadecimal digit. *)
Definition hexDigitValue (c : Z) : Z := if c <? 58 then c - 48 else c - 87.

(** [parseInt(s, 16)] on lowercase hexadecimal digits. *)
Definition parseHex (s : jsstring) : Z :=
  fold_left (fun acc c => acc * 16 + hexDigitValue c) s 0.

(** ** The audio fingerprint and the render job *)

(** What the sum of [getHash] can be: NaN, or a number that is not
    negative. *)
Definition nanOrNotNegative (s : spec_float) : bool :=
  match s with
  | S754_nan => true
  | _ => notNegative s
  end.

Section RenderJobStates.

Import Audio.

(** A job that is not finalized: only retries are pending, and it is not
    rejected with an error of its own. *)
Definition notGivenUp (j : Job) : Prop :=
  isFinalized j = false /\
  Forall (fun t => callback t = CallTryRender) (timers j) /\
  forall n, resultPromise j <> Rejected (InnerError n).

(** A run of [tryRender] that finds the context suspended and the
    document hidden. *)
Definition hiddenAndSuspended (a : Attempt) : Prop :=
  startRenderingThrows a = None /\ contextState a = StateSuspended /\
  documentHidden a = true.

(** What happens while the tab is hidden and the context stays
    suspended: the callable is invoked, or a retry fires and finds the
    context suspended and the document hidden. *)
Definition inBackground (ev : Event) : Prop :=
  match ev with
  | Finalize _ => True
  | Fire _ a => hiddenAndSuspended a
  | Complete _ => False
  end.

(** A job that is still trying: it has not run, its promise is pending,
    its retry is pending, and it has counted fewer than three suspensions
    in the foreground. *)
Definition stillTrying (j : Job) : Prop :=
  startedRunningAt j = 0 /\ resultPromise j = Pending /\
  renderTryCount j < renderTryMaxCount /\ timers j = [retryTimer].

End RenderJobStates.

(** ** The fields of the anchor *)

Section AnchorFields.

Import Audio Anchor.

Context {R : Runtime}.

(** The [gpu] of the literal. *)
Definition gpuValue (b : BrowserSignals) : value :=
  let vendor := normalizeString (orString (optField (webgl b) vendorUnmasked)
                                          (optField (webgl b) vendor)) in
  let renderer := normalizeString (orString (optField (webgl b) rendererUnmasked)
                                            (optField (webgl b) renderer)) in
  match vendor, renderer with
  | None, None => VUndefined
  | _, _ => VObj (objectLiteral [(lit "vendor", ofOption VStr vendor);
                                 (lit "renderer", ofOption VStr renderer)])
  end.

(** The [math] of the literal. *)
Definition mathValue (b : BrowserSignals) : value :=
  ofOption (fun m => VObj (map (fun kx => (fst kx, VNum (snd kx))) m))
           (mathFingerprint b).

(** The [webgpu] of the literal. *)
Definition webgpuValue (b : BrowserSignals) : value :=
  ofOption (fun g => VObj (objectLiteral
              [(lit "supported", VBool (supported g));
               (lit "isFallbackAdapter",
                VBool (match isFallbackAdapter g with Some f => f | None => false end))]))
           (webgpu b).

(** The [eme] of the literal. *)
Definition emeValue (b : BrowserSignals) : value :=
  match optField (eme b) widevineSupported with
  | Some w => VNum (if w then 1%float else 0%float)
  | None => VUndefined
  end.

(** The five digests of the literal; [None] is an exception. *)
Definition ptHash (b : BrowserSignals) : option value :=
  match performanceTiming b with
  | Some t => option_map VStr
                (stableHash (VObj (objectLiteral [(lit "precision", VNum (precision t));
                                                  (lit "baseline", VNum (baseline t))])))
  | None => Some VUndefined
  end.

Definition extHash (b : BrowserSignals) : option value :=
  match option_map Array_sort (optField (webgl b) extensions) with
  | Some sorted => option_map VStr (stableHash (strings sorted))
  | None => Some VUndefined
  end.

Definition xExtHash (b : BrowserSignals) : option value :=
  hashNonEmpty (fun l => Array_sort (uniq l))
               (optField (webgExtensions b) supportedExtensions).

Definition paramsHash (b : BrowserSignals) : option value :=
  hashNonEmpty Array_sort (option_map parameters (webgExtensions b)).

Definition shaderHash (b : BrowserSignals) : option value :=
  hashNonEmpty Array_sort (option_map shaderPrecisions (webgExtensions b)).

(** A bag that differs from another in nothing that the anchor reads:
    the lists may be in another order, the list of
    [webgExtensions.extensions] may repeat its elements, and the fields
    that [computeAnchor] never reads may be anything. *)
Definition sameGpu (g1 g2 : WebGl) : Prop :=
  vendor g1 = vendor g2 /\ vendorUnmasked g1 = vendorUnmasked g2 /\
  renderer g1 = renderer g2 /\ rendererUnmasked g1 = rendererUnmasked g2 /\
  match extensions g1, extensions g2 with
  | Some l1, Some l2 => Permutation l1 l2
  | None, None => True
  | _, _ => False
  end.

Definition sameExtensions (e1 e2 : WebGlExtensionsPayload) : Prop :=
  Permutation (parameters e1) (parameters e2) /\
  Permutation (shaderPrecisions e1) (shaderPrecisions e2) /\
  match supportedExtensions e1, supportedExtensions e2 with
  | Some l1, Some l2 => forall x, In x l1 <-> In x l2
  | None, None => True
  | _, _ => False
  end.

Definition sameWebGpu (g1 g2 : WebGpuInfo) : Prop :=
  supported g1 = supported g2 /\
  match isFallbackAdapter g1 with Some f => f | None => false end =
  match isFallbackAdapter g2 with Some f => f | None => false end.

Definition optionRel {A} (rel : A -> A -> Prop) (a b : option A) : Prop :=
  match a, b with
  | Some x, Some y => rel x y
  | None, None => True
  | _, _ => False
  end.

Definition sameDeviceSignals (b1 b2 : BrowserSignals) : Prop :=
  hardwareConcurrency b1 = hardwareConcurrency b2 /\
  deviceMemory b1 = deviceMemory b2 /\
  optionRel sameGpu (webgl b1) (webgl b2) /\
  optionRel sameExtensions (webgExtensions b1) (webgExtensions b2) /\
  audioValue b1 = audioValue b2 /\
  mathFingerprint b1 = mathFingerprint b2 /\
  optionRel sameWebGpu (webgpu b1) (webgpu b2) /\
  optField (eme b1) widevineSupported = optField (eme b2) widevineSupported /\
  performanceTiming b1 = performanceTiming b2.

End AnchorFields.

(** ** utils/data.ts and utils/misc.ts *)

(** What [maxInIterator] holds after the items [seen]: no score when there
    was none, and otherwise one of them with its score, which no score of
    the others is above. *)
Definition bestSoFar {T : Type} (getItemScore : T -> float)
  (seen : list T) (st : T * option float) : Prop :=
  match snd st with
  | None => seen = []
  | Some score =>
      score = getItemScore (fst st) /\ In (fst st) seen /\
      forall x, In x seen -> (getItemScore (fst st) <? getItemScore x)%float = false
  end.

(** A byte, and a code unit of a string. *)
Definition isByte (b : Z) : Prop := 0 <= b < 256.

Definition isCodeUnit (c : Z) : Prop := 0 <= c < 65536.

(** [lines.join(sep)] *)
Fixpoint joinWith (sep : Z) (lines : list jsstring) : jsstring :=
  match lines with
  | [] => []
  | [line] => line
  | line :: rest => line ++ sep :: joinWith sep rest
  end.

(** ** The measurement of the clock *)

(** What the loop keeps: [min <= max <= 1]. *)
Definition timingBounds (t : Signals.Timing) : Prop :=
  (Signals.min t <=? Signals.max t)%float = true /\
  (Signals.max t <=? 1)%float = true.

(** The ticks that the loop has seen when it is about to make the call
    number [i]: none is below [min]. *)
Definition seenTicks (now : nat -> option float) (i : nat) (t : Signals.Timing) : Prop :=
  (exists j, i = S j /\ now j = Some (Signals.curr t)) /\
  forall j prev curr,
    (S j < i)%nat -> now j = Some prev -> now (S j) = Some curr ->
    (prev <? curr)%float = true ->
    (Signals.min t <=? curr - prev)%float = true.

(** A clock whose ticks are never below one: between two calls that
    follow each other it stands still, goes back, or advances by one or
    more. *)
Definition coarseClock (now : nat -> option float) : Prop :=
  forall j prev curr,
    now j = Some prev -> now (S j) = Some curr ->
    (prev <? curr)%float = true -> (curr - prev <? 1)%float = false.

(** ** The WebGL collectors *)

(** An extension that the loop passes over: its name is one of the two
    that a browser is not asked for. *)
Definition passedOver (e : WebGl.Engine) (name : jsstring) : bool :=
  (str_eqb name WebGl.rendererInfoExtensionName && WebGl.shouldAvoidDebugRendererInfo e)
  || (str_eqb name WebGl.polygonModeExtensionName
      && WebGl.shouldAvoidPolygonModeExtensions e).

(** Sorted, repetitions allowed: no element is below one before it. *)
Definition ascending (l : list jsstring) : Prop :=
  StronglySorted (fun a b => str_ltb b a = false) l.

(** ** Further concrete inputs *)

(** An attempt in a hidden tab that finds the context suspended. *)
Definition suspendedInBackground : Audio.Attempt := {|
  Audio.startRenderingThrows := None;
  Audio.contextState := Audio.StateSuspended;
  Audio.documentHidden := true;
  Audio.nowStarted := 1000;
  Audio.nowTimeout := 1000
|}.

(** The signals of [richSignals] as another collection could give them:
    the lists in another order, the extensions without repetition, and
    other values in the fields that the anchor does not read. *)
Definition richSignalsShuffled : Anchor.BrowserSignals := {|
  Anchor.userAgent := Some (lit "Mozilla/5.0 (X11)");
  Anchor.hardwareConcurrency := Some 12%float;
  Anchor.deviceMemory := None;
  Anchor.webgl := Some {|
    Anchor.version := Some (lit "WebGL 2.0");
    Anchor.vendor := Some (lit "WebKit");
    Anchor.renderer := Some (lit " WebKit WebGL ");
    Anchor.vendorUnmasked := Some (lit "  Apple Inc. ");
    Anchor.rendererUnmasked := Some [];
    Anchor.shadingLanguageVersion := Some (lit "WebGL GLSL ES 3.00");
    Anchor.extensions := Some [lit "a_ext"; lit "b_ext"; lit "Z_ext"; lit "a_ext"] |};
  Anchor.webgExtensions := Some {|
    Anchor.contextAttributes := [];
    Anchor.parameters := [lit "P10(1)"; lit "P2(2)"; lit "A(3)"];
    Anchor.shaderPrecisions := [lit "F.LOW=2"; lit "V.LOW=1"];
    Anchor.supportedExtensions := Some [lit "a"; lit "b"; lit "x"];
    Anchor.extensionParameters := [lit "E(1)"];
    Anchor.unsupportedExtensions := [lit "a"] |};
  Anchor.audioFingerprint := Some (Audio.Immediate 124%float);
  Anchor.mathFingerprint :=
    Some [(lit "tan", 3%float); (lit "10", 1%float); (lit "acos", (-0)%float);
          (lit "2", 7%float); (lit "quo\te", 5%float)];
  Anchor.webgpu := Some {|
    Anchor.supported := true;
    Anchor.isFallbackAdapter := Some false;
    Anchor.gpuVendor := Some (lit "apple");
    Anchor.architecture := Some (lit "common-3");
    Anchor.device := None |};
  Anchor.eme := Some {| Anchor.widevineSupported := Some false |};
  Anchor.performanceTiming :=
    Some {| Anchor.precision := 5%float; Anchor.baseline := 100%float |};
  Anchor.others := [(lit "platform", VStr (lit "Linux"))]
|}.

(** An error with an own enumerable property [name] and a stack of two
    lines. *)
Definition sampleError : Misc.ErrorObject := {|
  Misc.errorName := VStr (lit "Error");
  Misc.errorMessage := VStr (lit "failed");
  Misc.errorStack := Some (lit "Error: failed" ++ 10 :: lit "    at f");
  Misc.ownEnumerable := [(lit "code", VNum 7%float); (lit "name", VStr (lit "E7"))]
|}.

(** A rendering context with three constants, two supported extensions of
    which one cannot be loaded, and one precision format for all. *)
Definition sampleContext : WebGl.GlContext := {|
  WebGl.hasGetParameter := true;
  WebGl.getParameter := fun code =>
    if (code =? 7936)%float then WebGl.HasText (lit "WebKit")
    else if (code =? 7937)%float then WebGl.HasText (lit "WebKit WebGL")
    else if (code =? 7938)%float then WebGl.HasText (lit "WebGL 1.0")
    else WebGl.IsNull;
  WebGl.prototypeKeys := [lit "VERSION"; lit "canvas"; lit "VENDOR"; lit "RENDERER"];
  WebGl.constant := fun key =>
    if str_eqb key (lit "VENDOR") then 7936%float
    else if str_eqb key (lit "RENDERER") then 7937%float
    else if str_eqb key (lit "VERSION") then 7938%float
    else 0%float;
  WebGl.getExtension := fun name =>
    if str_eqb name (lit "OES_vertex_array_object")
    then Some {| WebGl.extensionPrototypeKeys := [lit "VERTEX_ARRAY_BINDING_OES"];
                 WebGl.extensionConstant := fun _ => 34229%float |}
    else None;
  WebGl.getSupportedExtensions :=
    Some [lit "OES_vertex_array_object"; lit "EXT_blend_minmax";
          lit "WEBGL_polygon_mode"];
  WebGl.getContextAttributes := Some [(lit "alpha", lit "true")];
  WebGl.getShaderPrecisionFormat := fun _ _ => Some (127, 127, 23)%float
|}.

(** A Chromium browser with that context, no WebGPU, Widevine and a clock
    that stands still. *)
Definition sampleEnvironment : Signals.Environment := {|
  Signals.navigator :=
    Some {| Signals.userAgent := Some (lit "Mozilla/5.0 (X11)");
            Signals.hardwareConcurrency := VNum 8%float;
            Signals.deviceMemory := VUndefined |};
  Signals.engine :=
    {| WebGl.browser :=
         {| Audio.OfflineAudioContext := true;
            Audio.webkitOfflineAudioContext := false;
            Audio.isWebKit := false;
            Audio.isDesktopWebKit := false;
            Audio.isWebKit606OrNewer := false;
            Audio.isWebKit616OrNewer := false;
            Audio.isSafariWebKit := false;
            Audio.isChromium := true;
            Audio.isSamsungInternet := false;
            Audio.isChromium122OrNewer := true |};
       WebGl.isGecko := false |};
  Signals.canvasOfBasics :=
    {| WebGl.webgl := WebGl.Context sampleContext;
       WebGl.experimentalWebgl := WebGl.ContextNull |};
  Signals.canvasOfExtensions :=
    {| WebGl.webgl := WebGl.ContextThrows;
       WebGl.experimentalWebgl := WebGl.Context sampleContext |};
  Signals.webgpu := WebGpu.NoRequestAdapter;
  Signals.eme :=
    {| Eme.policy := Eme.NoPolicy;
       Eme.secureContext := Eme.IsSecureContext (VBool true);
       Eme.keySystem := Eme.AccessGranted |};
  Signals.mathFingerprint := [(lit "acos", 1%float)];
  Signals.firstAttempt := runningAt1000;
  Signals.performance := Some (fun _ => Some 5%float)
|}.

(** A clock of quarter milliseconds that advances once, at its fourth
    call, and a clock of whole milliseconds that does the same. *)
Definition quarterClock (i : nat) : option float :=
  Some (if (i <? 3)%nat then 5%float else 5.25%float).

Definition millisecondClock (i : nat) : option float :=
  Some (if (i <? 3)%nat then 7%float else 8%float).

(* ================================================================== *)
(** * Properties *)
(* ================================================================== *)

Lemma ToUint32_range x : 0 <= ToUint32 x < 2 ^ 32.
Proof. unfold ToUint32. apply Z.mod_pos_bound. lia. Qed.

Lemma ushr0_range x : 0 <= ushr x 0 < 2 ^ 32.
Proof.
  unfold ushr. change (ToUint32 0 mod 32) with 0. rewrite Z.shiftr_0_r.
  apply ToUint32_range.
Qed.

Lemma hexDigit_lower d : 0 <= d < 16 -> isLowerHex (hexDigit d) = true.
Proof.
  intros H. unfold hexDigit, isLowerHex.
  destruct (d <? 10) eqn:E; [apply Z.ltb_lt in E | apply Z.ltb_ge in E].
  - replace (48 <=? 48 + d) with true by (symmetry; apply Z.leb_le; lia).
    replace (48 + d <=? 57) with true by (symmetry; apply Z.leb_le; lia).
    reflexivity.
  - replace (97 <=? 87 + d) with true by (symmetry; apply Z.leb_le; lia).
    replace (87 + d <=? 102) with true by (symmetry; apply Z.leb_le; lia).
    apply orb_true_r.
Qed.

Lemma str_eqb_eq a b : str_eqb a b = true <-> a = b.
Proof.
  revert b. induction a as [|x a IH]; intros [|y b]; simpl; split; intros H;
    try reflexivity; try discriminate.
  - apply andb_true_iff in H as [Hx Hr]. apply Z.eqb_eq in Hx.
    apply IH in Hr. congruence.
  - injection H as -> ->. rewrite Z.eqb_refl. simpl. now apply IH.
Qed.

Lemma str_eqb_refl a : str_eqb a a = true.
Proof. now apply str_eqb_eq. Qed.

Lemma str_eqb_neq a b : str_eqb a b = false <-> a <> b.
Proof.
  split.
  - intros H E. apply str_eqb_eq in E. congruence.
  - intros H. destruct (str_eqb a b) eqn:E; [|reflexivity].
    apply str_eqb_eq in E. contradiction.
Qed.

(** The fuel of [toString16] covers every digit: the numeral of [n] is
    the numeral of [n / 16] followed by the digit of [n mod 16]. *)
Lemma toString16_aux_app fuel : forall n acc,
  toString16_aux fuel n acc = toString16_aux fuel n [] ++ acc.
Proof.
  induction fuel as [|fuel IH]; intros n acc; cbn; [reflexivity|].
  destruct (n <? 16); [reflexivity|].
  rewrite IH, (IH _ [hexDigit (n mod 16)]), <- app_assoc. reflexivity.
Qed.

Lemma toString16_aux_fuel fuel1 : forall fuel2 n acc,
  0 <= n < 16 ^ Z.of_nat fuel1 -> n < 16 ^ Z.of_nat fuel2 ->
  (1 <= fuel1)%nat -> (1 <= fuel2)%nat ->
  toString16_aux fuel1 n acc = toString16_aux fuel2 n acc.
Proof.
  induction fuel1 as [|fuel1 IH]; intros fuel2 n acc H1 H2 Hf1 Hf2; [lia|].
  destruct fuel2 as [|fuel2]; [lia|]. cbn.
  destruct (n <? 16) eqn:E; [reflexivity|]. apply Z.ltb_ge in E.
  rewrite Nat2Z.inj_succ, Z.pow_succ_r in H1, H2 by lia.
  assert (Hq : 0 <= n / 16) by (apply Z.div_pos; lia).
  assert (Hq1 : n / 16 < 16 ^ Z.of_nat fuel1)
    by (apply Z.div_lt_upper_bound; lia).
  assert (Hq2 : n / 16 < 16 ^ Z.of_nat fuel2)
    by (apply Z.div_lt_upper_bound; lia).
  apply IH; try lia.
  - destruct fuel1; [cbn in Hq1; assert (1 <= n / 16) by (apply Z.div_le_lower_bound; lia); lia | lia].
  - destruct fuel2; [cbn in Hq2; assert (1 <= n / 16) by (apply Z.div_le_lower_bound; lia); lia | lia].
Qed.

Lemma log2_fuel n : 0 <= n -> n < 16 ^ Z.of_nat (S (Z.to_nat (Z.log2 n))).
Proof.
  intros Hn. rewrite Nat2Z.inj_succ, Z2Nat.id by apply Z.log2_nonneg.
  destruct (Z.eq_dec n 0) as [->|Hne]; [cbn; lia|].
  pose proof (Z.log2_spec n ltac:(lia)) as [_ Hu].
  eapply Z.lt_le_trans; [exact Hu|].
  pose proof (Z.log2_nonneg n).
  replace 16 with (2 ^ 4) by reflexivity. rewrite <- Z.pow_mul_r by lia.
  apply Z.pow_le_mono_r; lia.
Qed.

Lemma toString16_digits n :
  0 <= n ->
  toString16 n =
  if n <? 16 then [hexDigit n] else toString16 (n / 16) ++ [hexDigit (n mod 16)].
Proof.
  intros Hn. unfold toString16 at 1. cbn [toString16_aux].
  destruct (n <? 16) eqn:E; [reflexivity|]. apply Z.ltb_ge in E.
  rewrite toString16_aux_app. f_equal. unfold toString16.
  assert (Hq : 0 <= n / 16) by (apply Z.div_pos; lia).
  assert (Hl : 4 <= Z.log2 n) by (apply Z.log2_le_pow2; cbn; lia).
  apply toString16_aux_fuel.
  - split; [exact Hq|]. apply Z.div_lt_upper_bound; [lia|].
    pose proof (log2_fuel n Hn) as H.
    rewrite Nat2Z.inj_succ, Z.pow_succ_r in H by lia. lia.
  - now apply log2_fuel.
  - apply Nat2Z.inj_le. rewrite Z2Nat.id; lia.
  - lia.
Qed.

(** ** The digits of a lane *)

Lemma toString16_aux_length fuel : forall k n acc,
  (1 <= k)%nat -> 0 <= n < 16 ^ Z.of_nat k ->
  (length (toString16_aux fuel n acc) <= k + length acc)%nat.
Proof.
  induction fuel as [|fuel IH]; intros k n acc Hk Hn; simpl.
  - lia.
  - destruct (n <? 16) eqn:E; simpl.
    + lia.
    + apply Z.ltb_ge in E.
      destruct k as [|[|k]]; [lia| change (16 ^ Z.of_nat 1) with 16 in Hn; lia |].
      specialize (IH (S k) (n / 16) (hexDigit (n mod 16) :: acc)).
      simpl in IH. etransitivity; [apply IH|]; try lia.
      split; [apply Z.div_pos; lia|].
      apply Z.div_lt_upper_bound; [lia|].
      replace (Z.of_nat (S (S k))) with (Z.succ (Z.of_nat (S k))) in Hn by lia.
      rewrite Z.pow_succ_r in Hn by lia. lia.
Qed.

Lemma toString16_aux_hex fuel : forall n acc,
  0 <= n -> forallb isLowerHex acc = true ->
  forallb isLowerHex (toString16_aux fuel n acc) = true.
Proof.
  induction fuel as [|fuel IH]; intros n acc Hn Hacc; simpl.
  - exact Hacc.
  - destruct (n <? 16) eqn:E.
    + apply Z.ltb_lt in E. simpl. rewrite hexDigit_lower by lia. exact Hacc.
    + apply Z.ltb_ge in E. apply IH.
      * apply Z.div_pos; lia.
      * simpl. rewrite hexDigit_lower, Hacc; [reflexivity|].
        apply Z.mod_pos_bound. lia.
Qed.

Lemma forallb_repeat {A} (p : A -> bool) x n :
  p x = true -> forallb p (repeat x n) = true.
Proof. intros H. induction n; simpl; [reflexivity|]. now rewrite H. Qed.

(** A lane: the eight digits [(h >>> 0).toString(16).padStart(8, '0')]. *)
Lemma lane_length h : length (padStart (toString16 (ushr h 0)) 8 48) = 8%nat.
Proof.
  pose proof (ushr0_range h) as Hr.
  pose proof (toString16_aux_length (S (Z.to_nat (Z.log2 (ushr h 0)))) 8
                (ushr h 0) [] ltac:(lia)) as Hl.
  change (16 ^ Z.of_nat 8) with (2 ^ 32) in Hl. specialize (Hl Hr).
  change (8 + length (@nil Z))%nat with 8%nat in Hl.
  unfold padStart. rewrite length_app, repeat_length. unfold toString16. lia.
Qed.

Lemma lane_hex h : forallb isLowerHex (padStart (toString16 (ushr h 0)) 8 48) = true.
Proof.
  unfold padStart. rewrite forallb_app. apply andb_true_iff. split.
  - now apply forallb_repeat.
  - apply toString16_aux_hex; [apply ushr0_range | reflexivity].
Qed.

Lemma stableHashString_length json : length (stableHashString json) = 16%nat.
Proof.
  unfold stableHashString.
  destruct (fold_left mix json _) as [h1 h2].
  rewrite length_app, !lane_length. reflexivity.
Qed.

Lemma stableHashString_hex json : forallb isLowerHex (stableHashString json) = true.
Proof.
  unfold stableHashString.
  destruct (fold_left mix json _) as [h1 h2].
  rewrite forallb_app, !lane_hex. reflexivity.
Qed.

(* ------------------------------------------------------------------ *)
(** ** Floats that are not negative *)

Lemma leb_zero_notNegative x : (0 <=? x)%float = notNegative (Prim2SF x).
Proof.
  rewrite leb_spec. change (Prim2SF 0) with (S754_zero false).
  destruct (Prim2SF x) as [s|[|]| |[|] m e]; reflexivity.
Qed.

Lemma shr_1_m_nonneg mrs : 0 <= shr_m mrs -> 0 <= shr_m (shr_1 mrs).
Proof.
  destruct mrs as [m r s]. simpl. intros H.
  destruct m as [|[p|p|]|p]; simpl; lia.
Qed.

Lemma iter_pos_shr_1_nonneg p : forall mrs,
  0 <= shr_m mrs -> 0 <= shr_m (iter_pos shr_1 p mrs).
Proof.
  induction p as [p IH|p IH|]; intros mrs H; simpl.
  - apply IH, IH, shr_1_m_nonneg, H.
  - apply IH, IH, H.
  - apply shr_1_m_nonneg, H.
Qed.

Lemma shr_fexp_m_nonneg m e l :
  0 <= m -> 0 <= shr_m (fst (shr_fexp prec emax m e l)).
Proof.
  intros H. unfold shr_fexp, shr.
  assert (H0 : 0 <= shr_m (shr_record_of_loc m l))
    by (destruct l as [|[| |]]; exact H).
  destruct (fexp prec emax (Zdigits2 m + e) - e) as [|p|p]; simpl;
    [exact H0 | apply iter_pos_shr_1_nonneg, H0 | exact H0].
Qed.

Lemma round_nearest_even_nonneg m l : 0 <= m -> 0 <= round_nearest_even m l.
Proof.
  intros H. destruct l as [|[| |]]; simpl; try lia.
  destruct (Z.even m); lia.
Qed.

Lemma binary_round_aux_notNegative m e l :
  0 <= m -> notNegative (binary_round_aux prec emax false m e l) = true.
Proof.
  intros H. unfold binary_round_aux.
  pose proof (shr_fexp_m_nonneg m e l H) as H1.
  destruct (shr_fexp prec emax m e l) as [mrs' e']. simpl in H1.
  pose proof (shr_fexp_m_nonneg _ e' loc_Exact
                (round_nearest_even_nonneg _ (loc_of_shr_record mrs') H1)) as H2.
  destruct (shr_fexp prec emax (round_nearest_even _ _) e' loc_Exact) as [mrs'' e''].
  simpl in H2. destruct (shr_m mrs'') as [|p|p]; [reflexivity| |lia].
  destruct (e'' <=? emax - prec); reflexivity.
Qed.

Lemma SFadd_notNegative a b :
  notNegative a = true -> notNegative b = true ->
  notNegative (SFadd prec emax a b) = true.
Proof.
  destruct a as [sa|[|]| |[|] ma ea]; try discriminate;
    destruct b as [sb|[|]| |[|] mb eb]; try discriminate; intros _ _;
    try reflexivity; try (destruct sa; reflexivity);
    try (destruct sa, sb; reflexivity).
  unfold SFadd, cond_Zopp, binary_normalize.
  change (Z.pos ?p + Z.pos ?q) with (Z.pos (p + q)).
  unfold binary_round.
  destruct (shl_align _ _ _) as [mz ez].
  apply binary_round_aux_notNegative. lia.
Qed.

Lemma abs_notNegative x : is_nan x = false -> notNegative (Prim2SF (abs x)) = true.
Proof.
  unfold is_nan. rewrite eqb_spec, abs_spec. unfold SFeqb.
  destruct (Prim2SF x) as [s|s| |s m e]; simpl; try reflexivity. discriminate.
Qed.

Lemma add_abs_notNegative hash x :
  notNegative (Prim2SF hash) = true -> is_nan x = false ->
  notNegative (Prim2SF (hash + abs x)) = true.
Proof.
  intros Hh Hx. rewrite add_spec. apply SFadd_notNegative; [exact Hh|].
  now apply abs_notNegative.
Qed.

Lemma float_neq (x y : float) : (x =? x)%float <> (x =? y)%float -> x <> y.
Proof. intros H E. apply H. now rewrite <- E. Qed.

(* ------------------------------------------------------------------ *)
(** ** The window of the hash *)

Lemma fold_left_indices {A B} (f : B -> A -> B) (d : A) (suf : list A) :
  forall (pre : list A) (init : B),
    fold_left f suf init =
    fold_left (fun acc i => f acc (nth i (pre ++ suf) d))
              (seq (length pre) (length suf)) init.
Proof.
  induction suf as [|x suf IH]; intros pre init; simpl; [reflexivity|].
  rewrite nth_middle.
  specialize (IH (pre ++ [x]) (f init x)).
  rewrite <- app_assoc, length_app, Nat.add_1_r in IH. exact IH.
Qed.

Lemma fold_left_skipn {A B} (f : B -> A -> B) (d : A) (l : list A) (a : nat) (init : B) :
  (a <= length l)%nat ->
  fold_left f (skipn a l) init =
  fold_left (fun acc i => f acc (nth i l d)) (seq a (length l - a)) init.
Proof.
  intros H.
  pose proof (fold_left_indices f d (skipn a l) (firstn a l) init) as E.
  rewrite firstn_skipn, length_firstn, length_skipn in E.
  now rewrite Nat.min_l in E by exact H.
Qed.

Lemma getHash_notNegative signal :
  Forall (fun x => is_nan x = false) signal -> (0 <=? Audio.getHash signal)%float = true.
Proof.
  intros H. rewrite leb_zero_notNegative. unfold Audio.getHash.
  assert (H0 : notNegative (Prim2SF 0) = true) by reflexivity.
  revert H0. generalize 0%float as hash.
  induction H as [|x signal Hx _ IH]; intros hash H0; simpl; [exact H0|].
  apply IH, add_abs_notNegative; assumption.
Qed.

(* ================================================================== *)
(** * The audio acquisition *)
(* ================================================================== *)

Section AudioEntry.

Import Audio.

Lemma code_injective f g : code f = code g -> f = g.
Proof.
  destruct f, g; intros H; try reflexivity; exfalso; revert H;
    apply float_neq; vm_compute; discriminate.
Qed.





End AudioEntry.

(* ------------------------------------------------------------------ *)
(** ** The render job: what holds of every job the events can reach *)

Section RenderJob.

Import Audio.

Lemma filter_snoc_length {A} (p : A -> bool) l x :
  length (filter p (l ++ [x])) = (length (filter p l) + if p x then 1 else 0)%nat.
Proof. rewrite filter_app, length_app. simpl. now destruct (p x). Qed.

Lemma filter_removeNth_length {A} (p : A -> bool) : forall l i t,
  nth_error l i = Some t ->
  (length (filter p l) =
   length (filter p (removeNth i l)) + if p t then 1 else 0)%nat.
Proof.
  induction l as [|x l IH]; intros [|i] t H; simpl in *; try discriminate.
  - injection H as ->. destruct (p t); simpl; lia.
  - specialize (IH i t H). destruct (p x); simpl; lia.
Qed.

Ltac inv_solve :=
  split; unfold countTry, countTimeout, makeInnerError in *; cbn in *;
  rewrite ?filter_snoc_length in *; cbn in *;
  intros; repeat split; try lia; try tauto; try congruence; try discriminate;
  try match goal with
      | H : ?p = Rejected _, H0 : notRejected ?p |- _ =>
          rewrite H in H0; contradiction
      | HF : forall e, ?p = Rejected e -> _, H : ?p = Rejected _, H0 : _ <> _ |- _ =>
          destruct (HF _ H H0); first [assumption | lia | discriminate]
      | HE : ?c -> _ /\ _ /\ _, H : ?c |- _ =>
          destruct (HE H) as (? & ? & ?); first [assumption | lia | discriminate]
      end.

Lemma tryRender_Inv a j : Quiet j -> 0 < nowStarted a -> Inv (tryRender a j).
Proof.
  intros (Ht & Ho & Hs & Hp) Hnow.
  destruct j as [fin cnt st pr tm], a as [thr cs hid n1 n2].
  unfold countTry, countTimeout in *. cbn in *. subst st.
  unfold tryRender, reject, startRunningTimeout, setTimeout. cbn.
  destruct thr as [[en em]|]; [|destruct cs; [|destruct hid|]]; cbn;
    destruct pr; cbn in *; try contradiction;
    destruct fin; cbn; try destruct (renderTryMaxCount <=? _); cbn;
    inv_solve.
Qed.

Lemma Inv_start first : 0 < nowStarted first -> Inv (startRenderingAudio first).
Proof. intros H. apply tryRender_Inv; [|exact H]. repeat split. Qed.

Lemma Inv_step j ev : Inv j -> clockStarted ev -> Inv (step j ev).
Proof.
  intros [A B C D E F G] Hc. destruct ev as [now|buffer|i a]; cbn.
  - (* finalize *)
    destruct j as [fin cnt st pr tm]. unfold countTry, countTimeout in *. cbn in *.
    unfold finalize, startRunningTimeout, setTimeout. cbn.
    destruct fin; cbn; [split; assumption|].
    destruct (0 <? st) eqn:Est; cbn;
      [apply Z.ltb_lt in Est | apply Z.ltb_ge in Est].
    + assert (length (filter isTimeout tm) = 0%nat)
        by (destruct (length (filter isTimeout tm)) as [|[|n]] eqn:En;
            [reflexivity | destruct (E eq_refl); discriminate | lia]).
      assert (notRejected pr).
      { destruct pr as [|b|e]; cbn; trivial.
        destruct e as [[|]|en em].
        - destruct (G eq_refl); discriminate.
        - destruct (F _ eq_refl); [discriminate | lia].
        - destruct (F _ eq_refl); [discriminate | lia]. }
      inv_solve.
    + assert (st = 0) by lia. subst st.
      inv_solve.
  - (* oncomplete *)
    destruct j as [fin cnt st pr tm]. unfold countTry, countTimeout in *. cbn in *.
    unfold resolve. cbn. destruct pr; cbn; inv_solve.
  - (* a timer fires *)
    destruct (nth_error (timers j) i) as [t|] eqn:Et; [|split; assumption].
    pose proof (filter_removeNth_length isTry _ _ _ Et) as Ctry.
    pose proof (filter_removeNth_length isTimeout _ _ _ Et) as Cout.
    destruct j as [fin cnt st pr tm]. unfold countTry, countTimeout in *. cbn in *.
    assert (Hit : isTry t = negb (isTimeout t))
      by (unfold isTry, isTimeout; destruct (callback t); reflexivity).
    rewrite Hit in Ctry.
    destruct (callback t) eqn:Ecb;
      (assert (Hio : isTimeout t = match callback t with
                                   | CallRejectTimeout => true
                                   | CallTryRender => false
                                   end) by reflexivity);
      rewrite Ecb in Hio; rewrite Hio in Ctry, Cout; cbn in Ctry, Cout.
    + (* a retry *)
      apply tryRender_Inv; [|exact Hc].
      unfold Quiet, countTry, countTimeout. cbn.
      assert (Hst : st = 0) by (destruct (Z.eq_dec st 0); [assumption|];
                                 assert (0 < st) by lia; specialize (C H); lia).
      assert (Hto : length (filter isTimeout tm) = 0%nat)
        by (destruct (length (filter isTimeout tm)) as [|[|n]] eqn:En;
            [reflexivity | destruct (E eq_refl) as (? & ? & ?); lia | lia]).
      repeat split; try lia.
      destruct pr as [|b|e]; cbn; trivial.
      destruct e as [[|]|en em].
      * destruct (G eq_refl) as (? & ? & ?); lia.
      * destruct (F _ eq_refl) as (? & ?); [discriminate | lia].
      * destruct (F _ eq_refl) as (? & ?); [discriminate | lia].
    + (* the completion timeout *)
      assert (Hone : length (filter isTimeout tm) = 1%nat) by lia.
      destruct (E Hone) as (Hfin & Hst & Hpr).
      unfold reject. cbn. destruct pr as [|b|e]; cbn in *; try contradiction;
        inv_solve.
Qed.

Lemma Inv_run first evs :
  0 < nowStarted first -> Forall clockStarted evs ->
  Inv (run (startRenderingAudio first) evs).
Proof.
  intros H0 H. unfold run.
  assert (Hgen : forall j, Inv j -> Inv (fold_left step evs j)).
  { induction H as [|ev l Hev _ IH]; intros j Hj; cbn; [exact Hj|].
    apply IH. now apply Inv_step. }
  apply Hgen. now apply Inv_start.
Qed.

Lemma SuspendedAfterBudget_tryRender a j :
  SuspendedAfterBudget j -> SuspendedAfterBudget (tryRender a j).
Proof.
  unfold SuspendedAfterBudget.
  destruct j as [fin cnt st pr tm], a as [thr cs hid n1 n2].
  unfold tryRender, reject, startRunningTimeout, setTimeout, makeInnerError. cbn.
  intros H.
  destruct thr as [[en em]|]; [|destruct cs; [|destruct hid|]]; cbn;
    destruct pr; cbn; try destruct fin; cbn;
    try (destruct (renderTryMaxCount <=? _) eqn:Ecmp; cbn;
         [apply Z.leb_le in Ecmp|]);
    intros H'; try discriminate; try (split; [reflexivity|lia]);
    try (specialize (H H'); split; [tauto|lia]).
Qed.

Lemma SuspendedAfterBudget_step j ev :
  SuspendedAfterBudget j -> SuspendedAfterBudget (step j ev).
Proof.
  intros H. destruct ev as [now|buffer|i a]; cbn.
  - unfold SuspendedAfterBudget, finalize, startRunningTimeout, setTimeout in *.
    destruct j as [fin cnt st pr tm]. cbn in *.
    destruct fin; cbn; [exact H|].
    destruct (0 <? st); cbn; intros H'; specialize (H H'); split;
      try reflexivity; tauto.
  - unfold SuspendedAfterBudget, resolve in *. destruct j as [fin cnt st pr tm].
    cbn in *. destruct pr; cbn; try exact H. discriminate.
  - destruct (nth_error (timers j) i) as [t|]; [|exact H].
    destruct (callback t).
    + apply SuspendedAfterBudget_tryRender. exact H.
    + unfold SuspendedAfterBudget, reject, makeInnerError in *.
      destruct j as [fin cnt st pr tm]. cbn in *.
      destruct pr; cbn; try exact H. discriminate.
Qed.

Lemma SuspendedAfterBudget_run first evs :
  SuspendedAfterBudget (run (startRenderingAudio first) evs).
Proof.
  unfold run.
  assert (Hgen : forall j, SuspendedAfterBudget j ->
                           SuspendedAfterBudget (fold_left step evs j)).
  { induction evs as [|ev evs IH]; intros j Hj; cbn; [exact Hj|].
    apply IH. now apply SuspendedAfterBudget_step. }
  apply Hgen. apply SuspendedAfterBudget_tryRender.
  unfold SuspendedAfterBudget. cbn. discriminate.
Qed.

Lemma isFinalized_tryRender a j : isFinalized (tryRender a j) = isFinalized j.
Proof.
  destruct j as [fin cnt st pr tm], a as [thr cs hid n1 n2].
  unfold tryRender, reject, startRunningTimeout, setTimeout. cbn.
  destruct thr as [[en em]|]; [|destruct cs; [|destruct hid|]]; cbn;
    destruct pr; try destruct fin; cbn; try reflexivity;
    destruct (renderTryMaxCount <=? _); reflexivity.
Qed.

Lemma isFinalized_run_without_finalize evs : forall j,
  forallb (fun ev => negb (isFinalizeEvent ev)) evs = true ->
  isFinalized (run j evs) = isFinalized j.
Proof.
  unfold run. induction evs as [|ev evs IH]; intros j H; cbn in *; [reflexivity|].
  apply andb_true_iff in H as [Hev Hevs]. rewrite IH by exact Hevs.
  destruct ev as [now|buffer|i a]; cbn in *; [discriminate| |].
  - unfold resolve. destruct (resultPromise j); reflexivity.
  - destruct (nth_error (timers j) i) as [t|]; [|reflexivity].
    destruct (callback t).
    + now rewrite isFinalized_tryRender.
    + unfold reject. cbn. destruct (resultPromise j); reflexivity.
Qed.

(** C2: in every execution, a job rejected with the Suspended error has
    been finalized and its counter has reached 3, so no execution without
    a finalize request rejects for suspension; a run of [tryRender] that
    meets a suspended context counts it only when the document is not
    hidden, rejects when the job is finalized and the counter has reached
    3, and otherwise schedules a retry after 500 ms and settles nothing. *)
Theorem suspension_retry_budget
  (first : Attempt) (evs : list Event) (a : Attempt) (k : Job) :
  let j := run (startRenderingAudio first) evs in
  (resultPromise j = Rejected (InnerError InnerSuspended) ->
   isFinalized j = true /\ 3 <= renderTryCount j) /\
  (forallb (fun ev => negb (isFinalizeEvent ev)) evs = true ->
   resultPromise j <> Rejected (InnerError InnerSuspended)) /\
  renderTryCount (tryRender a k) =
    (match startRenderingThrows a, contextState a, documentHidden a with
     | None, StateSuspended, false => renderTryCount k + 1
     | _, _, _ => renderTryCount k
     end) /\
  (startRenderingThrows a = None -> contextState a = StateSuspended ->
   if isFinalized k && (3 <=? renderTryCount (tryRender a k))
   then timers (tryRender a k) = timers k /\
        (resultPromise k = Pending ->
         resultPromise (tryRender a k) = Rejected (InnerError InnerSuspended))
   else timers (tryRender a k) = timers k ++ [retryTimer] /\
        delay retryTimer = 500 /\
        resultPromise (tryRender a k) = resultPromise k).
Proof.
  intros j. split; [|split; [|split]].
  - exact (SuspendedAfterBudget_run first evs).
  - intros Hevs Hrej.
    destruct (SuspendedAfterBudget_run first evs Hrej) as [Hfin _].
    fold j in Hfin. unfold j in Hfin.
    rewrite isFinalized_run_without_finalize in Hfin by exact Hevs.
    unfold startRenderingAudio in Hfin. rewrite isFinalized_tryRender in Hfin.
    discriminate.
  - destruct k as [fin cnt st pr tm], a as [thr cs hid n1 n2].
    unfold tryRender, reject, startRunningTimeout, setTimeout. cbn.
    destruct thr as [[en em]|]; [|destruct cs; [|destruct hid|]]; cbn;
      destruct pr; try destruct fin; cbn; try reflexivity;
      destruct (renderTryMaxCount <=? _); reflexivity.
  - intros Hthr Hcs.
    destruct k as [fin cnt st pr tm], a as [thr cs hid n1 n2].
    cbn in Hthr, Hcs. subst thr cs.
    unfold tryRender, reject, startRunningTimeout, setTimeout, makeInnerError. cbn.
    change renderTryMaxCount with 3.
    destruct (3 <=? cnt) eqn:E1; destruct (3 <=? cnt + 1) eqn:E2;
      destruct hid, fin, pr; cbn; rewrite ?E1, ?E2; cbn; rewrite ?E1, ?E2; cbn;
      repeat split; intros; try reflexivity; try discriminate.
Qed.

(** Five suspensions in the foreground before the finalize request leave
    the job pending; the first retry after the request rejects it, and the
    callable answers -3. *)
Example stuck_suspended :
  let j := run (startRenderingAudio suspendedInForeground)
               [Fire 0 suspendedInForeground; Fire 0 suspendedInForeground;
                Fire 0 suspendedInForeground; Fire 0 suspendedInForeground] in
  resultPromise j = Pending /\ renderTryCount j = 5 /\
  timers j = [retryTimer] /\
  let j' := run j [Finalize 4000; Fire 0 suspendedInForeground] in
  resultPromise j' = Rejected (InnerError InnerSuspended) /\
  timers j' = [] /\
  fingerprintPromise (resultPromise j') = Fulfilled (code Timeout).
Proof. cbv zeta. repeat split. Qed.

Lemma timeout_not_pending j t :
  countTimeout j = 0%nat -> In t (timers j) -> callback t = CallRejectTimeout -> False.
Proof.
  unfold countTimeout. intros H Hin Hcb.
  assert (Hf : In t (filter isTimeout (timers j)))
    by (apply filter_In; split; [exact Hin | unfold isTimeout; now rewrite Hcb]).
  destruct (filter isTimeout (timers j)); [contradiction | discriminate].
Qed.

Lemma In_removeNth {A} (x : A) : forall l i, In x (removeNth i l) -> In x l.
Proof.
  induction l as [|y l IH]; intros [|i] H; cbn in *; try contradiction.
  - now right.
  - destruct H as [H|H]; [now left | right; eauto].
Qed.

Lemma filter_removeNth_zero {A} (p : A -> bool) l i :
  length (filter p l) = 0%nat -> length (filter p (removeNth i l)) = 0%nat.
Proof.
  revert i. induction l as [|y l IH]; intros [|i] H; cbn in *; try reflexivity.
  - destruct (p y); [discriminate | exact H].
  - destruct (p y); [discriminate|]. cbn. now apply IH.
Qed.

(** The delay of a completion timeout that a step arms. *)
Lemma armed_delay j ev t :
  countTimeout j = 0%nat ->
  In t (timers (step j ev)) -> callback t = CallRejectTimeout ->
  delay t = Z.min runningMaxAwaitTime
              (startedRunningAt (step j ev) + runningSufficientTime - clockAtTimeout ev).
Proof.
  intros Hz Hin Hcb. destruct ev as [now|buffer|i a]; cbn in *.
  - unfold finalize, startRunningTimeout, setTimeout in *.
    destruct (isFinalized j) eqn:Ef; cbn in *;
      [destruct (timeout_not_pending j t Hz Hin Hcb)|].
    destruct (0 <? startedRunningAt j); cbn in *;
      [|destruct (timeout_not_pending j t Hz Hin Hcb)].
    apply in_app_or in Hin as [Hin|[<-|[]]];
      [destruct (timeout_not_pending j t Hz Hin Hcb) | reflexivity].
  - unfold resolve in Hin. destruct (resultPromise j); cbn in Hin;
      destruct (timeout_not_pending j t Hz Hin Hcb).
  - destruct (nth_error (timers j) i) as [t0|] eqn:Et;
      [|destruct (timeout_not_pending j t Hz Hin Hcb)].
    assert (Hold : forall u, In u (removeNth i (timers j)) ->
                             callback u = CallRejectTimeout -> False)
      by (intros u Hu; apply (timeout_not_pending j u Hz), (In_removeNth _ _ _ Hu)).
    assert (Hno : callback t0 = CallRejectTimeout -> False)
      by (apply (timeout_not_pending j t0 Hz); eapply nth_error_In; exact Et).
    destruct j as [fin cnt st pr tm]. cbn in *.
    destruct (callback t0) eqn:Ecb.
    + destruct a as [thr cs hid n1 n2].
      unfold tryRender, reject, startRunningTimeout, setTimeout in *. cbn in *.
      destruct thr as [[en em]|]; [|destruct cs; [|destruct hid|]]; cbn in *;
        destruct pr; try destruct fin; cbn in *;
        try destruct (renderTryMaxCount <=? _); cbn in *;
        try (destruct (Hold t Hin Hcb));
        apply in_app_or in Hin as [Hin|[<-|[]]];
        try (destruct (Hold t Hin Hcb)); try reflexivity; discriminate.
    + destruct (Hno eq_refl).
Qed.

Lemma startedRunningAt_tryRender a j :
  startedRunningAt (tryRender a j) =
  if findsRunning a then nowStarted a else startedRunningAt j.
Proof.
  destruct j as [fin cnt st pr tm], a as [thr cs hid n1 n2].
  unfold tryRender, findsRunning, reject, startRunningTimeout, setTimeout. cbn.
  destruct thr as [[en em]|]; [|destruct cs; [|destruct hid|]]; cbn;
    destruct pr; try destruct fin; cbn; try reflexivity;
    destruct (renderTryMaxCount <=? _); reflexivity.
Qed.

(** Once the job runs, [startedRunningAt] stays. *)
Lemma startedRunningAt_kept j ev :
  Inv j -> 0 < startedRunningAt j ->
  startedRunningAt (step j ev) = startedRunningAt j.
Proof.
  intros Hj Hst. pose proof (inv_started_no_try _ Hj Hst) as C.
  destruct ev as [now|buffer|i a]; cbn.
  - unfold finalize, startRunningTimeout, setTimeout.
    destruct (isFinalized j); cbn; [reflexivity|].
    destruct (0 <? startedRunningAt j); reflexivity.
  - unfold resolve. destruct (resultPromise j); reflexivity.
  - destruct (nth_error (timers j) i) as [t|] eqn:Et; [|reflexivity].
    destruct (callback t) eqn:Ecb.
    + pose proof (filter_removeNth_length isTry _ _ _ Et) as Hc.
      unfold countTry in C. unfold isTry in Hc at 3. rewrite Ecb in Hc. lia.
    + unfold reject. cbn. destruct (resultPromise j); reflexivity.
Qed.

(** Before the job runs, only a retry that finds the context running
    sets [startedRunningAt]. *)
Lemma startedRunningAt_set j ev :
  startedRunningAt j = 0 ->
  startedRunningAt (step j ev) =
  match retryOf j ev with
  | Some a => if findsRunning a then nowStarted a else 0
  | None => 0
  end.
Proof.
  intros Hst. destruct ev as [now|buffer|i a]; cbn.
  - unfold finalize, startRunningTimeout, setTimeout.
    destruct (isFinalized j); cbn; [exact Hst|].
    destruct (0 <? startedRunningAt j); exact Hst.
  - unfold resolve. destruct (resultPromise j); exact Hst.
  - destruct (nth_error (timers j) i) as [t|] eqn:Et; [|exact Hst].
    destruct (callback t) eqn:Ecb.
    + rewrite startedRunningAt_tryRender. cbn. now rewrite Hst.
    + unfold reject. cbn. destruct (resultPromise j); exact Hst.
Qed.

Lemma startedRunningAt_run evs : forall j,
  Inv j -> Forall clockStarted evs ->
  startedRunningAt (run j evs) =
  if 0 <? startedRunningAt j then startedRunningAt j
  else match reachedRunningAfter j evs with
       | Some since => since
       | None => 0
       end.
Proof.
  unfold run.
  induction evs as [|ev evs IH]; intros j Hj Hevs; cbn [fold_left reachedRunningAfter].
  - pose proof (inv_started_nonneg _ Hj).
    destruct (0 <? startedRunningAt j) eqn:E; [reflexivity|].
    apply Z.ltb_ge in E. lia.
  - apply Forall_cons_iff in Hevs as [Hev Hevs].
    rewrite (IH (step j ev) (Inv_step j ev Hj Hev) Hevs).
    destruct (0 <? startedRunningAt j) eqn:E.
    + apply Z.ltb_lt in E. rewrite (startedRunningAt_kept j ev Hj E).
      apply Z.ltb_lt in E. now rewrite E.
    + apply Z.ltb_ge in E. pose proof (inv_started_nonneg _ Hj).
      assert (Hst : startedRunningAt j = 0) by lia.
      rewrite (startedRunningAt_set j ev Hst).
      destruct (retryOf j ev) as [a|] eqn:Er; [|reflexivity].
      destruct (findsRunning a); [|reflexivity].
      assert (Ha : 0 < nowStarted a).
      { destruct ev as [now|buffer|i a']; cbn in Er; try discriminate Er.
        destruct (nth_error (timers j) i) as [t|]; [|discriminate Er].
        destruct (callback t); [|discriminate Er].
        injection Er as <-. exact Hev. }
      apply Z.ltb_lt in Ha. now rewrite Ha.
Qed.

(** [startedRunningAt] is the instant the job first reached [Running], and
    0 before. *)
Lemma startedRunningAt_origin first evs :
  0 < nowStarted first -> Forall clockStarted evs ->
  startedRunningAt (run (startRenderingAudio first) evs) =
  match reachedRunningAt first evs with
  | Some since => since
  | None => 0
  end.
Proof.
  intros H0 Hevs.
  rewrite (startedRunningAt_run evs _ (Inv_start first H0) Hevs).
  unfold reachedRunningAt, startRenderingAudio.
  rewrite startedRunningAt_tryRender. cbn [startedRunningAt].
  destruct (findsRunning first).
  - apply Z.ltb_lt in H0. now rewrite H0.
  - reflexivity.
Qed.


Lemma timeout_pending j t :
  Inv j -> In t (timers j) -> callback t = CallRejectTimeout ->
  0 < startedRunningAt j.
Proof.
  intros Hj Hin Hcb. pose proof (inv_timeout_le _ Hj) as Hle.
  destruct (countTimeout j) as [|[|n]] eqn:En; [|apply (inv_timeout _ Hj En)|lia].
  destruct (timeout_not_pending j t En Hin Hcb).
Qed.

(** C5: the completion timeout is armed by the finalize request when the
    job is running, or by the run of [tryRender] that finds the context
    running after the request; at most one is ever pending; its delay is
    the lesser of 500 ms and what is left of 5000 ms since the instant the
    job first reached Running, which is the reading of the clock in the
    first run of [tryRender] that found the context running, finalized or
    not, and which [startedRunningAt] holds from then on; when it fires
    before the job has completed, the job is rejected with the Timeout
    error. *)
Theorem completion_timeout (first : Attempt) (evs : list Event) (ev : Event) :
  0 < nowStarted first -> Forall clockStarted evs -> clockStarted ev ->
  let j := run (startRenderingAudio first) evs in
  let j' := step j ev in
  (forall now, ev = Finalize now -> isFinalized j = false ->
     0 < startedRunningAt j -> countTimeout j = 0%nat /\ countTimeout j' = 1%nat) /\
  (forall i a t, ev = Fire i a -> nth_error (timers j) i = Some t ->
     callback t = CallTryRender -> startRenderingThrows a = None ->
     contextState a = StateRunning -> isFinalized j = true ->
     countTimeout j = 0%nat /\ countTimeout j' = 1%nat /\
     startedRunningAt j' = nowStarted a) /\
  (countTimeout j' <= 1)%nat /\
  (countTimeout j = 0%nat ->
   forall t, In t (timers j') -> callback t = CallRejectTimeout ->
     delay t = Z.min 500 (startedRunningAt j' + 5000 - clockAtTimeout ev)) /\
  (0 < startedRunningAt j -> startedRunningAt j' = startedRunningAt j) /\
  (forall i a t, ev = Fire i a -> nth_error (timers j) i = Some t ->
     callback t = CallRejectTimeout ->
     (forall buffer, resultPromise j <> Fulfilled buffer) ->
     resultPromise j' = Rejected (InnerError InnerTimeout)) /\
  startedRunningAt j' =
    match reachedRunningAt first (evs ++ [ev]) with
    | Some since => since
    | None => 0
    end /\
  (forall i a t, ev = Fire i a -> nth_error (timers j) i = Some t ->
     callback t = CallTryRender -> startRenderingThrows a = None ->
     contextState a = StateRunning ->
     startedRunningAt j' = nowStarted a /\
     reachedRunningAt first (evs ++ [ev]) = Some (nowStarted a)) /\
  (countTimeout j = 0%nat ->
   forall t, In t (timers j') -> callback t = CallRejectTimeout ->
     exists since,
       reachedRunningAt first (evs ++ [ev]) = Some since /\
       delay t = Z.min 500 (since + 5000 - clockAtTimeout ev)).
Proof.
  intros H0 Hevs Hev j j'.
  pose proof (Inv_run first evs H0 Hevs) as Hj. fold j in Hj.
  pose proof (Inv_step j ev Hj Hev) as Hj'. fold j' in Hj'.
  assert (Horigin : startedRunningAt j' =
                    match reachedRunningAt first (evs ++ [ev]) with
                    | Some since => since
                    | None => 0
                    end).
  { rewrite <- (startedRunningAt_origin first (evs ++ [ev]) H0)
      by (apply Forall_app; split; [exact Hevs | now constructor]).
    unfold j', j, run. now rewrite fold_left_app. }
  destruct Hj as [A B C D E F G].
  assert (Hnone : isFinalized j = false \/ startedRunningAt j = 0 ->
                  countTimeout j = 0%nat).
  { intros Hor. destruct (countTimeout j) as [|[|n]] eqn:En; [reflexivity| |lia].
    destruct (E eq_refl) as (? & ? & ?).
    destruct Hor as [Hor|Hor]; [congruence | lia]. }
  split; [|split; [|split; [|split; [|split; [|split; [|split; [|split]]]]]]].
  - intros now -> Hfin Hst.
    split; [apply Hnone; now left|].
    specialize (Hnone (or_introl Hfin)).
    unfold j', countTimeout in *. cbn.
    unfold finalize, startRunningTimeout, setTimeout. rewrite Hfin. cbn.
    apply Z.ltb_lt in Hst. rewrite Hst. cbn.
    rewrite filter_snoc_length, Hnone. reflexivity.
  - intros i a t -> Et Hcb Hthr Hcs Hfin.
    assert (Hst : startedRunningAt j = 0).
    { destruct (Z.eq_dec (startedRunningAt j) 0) as [|Hne]; [assumption|].
      assert (Hpos : 0 < startedRunningAt j) by lia. specialize (C Hpos).
      pose proof (filter_removeNth_length isTry _ _ _ Et) as Hc.
      unfold countTry in C. unfold isTry in Hc at 3. rewrite Hcb in Hc. lia. }
    specialize (Hnone (or_intror Hst)).
    split; [exact Hnone|].
    unfold j', countTimeout in *. cbn. rewrite Et, Hcb.
    unfold tryRender, startRunningTimeout, setTimeout. cbn.
    rewrite Hthr, Hcs, Hfin. cbn.
    rewrite filter_snoc_length, (filter_removeNth_zero _ _ _ Hnone).
    split; reflexivity.
  - exact (inv_timeout_le _ Hj').
  - intros Hz t Hin Hcb. exact (armed_delay j ev t Hz Hin Hcb).
  - intros Hst. apply startedRunningAt_kept; [|exact Hst]. now split.
  - intros i a t -> Et Hcb Hnot.
    assert (Hone : countTimeout j = 1%nat).
    { pose proof (filter_removeNth_length isTimeout _ _ _ Et) as Hc.
      unfold countTimeout in *. unfold isTimeout in Hc at 3. rewrite Hcb in Hc. lia. }
    destruct (E Hone) as (_ & _ & Hpr).
    unfold j'. cbn. rewrite Et, Hcb. unfold reject. cbn.
    destruct (resultPromise j) as [|b|e]; cbn in *;
      [reflexivity | destruct (Hnot b eq_refl) | contradiction].
  - exact Horigin.
  - intros i a t -> Et Hcb Hthr Hcs.
    assert (Hst : startedRunningAt j' = nowStarted a).
    { unfold j'. cbn [step]. rewrite Et, Hcb, startedRunningAt_tryRender.
      unfold findsRunning. now rewrite Hthr, Hcs. }
    split; [exact Hst|].
    rewrite Hst in Horigin. cbn in Hev.
    destruct (reachedRunningAt first (evs ++ [Fire i a])) as [since|];
      [now rewrite Horigin | lia].
  - intros Hz t Hin Hcb.
    pose proof (timeout_pending j' t Hj' Hin Hcb) as Hpos.
    rewrite (armed_delay j ev t Hz Hin Hcb). fold j'.
    rewrite Horigin in *.
    destruct (reachedRunningAt first (evs ++ [ev])) as [since|]; [|lia].
    exists since. split; reflexivity.
Qed.

(** A job that is running at 1000 and finalized at 5700 arms what is left
    of the 5000 ms, 300 ms; the timeout fires and the job is rejected with
    the Timeout error. *)
Lemma completion_timeout_witness :
  reachedRunningAt runningAt1000 [Finalize 5700] = Some 1000 /\
  timers (run (startRenderingAudio runningAt1000) [Finalize 5700])
    = [{| callback := CallRejectTimeout; delay := 300 |}] /\
  resultPromise (run (startRenderingAudio runningAt1000)
                     [Finalize 5700; Fire 0 runningAt1000])
    = Rejected (InnerError InnerTimeout).
Proof.
  split; [reflexivity|]. split; [reflexivity|].
  pose proof (completion_timeout runningAt1000 [Finalize 5700] (Fire 0 runningAt1000)) as H.
  assert (H1 : 0 < nowStarted runningAt1000) by (cbn; lia).
  assert (H2 : Forall clockStarted [Finalize 5700]) by (repeat constructor).
  assert (H3 : clockStarted (Fire 0 runningAt1000)) by (cbn; lia).
  destruct (H H1 H2 H3) as (_ & _ & _ & _ & _ & Hfire & _).
  apply (Hfire 0%nat runningAt1000 {| callback := CallRejectTimeout; delay := 300 |});
    [reflexivity | reflexivity | reflexivity | intros buffer; discriminate].
Defined.

End RenderJob.

(* ================================================================== *)
(** * The stable hash *)
(* ================================================================== *)

Section StableHash.

Context {R : Runtime}.

Lemma stableHashString_lanes json :
  stableHashString json =
  lane (fst (finalize2 (fold_left mix json (seeds json)))) ++
  lane (snd (finalize2 (fold_left mix json (seeds json)))).
Proof.
  unfold stableHashString, seeds, finalize2, lane.
  destruct (fold_left mix json _) as [h1 h2]. reflexivity.
Qed.

Lemma ToInt32_range x : - 2 ^ 31 <= ToInt32 x < 2 ^ 31.
Proof.
  unfold ToInt32. pose proof (Z.mod_pos_bound x (2 ^ 32) ltac:(lia)) as H.
  destruct (2 ^ 31 <=? x mod 2 ^ 32) eqn:E;
    [apply Z.leb_le in E | apply Z.leb_gt in E]; lia.
Qed.

Lemma canonicalize_defined v : v <> VUndefined -> canonicalize v <> None.
Proof. destruct v; intros H; try discriminate. contradiction. Qed.

Lemma stableHash_hashedText v :
  stableHash v = option_map stableHashString (hashedText v).
Proof. destruct v; reflexivity. Qed.

(** C9, counterexample: [stableHash(undefined)] has no string to hash and
    throws. *)
Lemma stableHash_undefined_counterexample :
  @canonicalize Sample.engine VUndefined = None /\
  @stableHash Sample.engine VUndefined = None.
Proof. split; reflexivity. Qed.

(** C9, amended: for every input that is [null], a boolean, a number, a
    string, or an array or a plain object whose members are such values or
    [undefined] (the values of the type [value]; [undefined] itself is
    the counterexample above), [stableHash] returns 16 lowercase
    hexadecimal characters: the two 8-digit lanes of two 32-bit
    accumulators, seeded with two distinct constants xor the length of the
    text, mixed with every code unit and finalized with a pass in which
    each lane takes bits of the other; the digest is a function of the
    text alone.  Nothing is said of the inputs that [JSON.stringify] does
    not take as data: a function, a symbol, a BigInt, an object that is
    cyclic or has accessors or a [toJSON] method. *)
Theorem stableHash_digest (v : value) :
  v <> VUndefined ->
  exists json h1 h2,
    hashedText v = Some json /\
    (h1, h2) = finalize2 (fold_left mix json (seeds json)) /\
    seeds json = (bitxor 0xdeadbeef (Z.of_nat (length json)),
                  bitxor 0x41c6ce57 (Z.of_nat (length json))) /\
    0xdeadbeef <> 0x41c6ce57 /\
    - 2 ^ 31 <= h1 < 2 ^ 31 /\ - 2 ^ 31 <= h2 < 2 ^ 31 /\
    stableHash v = Some (lane h1 ++ lane h2) /\
    length (lane h1) = 8%nat /\ length (lane h2) = 8%nat /\
    length (lane h1 ++ lane h2) = 16%nat /\
    forallb isLowerHex (lane h1 ++ lane h2) = true.
Proof.
  intros Hv.
  assert (Ht : exists json, hashedText v = Some json).
  { destruct v; cbn; eauto. contradiction. }
  destruct Ht as [json Ht]. exists json.
  destruct (finalize2 (fold_left mix json (seeds json))) as [h1 h2] eqn:Ef.
  exists h1, h2.
  assert (E : stableHash v = Some (lane h1 ++ lane h2)).
  { rewrite stableHash_hashedText, Ht. cbn.
    now rewrite stableHashString_lanes, Ef. }
  assert (Hr : (exists z1, h1 = ToInt32 z1) /\ (exists z2, h2 = ToInt32 z2))
    by (unfold finalize2 in Ef; injection Ef as <- <-; unfold bitxor; eauto).
  destruct Hr as [[z1 Hz1] [z2 Hz2]].
  split; [exact Ht|]. split; [reflexivity|]. split; [reflexivity|].
  split; [discriminate|].
  split; [rewrite Hz1; apply ToInt32_range|].
  split; [rewrite Hz2; apply ToInt32_range|].
  split; [exact E|].
  split; [apply lane_length|]. split; [apply lane_length|].
  split.
  - rewrite length_app. unfold lane. now rewrite !lane_length.
  - rewrite forallb_app. unfold lane. now rewrite !lane_hex.
Qed.

End StableHash.

Lemma stableHash_digest_witness :
  exists json h1 h2,
    @hashedText Sample.engine (VStr (lit "a")) = Some json /\
    (h1, h2) = finalize2 (fold_left mix json (seeds json)) /\
    seeds json = (bitxor 0xdeadbeef (Z.of_nat (length json)),
                  bitxor 0x41c6ce57 (Z.of_nat (length json))) /\
    0xdeadbeef <> 0x41c6ce57 /\
    - 2 ^ 31 <= h1 < 2 ^ 31 /\ - 2 ^ 31 <= h2 < 2 ^ 31 /\
    @stableHash Sample.engine (VStr (lit "a")) = Some (lane h1 ++ lane h2) /\
    length (lane h1) = 8%nat /\ length (lane h2) = 8%nat /\
    length (lane h1 ++ lane h2) = 16%nat /\
    forallb isLowerHex (lane h1 ++ lane h2) = true.
Proof.
  apply (@stableHash_digest Sample.engine (VStr (lit "a"))). discriminate.
Defined.

(** The digests of the empty string and of ["a"]. *)
Example stableHash_values :
  stableHashString (lit "") = lit "1aee8d83488bdcb8" /\
  stableHashString (lit "a") = lit "da4555df1213124e".
Proof. split; vm_compute; reflexivity. Qed.

(* ================================================================== *)
(** * The anchor and the visitor identifier *)
(* ================================================================== *)

Lemma getProperty_defineProperty {A} (o : list (jsstring * A)) k v k' :
  getProperty (defineProperty o k v) k' =
  if str_eqb k' k then Some v else getProperty o k'.
Proof.
  induction o as [|[k0 v0] o IH]; cbn.
  - now destruct (str_eqb k' k).
  - destruct (str_eqb k k0) eqn:E0.
    + apply str_eqb_eq in E0. subst k0. cbn. now destruct (str_eqb k' k).
    + destruct (goesBefore k k0); cbn.
      * now destruct (str_eqb k' k).
      * rewrite IH. destruct (str_eqb k' k0) eqn:E1; [|reflexivity].
        apply str_eqb_eq in E1. subst k0.
        destruct (str_eqb k' k) eqn:E2; [|reflexivity].
        apply str_eqb_eq in E2. subst k'. rewrite str_eqb_refl in E0. discriminate.
Qed.

Lemma getProperty_not_key {A} (o : list (jsstring * A)) k :
  ~ In k (map fst o) -> getProperty o k = None.
Proof.
  induction o as [|[k0 v0] o IH]; cbn; intros H; [reflexivity|].
  destruct (str_eqb k k0) eqn:E.
  - apply str_eqb_eq in E. subst k0. tauto.
  - apply IH. tauto.
Qed.

(** What [JSON.parse] reads back for a key is what the text had for it. *)
Lemma getProperty_parseMembers_from (members : list (jsstring * option value)) :
  forall (o : list (jsstring * value)) k,
    NoDup (map fst members) ->
    getProperty
      (fold_left (fun o m => match snd m with
                             | Some w => defineProperty o (fst m) w
                             | None => o
                             end) members o) k =
    match getProperty members k with
    | Some (Some w) => Some w
    | _ => getProperty o k
    end.
Proof.
  induction members as [|[k1 x] members IH]; intros o k Hnd; cbn; [reflexivity|].
  inversion Hnd as [|? ? Hnotin Hnd']; subst.
  rewrite IH by exact Hnd'.
  destruct (str_eqb k k1) eqn:E.
  - apply str_eqb_eq in E. subst k1.
    rewrite (getProperty_not_key members k Hnotin).
    destruct x as [w|]; [|reflexivity].
    rewrite getProperty_defineProperty, str_eqb_refl. reflexivity.
  - destruct (getProperty members k) as [[w|]|]; try reflexivity;
      destruct x as [w'|]; try reflexivity;
      now rewrite getProperty_defineProperty, E.
Qed.

Lemma getProperty_parseMembers (members : list (jsstring * option value)) k :
  NoDup (map fst members) ->
  getProperty (parseMembers members) k =
  match getProperty members k with
  | Some (Some w) => Some w
  | _ => None
  end.
Proof.
  intros H. unfold parseMembers. rewrite getProperty_parseMembers_from by exact H.
  now destruct (getProperty members k) as [[w|]|].
Qed.

(** The nine keys of the anchor, as the literal has them and as the
    replacer orders them. *)
Lemma anchor_literal_keys {A} (gpu webgl hw mem audio math webgpu eme pt : A) :
  objectLiteral [(lit "gpu", gpu); (lit "webgl", webgl); (lit "hw", hw);
                 (lit "mem", mem); (lit "audio", audio); (lit "math", math);
                 (lit "webgpu", webgpu); (lit "eme", eme); (lit "pt", pt)]
  = [(lit "gpu", gpu); (lit "webgl", webgl); (lit "hw", hw);
     (lit "mem", mem); (lit "audio", audio); (lit "math", math);
     (lit "webgpu", webgpu); (lit "eme", eme); (lit "pt", pt)].
Proof. reflexivity. Qed.

Lemma anchor_sorted_keys {A} (gpu webgl hw mem audio math webgpu eme pt : A) :
  replacerProps [(lit "gpu", gpu); (lit "webgl", webgl); (lit "hw", hw);
                 (lit "mem", mem); (lit "audio", audio); (lit "math", math);
                 (lit "webgpu", webgpu); (lit "eme", eme); (lit "pt", pt)]
  = [(lit "audio", audio); (lit "eme", eme); (lit "gpu", gpu); (lit "hw", hw);
     (lit "math", math); (lit "mem", mem); (lit "pt", pt);
     (lit "webgl", webgl); (lit "webgpu", webgpu)].
Proof. reflexivity. Qed.

Section AnchorProperties.

Import Audio Anchor.

Context {R : Runtime}.

Lemma hashNonEmpty_defined prepare l : exists v, hashNonEmpty prepare l = Some v.
Proof. destruct l as [[|x l]|]; cbn; eauto. Qed.

Lemma anchorLiteral_fields b :
  exists gpu webgl hw mem math webgpu eme pt,
    anchorLiteral b =
    Some (VObj [(lit "gpu", gpu); (lit "webgl", webgl); (lit "hw", hw);
                (lit "mem", mem); (lit "audio", audioValue b); (lit "math", math);
                (lit "webgpu", webgpu); (lit "eme", eme); (lit "pt", pt)]).
Proof.
  unfold anchorLiteral.
  destruct (hashNonEmpty (fun l => Array_sort (uniq l)) _) as [xExt|] eqn:E1;
    [|destruct (hashNonEmpty_defined (fun l => Array_sort (uniq l))
                 (optField (webgExtensions b) supportedExtensions)) as [? E];
      rewrite E in E1; discriminate].
  destruct (hashNonEmpty Array_sort (option_map parameters _)) as [params|] eqn:E2;
    [|destruct (hashNonEmpty_defined Array_sort
                 (option_map parameters (webgExtensions b))) as [? E];
      rewrite E in E2; discriminate].
  destruct (hashNonEmpty Array_sort (option_map shaderPrecisions _)) as [shader|] eqn:E3;
    [|destruct (hashNonEmpty_defined Array_sort
                 (option_map shaderPrecisions (webgExtensions b))) as [? E];
      rewrite E in E3; discriminate].
  destruct (performanceTiming b) as [t|];
    destruct (option_map Array_sort (optField (webgl b) extensions)) as [sorted|];
    cbn [option_map stableHash canonicalize strings];
    rewrite anchor_literal_keys; unfold audioValue; repeat eexists.
Qed.

Lemma computeAnchor_object b :
  exists props,
    computeAnchor b = Some (VObj props) /\
    getProperty props (lit "audio") = parseCanonical (audioValue b).
Proof.
  unfold computeAnchor.
  destruct (anchorLiteral_fields b)
    as (gpu & webgl & hw & mem & math & webgpu & eme & pt & ->).
  cbn [parseCanonical map fst snd]. rewrite anchor_sorted_keys.
  eexists. split; [reflexivity|].
  rewrite getProperty_parseMembers.
  - cbn. now destruct (parseCanonical (audioValue b)).
  - cbn. repeat constructor; cbn; intuition discriminate.
Qed.

Lemma computeVisitorId_total b :
  exists anchor text,
    computeAnchor b = Some anchor /\
    canonicalize anchor = Some text /\
    computeVisitorId b =
      Some {| anchor := anchor; visitorId := stableHashString text |}.
Proof.
  destruct (computeAnchor_object b) as (props & E & _).
  exists (VObj props). eexists. split; [exact E|]. split; [reflexivity|].
  unfold computeVisitorId. rewrite E. cbn [canonicalize ofOption stableHash].
  unfold slice0. rewrite firstn_all2; [reflexivity|].
  rewrite stableHashString_length. lia.
Qed.

(** C1: the visitor identifier is the whole digest of the canonical
    anchor, 16 lowercase hexadecimal characters: [slice(0, 22)] has
    nothing to cut, and the identifier never has 22 characters. *)
Theorem visitorId_is_the_16_character_digest (b : BrowserSignals) :
  exists anchor text id,
    computeAnchor b = Some anchor /\
    canonicalize anchor = Some text /\
    computeVisitorId b = Some id /\
    visitorId id = stableHashString text /\
    length (visitorId id) = 16%nat /\
    length (visitorId id) <> 22%nat /\
    forallb isLowerHex (visitorId id) = true.
Proof.
  destruct (computeVisitorId_total b) as (anchor & text & Ea & Et & Ev).
  exists anchor, text. eexists. split; [exact Ea|]. split; [exact Et|].
  split; [exact Ev|]. cbn. split; [reflexivity|].
  rewrite stableHashString_length, stableHashString_hex.
  repeat split. discriminate.
Qed.

(** C7: two bags that differ only in the user agent and in properties
    that the interface does not declare (platform, device pixel ratio,
    viewport) have the same anchor, the same canonical text of it and the
    same visitor identifier. *)
Theorem anchor_ignores_volatile_signals (b1 b2 : BrowserSignals) :
  sameStableSignals b1 b2 ->
  exists anchor text id,
    computeAnchor b1 = Some anchor /\ computeAnchor b2 = Some anchor /\
    canonicalize anchor = Some text /\
    computeVisitorId b1 = Some id /\ computeVisitorId b2 = Some id.
Proof.
  intros (Hhw & Hmem & Hgl & Hext & Haudio & Hmath & Hgpu & Heme & Hpt).
  assert (El : anchorLiteral b1 = anchorLiteral b2)
    by (unfold anchorLiteral;
        rewrite Hhw, Hmem, Hgl, Hext, Haudio, Hmath, Hgpu, Heme, Hpt; reflexivity).
  assert (Ea : computeAnchor b1 = computeAnchor b2)
    by (unfold computeAnchor; now rewrite El).
  assert (Ev : computeVisitorId b1 = computeVisitorId b2)
    by (unfold computeVisitorId; now rewrite Ea).
  destruct (computeVisitorId_total b1) as (anchor & text & E1 & Et & E2).
  exists anchor, text. eexists.
  split; [exact E1|]. split; [now rewrite <- Ea|]. split; [exact Et|].
  split; [exact E2|]. now rewrite <- Ev.
Qed.

Lemma sentinel_is_finite s :
  is_finite (code s) = true /\ (code s =? 0)%float = false.
Proof. destruct s; split; reflexivity. Qed.

(** What the probe answers at once. *)
Lemma immediate_answers browser first x :
  getAudioFingerprint browser first = Immediate x ->
  x = code NotSupported \/ x = code KnownForAntifingerprinting \/
  x = code KnownForSuspending.
Proof.
  intros H. unfold getAudioFingerprint, getUnstableAudioFingerprint in H.
  destruct (isSafari17OrNewer browser); [injection H as <-; now left|].
  destruct (doesBrowserPerformAntifingerprinting browser);
    [injection H as <-; right; now left|].
  destruct (negb _); [injection H as <-; now left|].
  destruct (doesBrowserSuspendAudioContext browser);
    [injection H as <-; right; now right | discriminate].
Qed.

(** C10, amended: when [audioFingerprint] is a number, the anchor has an
    [audio] field: the number itself if it is finite ([0] for [-0]) and
    [null] if it is NaN or an infinity; when it is missing or a callable,
    the anchor has no [audio] field.  Each sentinel -1, -2, -3, -4 is kept
    as it is, so bags that carry different sentinels have different
    anchors.  (The probe itself answers -2, -4 or -1 at once; -3 is only
    what its callable resolves to.) *)
Theorem anchor_audio_field (b : BrowserSignals) :
  exists props,
    computeAnchor b = Some (VObj props) /\
    getProperty props (lit "audio") =
      match audioFingerprint b with
      | Some (Immediate x) =>
          Some (if is_finite x
                then VNum (if (x =? 0)%float then 0%float else x)
                else VNull)
      | _ => None
      end /\
    (forall s, audioFingerprint b = Some (Immediate (code s)) ->
               getProperty props (lit "audio") = Some (VNum (code s))) /\
    (forall b2 s s2,
        audioFingerprint b = Some (Immediate (code s)) ->
        audioFingerprint b2 = Some (Immediate (code s2)) ->
        s <> s2 -> computeAnchor b2 <> computeAnchor b) /\
    (forall browser first x,
        getAudioFingerprint browser first = Immediate x ->
        x = code NotSupported \/ x = code KnownForAntifingerprinting \/
        x = code KnownForSuspending).
Proof.
  destruct (computeAnchor_object b) as (props & E & Ha).
  assert (Hfield : getProperty props (lit "audio") =
                   match audioFingerprint b with
                   | Some (Immediate x) =>
                       Some (if is_finite x
                             then VNum (if (x =? 0)%float then 0%float else x)
                             else VNull)
                   | _ => None
                   end).
  { rewrite Ha. unfold audioValue.
    destruct (audioFingerprint b) as [[x|job]|]; reflexivity. }
  assert (Hs : forall s, audioFingerprint b = Some (Immediate (code s)) ->
                         getProperty props (lit "audio") = Some (VNum (code s))).
  { intros s H. rewrite Hfield, H.
    destruct (sentinel_is_finite s) as [-> ->]. reflexivity. }
  exists props. split; [exact E|]. split; [exact Hfield|]. split; [exact Hs|].
  split.
  - intros b2 s s2 H H2 Hne Eq.
    destruct (computeAnchor_object b2) as (props2 & E2 & Ha2).
    rewrite E, E2 in Eq. injection Eq as Eq. subst props2.
    rewrite (Hs s H) in Ha2. unfold audioValue in Ha2. rewrite H2 in Ha2.
    cbn in Ha2. destruct (sentinel_is_finite s2) as [Hf Hz].
    rewrite Hf, Hz in Ha2. injection Ha2 as Ec.
    apply code_injective in Ec. contradiction.
  - exact immediate_answers.
Qed.

End AnchorProperties.

(** The empty bag: the anchor is [{"webgl":{}}] and the identifier has 16
    characters. *)
Example emptySignals_visitorId :
  @Anchor.computeVisitorId Sample.engine emptySignals =
  Some {| Anchor.anchor := VObj [(lit "webgl", VObj [])];
          Anchor.visitorId := lit "4c2451bd73b69281" |}.
Proof. vm_compute. reflexivity. Qed.

(** A bag with every source: the text of its anchor and its identifier. *)
Example richSignals_visitorId :
  (match @Anchor.computeAnchor Sample.engine richSignals with
   | Some anchor => @canonicalize Sample.engine anchor
   | None => None
   end) =
  Some (json ("{'audio':124,'eme':0,"
              ++ "'gpu':{'renderer':'webkit webgl','vendor':'apple inc.'},"
              ++ "'hw':12,'math':{'2':7,'10':1,'acos':0,'quo\\te':5,'tan':3},"
              ++ "'pt':'042baab61ea3bb53',"
              ++ "'webgl':{'ext':'1ead63c32f1e0a4e','params':'b500d4d32e5229a2',"
              ++ "'shader':'601aec0a9ae3078c','xExt':'712ccb2e3e5091d3'},"
              ++ "'webgpu':{'isFallbackAdapter':false,'supported':true}}")) /\
  option_map Anchor.visitorId (@Anchor.computeVisitorId Sample.engine richSignals) =
  Some (lit "0d8c676ff9883346").
Proof. split; vm_compute; reflexivity. Qed.

Lemma anchor_ignores_volatile_signals_witness :
  exists anchor text id,
    @Anchor.computeAnchor Sample.engine desktopSignals = Some anchor /\
    @Anchor.computeAnchor Sample.engine emulatedSignals = Some anchor /\
    @canonicalize Sample.engine anchor = Some text /\
    @Anchor.computeVisitorId Sample.engine desktopSignals = Some id /\
    @Anchor.computeVisitorId Sample.engine emulatedSignals = Some id.
Proof.
  apply (@anchor_ignores_volatile_signals Sample.engine desktopSignals emulatedSignals).
  repeat split.
Defined.

(** C10, counterexample: the number NaN is not the [audio] of the anchor,
    [null] is; and no browser makes the probe answer -3 at once. *)
Lemma anchor_audio_counterexample :
  @Anchor.computeAnchor Sample.engine nanAudioSignals
    = Some (VObj [(lit "audio", VNull); (lit "webgl", VObj [])]) /\
  VNull <> VNum nan /\
  forall browser first,
    Audio.getAudioFingerprint browser first
      <> Audio.Immediate (Audio.code Audio.Timeout).
Proof.
  split; [vm_compute; reflexivity|]. split; [discriminate|].
  intros browser first H.
  destruct (immediate_answers browser first _ H) as [E|[E|E]];
    apply code_injective in E; discriminate.
Qed.

(* ================================================================== *)
(** * The canonical encoder *)
(* ================================================================== *)

(** ** The order of strings *)

Lemma str_ltb_irrefl a : str_ltb a a = false.
Proof.
  induction a as [|x a IH]; cbn; [reflexivity|].
  now rewrite Z.ltb_irrefl, Z.eqb_refl, IH.
Qed.

Lemma str_ltb_trans a : forall b c,
  str_ltb a b = true -> str_ltb b c = true -> str_ltb a c = true.
Proof.
  induction a as [|x a IH]; intros [|y b] [|z c]; cbn; intros H1 H2;
    try discriminate; try reflexivity.
  apply orb_true_iff in H1, H2. apply orb_true_iff.
  rewrite andb_true_iff in *. rewrite !Z.ltb_lt, !Z.eqb_eq in *.
  destruct H1 as [H1|[H1 H1']], H2 as [H2|[H2 H2']]; try (left; lia).
  right. split; [lia | eauto].
Qed.

Lemma str_ltb_total a : forall b,
  str_ltb a b = false -> str_ltb b a = false -> a = b.
Proof.
  induction a as [|x a IH]; intros [|y b]; cbn; intros H1 H2;
    try discriminate; try reflexivity.
  apply orb_false_iff in H1 as [H1 H1'], H2 as [H2 H2'].
  apply Z.ltb_ge in H1, H2. assert (x = y) by lia. subst y.
  rewrite Z.eqb_refl in H1', H2'. cbn in H1', H2'.
  f_equal. now apply IH.
Qed.

Lemma str_ltb_asym a b : str_ltb a b = true -> str_ltb b a = false.
Proof.
  intros H. destruct (str_ltb b a) eqn:E; [|reflexivity].
  pose proof (str_ltb_trans _ _ _ H E) as Hc.
  now rewrite str_ltb_irrefl in Hc.
Qed.

Lemma str_le_lt_trans a b c :
  str_ltb b a = false -> str_ltb b c = true -> str_ltb a c = true.
Proof.
  intros H1 H2. destruct (str_ltb a b) eqn:E.
  - eapply str_ltb_trans; eassumption.
  - now rewrite (str_ltb_total _ _ E H1).
Qed.

(** ** [sort()] depends on the elements alone *)

Lemma sortInsert_two x y :
  (if str_ltb y x then [y; x] else [x; y]) =
  (if str_ltb x y then [x; y] else [y; x]).
Proof.
  destruct (str_ltb y x) eqn:E1, (str_ltb x y) eqn:E2; try reflexivity.
  - now rewrite (str_ltb_asym _ _ E1) in E2.
  - now rewrite (str_ltb_total _ _ E2 E1).
Qed.

Lemma sortInsert_comm l : forall x y,
  sortInsert x (sortInsert y l) = sortInsert y (sortInsert x l).
Proof.
  induction l as [|z l IH]; intros x y; cbn.
  - pose proof (sortInsert_two x y) as H.
    destruct (str_ltb y x), (str_ltb x y); congruence.
  - destruct (str_ltb z y) eqn:Ey, (str_ltb z x) eqn:Ex; cbn;
      rewrite ?Ey, ?Ex.
    + now rewrite IH.
    + now rewrite (str_le_lt_trans _ _ _ Ex Ey).
    + now rewrite (str_le_lt_trans _ _ _ Ey Ex).
    + destruct (str_ltb y x) eqn:E1, (str_ltb x y) eqn:E2; cbn;
        rewrite ?Ey, ?Ex; try reflexivity.
      * now rewrite (str_ltb_asym _ _ E1) in E2.
      * now rewrite (str_ltb_total _ _ E2 E1).
Qed.

Lemma Array_sort_Permutation l1 l2 :
  Permutation l1 l2 -> Array_sort l1 = Array_sort l2.
Proof.
  unfold Array_sort. induction 1 as [|x l1 l2 _ IH|x y l|l1 l2 l3 _ IH1 _ IH2]; cbn.
  - reflexivity.
  - now rewrite IH.
  - apply sortInsert_comm.
  - congruence.
Qed.

(** ** Reading a property depends on the properties alone *)

Lemma getProperty_In_key {A} (o : list (jsstring * A)) k v :
  getProperty o k = Some v -> In k (map fst o).
Proof.
  induction o as [|[k0 v0] o IH]; cbn; [discriminate|].
  destruct (str_eqb k k0) eqn:E.
  - apply str_eqb_eq in E. now left.
  - intros H. right. now apply IH.
Qed.

Lemma getProperty_Permutation {A} (o1 o2 : list (jsstring * A)) k :
  NoDup (map fst o1) -> Permutation o1 o2 -> getProperty o1 k = getProperty o2 k.
Proof.
  intros Hnd Hp. revert Hnd.
  induction Hp as [|[k0 v0] o1 o2 _ IH|[k1 v1] [k2 v2] o|o1 o2 o3 Hp1 IH1 _ IH2];
    cbn; intros Hnd.
  - reflexivity.
  - inversion Hnd; subst. now rewrite IH.
  - inversion Hnd as [|? ? Hnotin Hnd']; subst. cbn in Hnotin.
    destruct (str_eqb k k2) eqn:E2, (str_eqb k k1) eqn:E1; try reflexivity.
    apply str_eqb_eq in E1, E2. subst. tauto.
  - rewrite IH1 by exact Hnd. apply IH2.
    eapply Permutation_NoDup; [|exact Hnd]. now apply Permutation_map.
Qed.

Lemma fold_left_ext_in {A B} (f g : A -> B -> A) l :
  (forall a b, In b l -> f a b = g a b) ->
  forall a, fold_left f l a = fold_left g l a.
Proof.
  induction l as [|b l IH]; intros H a; cbn; [reflexivity|].
  rewrite H by now left. apply IH. intros; apply H; now right.
Qed.

(** The object that the replacer builds depends on the properties of its
    argument, not on their order. *)
Lemma replacerProps_Permutation {A} (o1 o2 : list (jsstring * A)) :
  NoDup (map fst o1) -> Permutation o1 o2 -> replacerProps o1 = replacerProps o2.
Proof.
  intros Hnd Hp. unfold replacerProps, Object_keys.
  rewrite (Array_sort_Permutation (map fst o1) (map fst o2))
    by now apply Permutation_map.
  apply fold_left_ext_in. intros sorted k _.
  now rewrite (getProperty_Permutation o1 o2 k Hnd Hp).
Qed.

(** ** Values *)

Lemma value_ind' (P : value -> Prop) :
  P VUndefined -> P VNull -> (forall b, P (VBool b)) -> (forall x, P (VNum x)) ->
  (forall s, P (VStr s)) ->
  (forall items, Forall P items -> P (VArr items)) ->
  (forall props, Forall (fun kv => P (snd kv)) props -> P (VObj props)) ->
  forall v, P v.
Proof.
  intros Hu Hn Hb Hx Hs Ha Ho.
  fix IH 1. intros [| |b|x|s|items|props].
  - exact Hu.
  - exact Hn.
  - apply Hb.
  - apply Hx.
  - apply Hs.
  - apply Ha. induction items as [|v items IHl]; constructor; [apply IH | exact IHl].
  - apply Ho. induction props as [|[k v] props IHl]; constructor;
      [apply IH | exact IHl].
Qed.

Lemma mem_In x l : mem x l = true <-> In x l.
Proof.
  induction l as [|y l IH]; cbn; [split; [discriminate|contradiction]|].
  rewrite orb_true_iff, IH, str_eqb_eq. split; intros [H|H]; auto.
Qed.

Lemma nodupb_NoDup l : nodupb l = true <-> NoDup l.
Proof.
  induction l as [|k l IH]; cbn; [split; [constructor|reflexivity]|].
  rewrite andb_true_iff, negb_true_iff, IH. split.
  - intros [Hm Hn]. constructor; [|exact Hn].
    intros Hin. apply mem_In in Hin. congruence.
  - intros H. inversion H as [|? ? Hnotin Hnd]; subst. split; [|exact Hnd].
    destruct (mem k l) eqn:E; [|reflexivity]. apply mem_In in E. contradiction.
Qed.

Lemma distinctKeys_obj props :
  distinctKeys (VObj props) = true ->
  NoDup (map fst props) /\ Forall (fun kv => distinctKeys (snd kv) = true) props.
Proof.
  intros H. cbn [distinctKeys] in H.
  apply andb_true_iff in H as [H1 H2]. split.
  - now apply nodupb_NoDup.
  - apply Forall_forall. intros kv Hin.
    rewrite forallb_forall in H2. now apply H2.
Qed.

Section CanonicalOrder.

Context {R : Runtime}.

Lemma canonicalize_sameRecords v1 : forall v2,
  distinctKeys v1 = true -> sameRecords v1 v2 -> canonicalize v1 = canonicalize v2.
Proof.
  induction v1 as [| |b|x|s|items IH|props IH] using value_ind';
    intros v2 Hwf Hsame; inversion Hsame; subst; try reflexivity.
  - (* arrays *)
    cbn. do 2 f_equal.
    cbn in Hwf. rewrite forallb_forall in Hwf.
    match goal with H : Forall2 sameRecords _ _ |- _ => rename H into H2 end.
    clear Hsame. revert IH Hwf.
    induction H2 as [|x y l1 l2 Hxy _ IHl]; intros IH Hwf; cbn; [reflexivity|].
    inversion IH as [|? ? IHx IHrest]; subst.
    rewrite (IHx y (Hwf x (or_introl eq_refl)) Hxy).
    f_equal. apply IHl; [exact IHrest|].
    intros z Hz. apply Hwf. now right.
  - (* objects *)
    destruct (distinctKeys_obj _ Hwf) as [Hnd Hall].
    match goal with
    | Hp : Permutation props _, H2 : Forall2 _ _ _ |- _ =>
        rename Hp into Hperm; rename H2 into Hpairs
    end.
    cbn. do 2 f_equal.
    apply replacerProps_Permutation; [now rewrite map_map|].
    etransitivity; [apply Permutation_map; exact Hperm|].
    assert (IH' : Forall (fun kv => forall v2, distinctKeys (snd kv) = true ->
                                    sameRecords (snd kv) v2 ->
                                    canonicalize (snd kv) = canonicalize v2) permuted)
      by (eapply Permutation_Forall; eassumption).
    assert (Hall' : Forall (fun kv => distinctKeys (snd kv) = true) permuted)
      by (eapply Permutation_Forall; eassumption).
    clear Hperm Hsame Hwf Hnd Hall IH. revert IH' Hall'.
    induction Hpairs as [|[k1 x1] [k2 x2] l1 l2 [Hk Hx] _ IHl]; intros IH' Hall';
      cbn; [reflexivity|].
    cbn in Hk. subst k2.
    inversion IH' as [|? ? IHx IHrest]; subst.
    inversion Hall' as [|? ? Hx1 Hrest]; subst. cbn in IHx, Hx1, Hx.
    rewrite (IHx x2 Hx1 Hx). rewrite (IHl IHrest Hrest). reflexivity.
Qed.

End CanonicalOrder.

(** ** The order in which an object keeps its keys *)

Lemma fold_digits_snoc l d acc :
  fold_left (fun acc d => acc * 10 + (d - 48)) (l ++ [d]) acc =
  fold_left (fun acc d => acc * 10 + (d - 48)) l acc * 10 + (d - 48).
Proof. now rewrite fold_left_app. Qed.

Lemma fold_digits_positive l : forall acc,
  forallb isDigit l = true -> 1 <= acc ->
  1 <= fold_left (fun acc d => acc * 10 + (d - 48)) l acc.
Proof.
  induction l as [|d l IH]; intros acc Hd Hacc; cbn in *; [exact Hacc|].
  apply andb_true_iff in Hd as [Hd Hl]. apply IH; [exact Hl|].
  unfold isDigit in Hd. apply andb_true_iff in Hd as [H1 H2].
  apply Z.leb_le in H1, H2. lia.
Qed.

Lemma isDigit_range d : isDigit d = true -> 48 <= d <= 57.
Proof.
  unfold isDigit. intros H. apply andb_true_iff in H as [H1 H2].
  apply Z.leb_le in H1, H2. lia.
Qed.

Lemma canonicalNumeral_prefix p d :
  p <> [] -> canonicalNumeral (p ++ [d]) ->
  canonicalNumeral p /\ 1 <= digitsValue p.
Proof.
  intros Hp [Hd Hc]. rewrite forallb_app in Hd. apply andb_true_iff in Hd as [Hd _].
  destruct p as [|c rest]; [contradiction|]. cbn in Hc.
  assert (Hc48 : c <> 48) by (destruct Hc as [H|H]; [exact H | now destruct rest]).
  split; [split; [exact Hd | now left]|].
  unfold digitsValue. cbn. cbn in Hd. apply andb_true_iff in Hd as [Hc' Hrest].
  apply fold_digits_positive; [exact Hrest|].
  apply isDigit_range in Hc'. lia.
Qed.

Lemma digitsValue_injective k1 : forall k2,
  canonicalNumeral k1 -> canonicalNumeral k2 ->
  digitsValue k1 = digitsValue k2 -> k1 = k2.
Proof.
  induction k1 as [|d1 p1 IH] using rev_ind; intros k2 H1 H2 E.
  - destruct H1 as [_ []].
  - destruct k2 as [|d2 p2 _] using rev_ind; [destruct H2 as [_ []]|].
    unfold digitsValue in E. rewrite !fold_digits_snoc in E.
    fold (digitsValue p1) in E. fold (digitsValue p2) in E.
    assert (Hd1 : 48 <= d1 <= 57).
    { destruct H1 as [H _]. rewrite forallb_app in H.
      apply andb_true_iff in H as [_ H]. cbn in H.
      apply andb_true_iff in H as [H _]. now apply isDigit_range. }
    assert (Hd2 : 48 <= d2 <= 57).
    { destruct H2 as [H _]. rewrite forallb_app in H.
      apply andb_true_iff in H as [_ H]. cbn in H.
      apply andb_true_iff in H as [H _]. now apply isDigit_range. }
    assert (d1 = d2 /\ digitsValue p1 = digitsValue p2) as [-> Ep] by lia.
    f_equal.
    destruct p1 as [|c1 r1], p2 as [|c2 r2]; [reflexivity| | |].
    + destruct (canonicalNumeral_prefix (c2 :: r2) d2 ltac:(discriminate) H2)
        as [_ Hpos].
      change (digitsValue []) with 0 in Ep. lia.
    + destruct (canonicalNumeral_prefix (c1 :: r1) d2 ltac:(discriminate) H1)
        as [_ Hpos].
      change (digitsValue []) with 0 in Ep. lia.
    + apply IH; [| |exact Ep].
      * now apply (canonicalNumeral_prefix (c1 :: r1) d2).
      * now apply (canonicalNumeral_prefix (c2 :: r2) d2).
Qed.

Lemma arrayIndex_canonical k i :
  arrayIndex k = Some i -> canonicalNumeral k /\ digitsValue k = i.
Proof.
  unfold arrayIndex, canonicalNumeral, digitsValue.
  destruct k as [|c rest]; [discriminate|].
  destruct (forallb isDigit (c :: rest)) eqn:Hd; cbn [andb]; [|discriminate].
  destruct (negb (c =? 48) || _) eqn:Hc; [|discriminate].
  destruct (_ <? 2 ^ 32 - 1); [|discriminate].
  intros H. injection H as <-. split; [|reflexivity]. split; [reflexivity|].
  apply orb_true_iff in Hc as [Hc|Hc].
  - left. apply negb_true_iff, Z.eqb_neq in Hc. exact Hc.
  - right. now destruct rest.
Qed.

Lemma arrayIndex_injective k1 k2 i :
  arrayIndex k1 = Some i -> arrayIndex k2 = Some i -> k1 = k2.
Proof.
  intros H1 H2. apply arrayIndex_canonical in H1 as [C1 V1], H2 as [C2 V2].
  apply digitsValue_injective; congruence.
Qed.

Lemma keyBefore_trans a b c : keyBefore a b -> keyBefore b c -> keyBefore a c.
Proof.
  unfold keyBefore.
  destruct (arrayIndex a), (arrayIndex b), (arrayIndex c); intros H1 H2;
    try contradiction; try exact I; try lia.
  eapply str_ltb_trans; eassumption.
Qed.

Lemma goesBefore_keyBefore k k' : goesBefore k k' = true -> keyBefore k k'.
Proof.
  unfold goesBefore, keyBefore.
  destruct (arrayIndex k), (arrayIndex k'); intros H; try discriminate;
    [now apply Z.ltb_lt | exact I].
Qed.

Lemma not_goesBefore_index k k' i :
  arrayIndex k = Some i -> k <> k' -> goesBefore k k' = false -> keyBefore k' k.
Proof.
  unfold goesBefore, keyBefore. intros Hi Hne. rewrite Hi.
  destruct (arrayIndex k') as [j|] eqn:Hj; [|discriminate].
  intros H. apply Z.ltb_ge in H.
  assert (i <> j) by (intros ->; apply Hne; eapply arrayIndex_injective; eassumption).
  lia.
Qed.

(** ** Defining a new property *)

Lemma defineProperty_keys {A} (o : list (jsstring * A)) k v :
  ~ In k (map fst o) ->
  Permutation (map fst (defineProperty o k v)) (k :: map fst o).
Proof.
  induction o as [|[k0 v0] o IH]; cbn; intros Hnotin; [reflexivity|].
  destruct (str_eqb k k0) eqn:E; [apply str_eqb_eq in E; subst; tauto|].
  destruct (goesBefore k k0); cbn; [reflexivity|].
  rewrite IH by tauto. apply perm_swap.
Qed.

Lemma defineProperty_sorted {A} (o : list (jsstring * A)) k v :
  StronglySorted keyBefore (map fst o) ->
  ~ In k (map fst o) ->
  (arrayIndex k = None -> Forall (fun x => keyBefore x k) (map fst o)) ->
  StronglySorted keyBefore (map fst (defineProperty o k v)).
Proof.
  induction o as [|[k0 v0] o IH]; cbn; intros Hs Hnotin Hlast.
  - repeat constructor.
  - apply StronglySorted_inv in Hs as [Hs Hall].
    destruct (str_eqb k k0) eqn:E; [apply str_eqb_eq in E; subst; tauto|].
    apply str_eqb_neq in E.
    destruct (goesBefore k k0) eqn:Eg; cbn.
    + apply goesBefore_keyBefore in Eg.
      constructor; [now constructor|]. constructor; [exact Eg|].
      eapply Forall_impl; [|exact Hall]. intros x Hx.
      eapply keyBefore_trans; eassumption.
    + constructor.
      * apply IH; [exact Hs | tauto |].
        intros Hn. specialize (Hlast Hn). now inversion Hlast.
      * eapply Permutation_Forall;
          [symmetry; apply defineProperty_keys; tauto|].
        constructor; [|exact Hall].
        destruct (arrayIndex k) as [i|] eqn:Ei.
        -- eapply not_goesBefore_index; eassumption.
        -- specialize (Hlast eq_refl). now inversion Hlast.
Qed.

(** ** [sort()] *)

Lemma sortInsert_Permutation x l : Permutation (sortInsert x l) (x :: l).
Proof.
  induction l as [|y l IH]; cbn; [reflexivity|].
  destruct (str_ltb y x); [|reflexivity].
  rewrite IH. apply perm_swap.
Qed.

Lemma Array_sort_is_Permutation l : Permutation (Array_sort l) l.
Proof.
  unfold Array_sort. induction l as [|x l IH]; cbn; [reflexivity|].
  rewrite sortInsert_Permutation. now constructor.
Qed.

Lemma sortInsert_sorted x l :
  StronglySorted strLt l -> ~ In x l -> StronglySorted strLt (sortInsert x l).
Proof.
  induction l as [|y l IH]; cbn; intros Hs Hnotin.
  - repeat constructor.
  - apply StronglySorted_inv in Hs as [Hs Hall].
    destruct (str_ltb y x) eqn:E.
    + constructor; [apply IH; tauto|].
      eapply Permutation_Forall; [symmetry; apply sortInsert_Permutation|].
      now constructor.
    + assert (Hxy : strLt x y).
      { unfold strLt. destruct (str_ltb x y) eqn:E'; [reflexivity|].
        exfalso. apply Hnotin. left. now apply str_ltb_total. }
      constructor; [now constructor|]. constructor; [exact Hxy|].
      eapply Forall_impl; [|exact Hall]. intros z Hz.
      eapply str_ltb_trans; eassumption.
Qed.

Lemma Array_sort_sorted l : NoDup l -> StronglySorted strLt (Array_sort l).
Proof.
  unfold Array_sort. induction 1 as [|x l Hnotin _ IH]; cbn; [constructor|].
  apply sortInsert_sorted; [exact IH|].
  intros Hin. apply Hnotin.
  eapply Permutation_in; [apply Array_sort_is_Permutation | exact Hin].
Qed.

(** ** The arrays that [computeAnchor] sorts in place

    [webgParams.sort()] and [webgShaderPrec.sort()] reorder the arrays of
    the caller's bag.  A second call on the same bag, or a call on a bag
    that shares the arrays, gives the same anchor. *)

Lemma Array_sort_idempotent l : Array_sort (Array_sort l) = Array_sort l.
Proof. apply Array_sort_Permutation, Array_sort_is_Permutation. Qed.

Section InPlaceSort.

Context {R : Runtime}.

Lemma hashNonEmpty_sorted l :
  Anchor.hashNonEmpty Array_sort (option_map Array_sort l) =
  Anchor.hashNonEmpty Array_sort l.
Proof.
  destruct l as [[|x t]|]; try reflexivity.
  cbn [option_map].
  destruct (Array_sort (x :: t)) as [|y s] eqn:E.
  - pose proof (Array_sort_is_Permutation (x :: t)) as P. rewrite E in P.
    now apply Permutation_nil in P.
  - unfold Anchor.hashNonEmpty. now rewrite <- E, Array_sort_idempotent.
Qed.

Lemma anchorLiteral_sortedInPlace b :
  Anchor.anchorLiteral (Anchor.sortedInPlace b) = Anchor.anchorLiteral b.
Proof.
  unfold Anchor.anchorLiteral, Anchor.sortedInPlace;
    cbn [Anchor.webgl Anchor.webgExtensions Anchor.hardwareConcurrency
         Anchor.deviceMemory Anchor.audioFingerprint Anchor.mathFingerprint
         Anchor.webgpu Anchor.eme Anchor.performanceTiming].
  destruct (Anchor.webgExtensions b) as [e|]; [|reflexivity].
  cbn [option_map Anchor.optField Anchor.parameters Anchor.shaderPrecisions
       Anchor.supportedExtensions].
  change (Some (Array_sort (Anchor.parameters e)))
    with (option_map Array_sort (Some (Anchor.parameters e))).
  change (Some (Array_sort (Anchor.shaderPrecisions e)))
    with (option_map Array_sort (Some (Anchor.shaderPrecisions e))).
  now rewrite !hashNonEmpty_sorted.
Qed.

Lemma computeAnchor_sortedInPlace b :
  Anchor.computeAnchor (Anchor.sortedInPlace b) = Anchor.computeAnchor b.
Proof. unfold Anchor.computeAnchor. now rewrite anchorLiteral_sortedInPlace. Qed.

End InPlaceSort.

(** ** The object the replacer builds *)

Lemma keyBefore_irrefl k : ~ keyBefore k k.
Proof.
  unfold keyBefore. destruct (arrayIndex k); [lia|].
  now rewrite str_ltb_irrefl.
Qed.

Lemma replacer_fold_keys {A} (val : list (jsstring * A)) ks : forall sorted,
  StronglySorted strLt ks ->
  (forall k, In k ks -> getProperty val k <> None) ->
  StronglySorted keyBefore (map fst sorted) ->
  (forall x k, In x (map fst sorted) -> In k ks -> strLt x k) ->
  let result :=
    fold_left (fun sorted k => match getProperty val k with
                               | Some v => assignProperty sorted k v
                               | None => sorted
                               end) ks sorted in
  StronglySorted keyBefore (map fst result) /\
  Permutation (map fst result) (map fst sorted ++ filter notProto ks).
Proof.
  induction ks as [|k1 ks IH]; intros sorted Hks Hval Hs Hlt; cbn -[proto].
  - split; [exact Hs | now rewrite app_nil_r].
  - apply StronglySorted_inv in Hks as [Hks Hk1].
    destruct (getProperty val k1) as [v|] eqn:Ev;
      [|destruct (Hval k1 (or_introl eq_refl) Ev)].
    unfold assignProperty, notProto.
    destruct (str_eqb k1 proto) eqn:Ep; cbn -[proto].
    + apply IH; try assumption.
      * intros k Hk. apply Hval. now right.
      * intros x k Hx Hk. apply Hlt; [exact Hx | now right].
    + assert (Hnotin : ~ In k1 (map fst sorted)).
      { intros Hin. specialize (Hlt k1 k1 Hin (or_introl eq_refl)).
        unfold strLt in Hlt. now rewrite str_ltb_irrefl in Hlt. }
      destruct (IH (defineProperty sorted k1 v)) as [IH1 IH2]; try assumption.
      * intros k Hk. apply Hval. now right.
      * apply defineProperty_sorted; [exact Hs | exact Hnotin |].
        intros Hn. apply Forall_forall. intros x Hx.
        specialize (Hlt x k1 Hx (or_introl eq_refl)).
        unfold keyBefore. rewrite Hn. now destruct (arrayIndex x).
      * intros x k Hx Hk.
        apply (Permutation_in _ (defineProperty_keys sorted k1 v Hnotin)) in Hx.
        destruct Hx as [<-|Hx].
        -- rewrite Forall_forall in Hk1. now apply Hk1.
        -- apply Hlt; [exact Hx | now right].
      * split; [exact IH1|]. rewrite IH2.
        rewrite (defineProperty_keys sorted k1 v Hnotin).
        cbn -[proto]. apply Permutation_middle.
Qed.

Lemma getProperty_replacer_fold {A} (val : list (jsstring * A)) ks k : forall sorted,
  getProperty
    (fold_left (fun sorted k => match getProperty val k with
                                | Some v => assignProperty sorted k v
                                | None => sorted
                                end) ks sorted) k =
  if mem k ks && notProto k
  then match getProperty val k with
       | Some v => Some v
       | None => getProperty sorted k
       end
  else getProperty sorted k.
Proof.
  induction ks as [|k1 ks IH]; intros sorted; cbn -[proto]; [reflexivity|].
  rewrite IH. unfold assignProperty, notProto.
  destruct (str_eqb k k1) eqn:E1.
  - apply str_eqb_eq in E1. subst k1. cbn -[proto].
    destruct (str_eqb k proto) eqn:Ep; cbn -[proto].
    + rewrite andb_false_r. now destruct (getProperty val k).
    + rewrite andb_true_r.
      destruct (getProperty val k) as [v|] eqn:Ev.
      * destruct (mem k ks); [reflexivity|].
        now rewrite getProperty_defineProperty, str_eqb_refl.
      * now destruct (mem k ks).
  - cbn -[proto].
    assert (Hstep : getProperty
                      match getProperty val k1 with
                      | Some v => if str_eqb k1 proto then sorted
                                  else defineProperty sorted k1 v
                      | None => sorted
                      end k = getProperty sorted k).
    { destruct (getProperty val k1) as [v1|]; [|reflexivity].
      destruct (str_eqb k1 proto); [reflexivity|].
      now rewrite getProperty_defineProperty, E1. }
    now rewrite Hstep.
Qed.

Lemma In_key_getProperty {A} (o : list (jsstring * A)) k :
  In k (map fst o) -> getProperty o k <> None.
Proof.
  intros Hin E. revert Hin. induction o as [|[k0 v0] o IH]; cbn in *; [tauto|].
  destruct (str_eqb k k0) eqn:E0; [discriminate|].
  apply str_eqb_neq in E0. intros [H|H]; [congruence | now apply IH].
Qed.

Lemma filter_Permutation {A} (p : A -> bool) l1 l2 :
  Permutation l1 l2 -> Permutation (filter p l1) (filter p l2).
Proof.
  induction 1 as [|x l1 l2 _ IH|x y l|l1 l2 l3 _ IH1 _ IH2]; cbn.
  - reflexivity.
  - destruct (p x); [apply perm_skip, IH | exact IH].
  - destruct (p x), (p y); try reflexivity. apply perm_swap.
  - etransitivity; eassumption.
Qed.

(** The keys of the new object are those of the argument without
    ["__proto__"], in the canonical order, with the same values. *)
Lemma replacerProps_spec {A} (val : list (jsstring * A)) :
  NoDup (map fst val) ->
  StronglySorted keyBefore (map fst (replacerProps val)) /\
  Permutation (map fst (replacerProps val)) (filter notProto (map fst val)) /\
  forall k, getProperty (replacerProps val) k =
            if notProto k then getProperty val k else None.
Proof.
  intros Hnd. unfold replacerProps, Object_keys.
  pose proof (Array_sort_is_Permutation (map fst val)) as Hperm.
  destruct (replacer_fold_keys val (Array_sort (map fst val)) []) as [H1 H2].
  - now apply Array_sort_sorted.
  - intros k Hk. apply In_key_getProperty.
    eapply Permutation_in; eassumption.
  - constructor.
  - intros x k [].
  - split; [exact H1|]. split.
    + rewrite H2. cbn. now apply filter_Permutation.
    + intros k. rewrite getProperty_replacer_fold. cbn.
      destruct (notProto k); [|now rewrite andb_false_r].
      rewrite andb_true_r.
      destruct (mem k (Array_sort (map fst val))) eqn:Em.
      * now destruct (getProperty val k).
      * destruct (getProperty val k) as [v|] eqn:Ev; [|reflexivity].
        apply getProperty_In_key in Ev.
        assert (Hin : In k (Array_sort (map fst val)))
          by (eapply Permutation_in; [symmetry; exact Hperm | exact Ev]).
        apply mem_In in Hin. congruence.
Qed.

Lemma keyBefore_without_index l :
  Forall (fun k => arrayIndex k = None) l ->
  StronglySorted keyBefore l -> StronglySorted strLt l.
Proof.
  intros Hn Hs. induction Hs as [|k l Hs IH Hall]; [constructor|].
  inversion Hn as [|? ? Hk Hl]; subst.
  constructor; [now apply IH|].
  rewrite Forall_forall in *. intros x Hx. specialize (Hall x Hx).
  unfold keyBefore in Hall. rewrite Hk, (Hl x Hx) in Hall. exact Hall.
Qed.

(** ** The replacer moves the values as they are *)

Lemma getProperty_map {A B} (f : A -> B) (o : list (jsstring * A)) k :
  getProperty (map (fun kv => (fst kv, f (snd kv))) o) k =
  option_map f (getProperty o k).
Proof.
  induction o as [|[k0 v0] o IH]; cbn; [reflexivity|].
  now destruct (str_eqb k k0).
Qed.

Lemma defineProperty_map {A B} (f : A -> B) (o : list (jsstring * A)) k v :
  defineProperty (map (fun kv => (fst kv, f (snd kv))) o) k (f v) =
  map (fun kv => (fst kv, f (snd kv))) (defineProperty o k v).
Proof.
  induction o as [|[k0 v0] o IH]; cbn; [reflexivity|].
  destruct (str_eqb k k0); [reflexivity|].
  destruct (goesBefore k k0); [reflexivity|]. cbn. now rewrite IH.
Qed.

Lemma replacerProps_map {A B} (f : A -> B) (val : list (jsstring * A)) :
  replacerProps (map (fun kv => (fst kv, f (snd kv))) val) =
  map (fun kv => (fst kv, f (snd kv))) (replacerProps val).
Proof.
  unfold replacerProps, Object_keys. rewrite map_map. cbn [fst].
  change (@nil (jsstring * B))
    with (map (fun kv : jsstring * A => (fst kv, f (snd kv))) []).
  generalize (@nil (jsstring * A)) as sorted.
  induction (Array_sort (map fst val)) as [|k ks IH]; intros sorted; cbn -[proto];
    [reflexivity|].
  rewrite getProperty_map.
  destruct (getProperty val k) as [v|]; cbn -[proto]; [|apply IH].
  unfold assignProperty. destruct (str_eqb k proto); [apply IH|].
  rewrite defineProperty_map. apply IH.
Qed.

Lemma SerializeJSONObject_defined (members : list (jsstring * option jsstring)) :
  SerializeJSONObject members =
  SerializeJSONObject
    (filter (fun m => match snd m with Some _ => true | None => false end) members).
Proof.
  unfold SerializeJSONObject.
  assert (E : forall l : list (jsstring * option jsstring),
             flat_map (fun m => match snd m with
                                | Some text => [QuoteJSONString (fst m) ++ 58 :: text]
                                | None => []
                                end) l =
             flat_map (fun m => match snd m with
                                | Some text => [QuoteJSONString (fst m) ++ 58 :: text]
                                | None => []
                                end)
                      (filter (fun m => match snd m with
                                        | Some _ => true
                                        | None => false
                                        end) l)).
  { induction l as [|[k [t|]] l IH]; cbn; [reflexivity| |exact IH].
    f_equal. exact IH. }
  now rewrite <- E.
Qed.

Section CanonicalEncoding.

Context {R : Runtime}.

(** The engine proceeds from the outside: the replacer first, then the
    properties of what it returned. *)
Lemma canonicalize_by_replacer v :
  canonicalize v =
  match replacer v with
  | VUndefined => None
  | VNull => Some (lit "null")
  | VBool b => Some (if b then lit "true" else lit "false")
  | VNum x => Some (if is_finite x then Number_toString x else lit "null")
  | VStr s => Some (QuoteJSONString s)
  | VArr items => Some (SerializeJSONArray (map canonicalize items))
  | VObj sorted =>
      Some (SerializeJSONObject
              (map (fun kv => (fst kv, canonicalize (snd kv))) sorted))
  end.
Proof.
  destruct v; try reflexivity. cbn [canonicalize replacer].
  now rewrite replacerProps_map.
Qed.

(** C8, amended: values that are equal up to the order of the keys of
    their records, at every depth, have the same canonical text; the
    members of a record are written in the order of the object that the
    replacer returns: the keys that are array indices first, in ascending
    numeric order, then the other keys in ascending code-unit order (a key
    ["__proto__"] is not written), so in lexicographic order when no key
    is an array index; a member whose value is [undefined] is not
    written. *)
Theorem canonical_encoding :
  (forall v1 v2,
      distinctKeys v1 = true -> sameRecords v1 v2 ->
      canonicalize v1 = canonicalize v2) /\
  (forall props,
      distinctKeys (VObj props) = true ->
      canonicalize (VObj props) =
        Some (SerializeJSONObject
                (map (fun kv => (fst kv, canonicalize (snd kv)))
                     (replacerProps props))) /\
      StronglySorted keyBefore (map fst (replacerProps props)) /\
      Permutation (map fst (replacerProps props))
                  (filter notProto (map fst props)) /\
      (forall k, getProperty (replacerProps props) k =
                 if notProto k then getProperty props k else None) /\
      (Forall (fun k => arrayIndex k = None) (map fst props) ->
       StronglySorted strLt (map fst (replacerProps props)))) /\
  (forall members,
      SerializeJSONObject members =
      SerializeJSONObject
        (filter (fun m => match snd m with Some _ => true | None => false end)
                members)) /\
  (forall v, canonicalize v = None <-> v = VUndefined).
Proof.
  split; [|split; [|split]].
  - intros v1 v2. apply canonicalize_sameRecords.
  - intros props Hwf. destruct (distinctKeys_obj _ Hwf) as [Hnd _].
    destruct (replacerProps_spec props Hnd) as (Hs & Hp & Hg).
    split; [apply (canonicalize_by_replacer (VObj props))|].
    split; [exact Hs|]. split; [exact Hp|]. split; [exact Hg|].
    intros Hn. apply keyBefore_without_index; [|exact Hs].
    eapply Permutation_Forall; [symmetry; exact Hp|].
    rewrite Forall_forall in *. intros k Hk.
    apply filter_In in Hk as [Hk _]. now apply Hn.
  - apply SerializeJSONObject_defined.
  - intros v. split; [|intros ->; reflexivity].
    destruct v; try discriminate. reflexivity.
Qed.

End CanonicalEncoding.

(** C8, counterexample: ["10"] is before ["9"] in lexicographic order and
    after it in the canonical text. *)
Lemma canonical_order_counterexample :
  @canonicalize Sample.engine indexKeys = Some (json "{'9':2,'10':1}") /\
  str_ltb (lit "10") (lit "9") = true.
Proof. split; vm_compute; reflexivity. Qed.

(** The records [{b:1,a:2}] and [{a:2,b:1}]; a record with an absent
    field, a nested record and a sequence. *)
Example canonicalize_values :
  @canonicalize Sample.engine
    (VObj [(lit "b", VNum 1%float); (lit "a", VNum 2%float)])
    = Some (json "{'a':2,'b':1}") /\
  @canonicalize Sample.engine
    (VObj [(lit "a", VNum 2%float); (lit "b", VNum 1%float)])
    = Some (json "{'a':2,'b':1}") /\
  @canonicalize Sample.engine
    (VObj [(lit "z", VArr [VStr (lit "y"); VUndefined; VStr (lit "x")]);
           (lit "k", VUndefined);
           (lit "n", VObj [(lit "d", VNull); (lit "c", VBool true)])])
    = Some (json "{'n':{'c':true,'d':null},'z':['y',null,'x']}").
Proof. repeat split; vm_compute; reflexivity. Qed.

(** ** What [JSON.parse] reads back *)

Lemma sorted_not_first {A} k (o : list (jsstring * A)) :
  Forall (keyBefore k) (map fst o) -> getProperty o k = None.
Proof.
  intros H. destruct (getProperty o k) as [v|] eqn:E; [|reflexivity].
  apply getProperty_In_key in E. rewrite Forall_forall in H.
  now destruct (keyBefore_irrefl k (H _ E)).
Qed.

(** Two objects with the same properties, enumerated in the same order,
    are the same object. *)
Lemma sorted_lookup_unique {A} (l1 : list (jsstring * A)) : forall l2,
  StronglySorted keyBefore (map fst l1) ->
  StronglySorted keyBefore (map fst l2) ->
  (forall k, getProperty l1 k = getProperty l2 k) ->
  l1 = l2.
Proof.
  induction l1 as [|[k1 v1] l1 IH]; intros [|[k2 v2] l2] S1 S2 Hg.
  - reflexivity.
  - specialize (Hg k2). cbn in Hg. now rewrite str_eqb_refl in Hg.
  - specialize (Hg k1). cbn in Hg. now rewrite str_eqb_refl in Hg.
  - cbn [map fst] in S1, S2.
    apply StronglySorted_inv in S1 as [S1 F1].
    apply StronglySorted_inv in S2 as [S2 F2].
    assert (Hk : k1 = k2).
    { pose proof (Hg k1) as H1. pose proof (Hg k2) as H2. cbn in H1, H2.
      rewrite str_eqb_refl in H1, H2.
      destruct (str_eqb k1 k2) eqn:E12; [now apply str_eqb_eq in E12|].
      destruct (str_eqb k2 k1) eqn:E21;
        [apply str_eqb_eq in E21; now subst|].
      symmetry in H1. apply getProperty_In_key in H1.
      apply getProperty_In_key in H2.
      rewrite Forall_forall in F1, F2.
      destruct (keyBefore_irrefl k1).
      eapply keyBefore_trans; [apply (F1 _ H2) | apply (F2 _ H1)]. }
    subst k2.
    assert (Hv : v1 = v2).
    { specialize (Hg k1). cbn in Hg. rewrite str_eqb_refl in Hg. congruence. }
    subst v2. f_equal. apply IH; try assumption.
    intros k. specialize (Hg k). cbn in Hg.
    destruct (str_eqb k k1) eqn:E; [|exact Hg].
    apply str_eqb_eq in E. subst k.
    now rewrite !sorted_not_first.
Qed.

Lemma sorted_NoDup l : StronglySorted keyBefore l -> NoDup l.
Proof.
  induction 1 as [|k l _ IH F]; constructor; [|exact IH].
  intros Hin. rewrite Forall_forall in F.
  exact (keyBefore_irrefl k (F _ Hin)).
Qed.

(** The replacer leaves an object as it is when its keys are already in
    the order of enumeration and none is ["__proto__"]. *)
Lemma replacerProps_sorted {A} (o : list (jsstring * A)) :
  StronglySorted keyBefore (map fst o) ->
  ~ In proto (map fst o) ->
  replacerProps o = o.
Proof.
  intros S Hp.
  destruct (replacerProps_spec o (sorted_NoDup _ S)) as (S' & _ & Hg).
  apply sorted_lookup_unique; [exact S' | exact S |].
  intros k. rewrite Hg. unfold notProto.
  destruct (str_eqb k proto) eqn:E; [|reflexivity].
  apply str_eqb_eq in E. subst k. cbn [negb].
  destruct (getProperty o proto) as [v|] eqn:G; [|reflexivity].
  now apply getProperty_In_key in G.
Qed.

(** A key that comes after every key of an object is added at the end. *)
Lemma defineProperty_last {A} (o : list (jsstring * A)) k v :
  Forall (fun k' => keyBefore k' k) (map fst o) ->
  defineProperty o k v = o ++ [(k, v)].
Proof.
  induction o as [|[k' v'] o IH]; intros F; [reflexivity|].
  cbn [map fst] in F. apply Forall_cons_iff in F as [Hk F].
  cbn [defineProperty app].
  destruct (str_eqb k k') eqn:E.
  { apply str_eqb_eq in E. subst k'. now destruct (keyBefore_irrefl k). }
  destruct (goesBefore k k') eqn:G.
  { apply goesBefore_keyBefore in G.
    destruct (keyBefore_irrefl k). eapply keyBefore_trans; eassumption. }
  now rewrite IH.
Qed.

Lemma present_keys {A} (members : list (jsstring * option A)) k :
  In k (map fst (present members)) -> In k (map fst members).
Proof.
  induction members as [|[k' [w|]] members IH]; cbn; [tauto| |]; intuition.
Qed.

Lemma present_sorted {A} (members : list (jsstring * option A)) :
  StronglySorted keyBefore (map fst members) ->
  StronglySorted keyBefore (map fst (present members)).
Proof.
  induction members as [|[k [w|]] members IH]; cbn; intros S;
    [constructor| |]; apply StronglySorted_inv in S as [S F]; [|now apply IH].
  constructor; [now apply IH|].
  rewrite Forall_forall in *. intros x Hx. apply F. now apply present_keys.
Qed.

Lemma parseMembers_from {A} (members : list (jsstring * option A)) : forall o,
  StronglySorted keyBefore (map fst (o ++ present members)) ->
  fold_left (fun o m => match snd m with
                        | Some w => defineProperty o (fst m) w
                        | None => o
                        end) members o = o ++ present members.
Proof.
  induction members as [|[k [w|]] members IH]; intros o S; cbn.
  - now rewrite app_nil_r.
  - cbn in S. rewrite defineProperty_last.
    + rewrite IH; rewrite <- app_assoc; [reflexivity | exact S].
    + clear IH. induction o as [|[k' v'] o IHo]; [constructor|].
      cbn in S. apply StronglySorted_inv in S as [S F].
      constructor; [|now apply IHo].
      rewrite Forall_forall in F. apply F. cbn.
      rewrite map_app, in_app_iff. right. now left.
  - apply IH. exact S.
Qed.

Lemma parseMembers_sorted (members : list (jsstring * option value)) :
  StronglySorted keyBefore (map fst members) ->
  parseMembers members = present members.
Proof.
  intros S. unfold parseMembers. rewrite parseMembers_from; [reflexivity|].
  now apply present_sorted.
Qed.

Lemma In_getProperty {A} (o : list (jsstring * A)) k v :
  getProperty o k = Some v -> In (k, v) o.
Proof.
  induction o as [|[k' v'] o IH]; cbn; [discriminate|].
  destruct (str_eqb k k') eqn:E.
  - apply str_eqb_eq in E. intros [= ->]. subst. now left.
  - intros H. right. now apply IH.
Qed.

Lemma getProperty_In {A} (o : list (jsstring * A)) k v :
  NoDup (map fst o) -> In (k, v) o -> getProperty o k = Some v.
Proof.
  induction o as [|[k' v'] o IH]; cbn; [tauto|].
  intros Hnd [E|Hin].
  - injection E as -> ->. now rewrite str_eqb_refl.
  - apply NoDup_cons_iff in Hnd as [Hn Hnd].
    destruct (str_eqb k k') eqn:E; [|now apply IH].
    apply str_eqb_eq in E. subst k'. destruct Hn.
    apply in_map_iff. now exists (k, v).
Qed.

Lemma replacerProps_incl {A} (val : list (jsstring * A)) kv :
  NoDup (map fst val) -> In kv (replacerProps val) -> In kv val.
Proof.
  intros Hnd Hin. destruct kv as [k v].
  destruct (replacerProps_spec val Hnd) as (S & _ & Hg).
  apply (getProperty_In _ _ _ (sorted_NoDup _ S)) in Hin.
  rewrite Hg in Hin. destruct (notProto k); [|discriminate].
  now apply In_getProperty.
Qed.

Lemma replacerProps_no_proto {A} (val : list (jsstring * A)) :
  NoDup (map fst val) -> ~ In proto (map fst (replacerProps val)).
Proof.
  intros Hnd Hin. destruct (replacerProps_spec val Hnd) as (_ & _ & Hg).
  apply In_key_getProperty in Hin. apply Hin. rewrite Hg.
  unfold notProto. now rewrite str_eqb_refl.
Qed.

Section ParseBack.

Context {R : Runtime}.

(** [Number::toString] prints either zero as ["0"]. *)
Hypothesis Number_toString_zero :
  forall x, (x =? 0)%float = true -> Number_toString x = Number_toString 0%float.

Lemma readsBack_members (members : list (jsstring * value)) :
  Forall (fun kv => readsBack (snd kv)) members ->
  map (fun kv => (fst kv, canonicalize (snd kv)))
      (present (map (fun kv => (fst kv, parseCanonical (snd kv))) members)) =
  filter (fun m => match snd m with Some _ => true | None => false end)
         (map (fun kv => (fst kv, canonicalize (snd kv))) members).
Proof.
  induction 1 as [|[k v] members Hv _ IH]; [reflexivity|].
  unfold readsBack in Hv. cbn [snd fst] in Hv. cbn [map fst snd].
  unfold present in *. cbn [flat_map fst snd filter].
  destruct (parseCanonical v) as [w|] eqn:E.
  - cbn [app map fst snd]. rewrite Hv.
    destruct (canonicalize v) eqn:C.
    + now rewrite IH.
    + destruct v; discriminate.
  - subst v. cbn [canonicalize app]. exact IH.
Qed.

(** The object that [JSON.parse] builds from the canonical text of a value
    has that very text: [canonicalize(JSON.parse(canonicalize(v)))] is
    [canonicalize(v)]. *)
Lemma canonicalize_parseCanonical v :
  distinctKeys v = true -> readsBack v.
Proof.
  induction v as [| |b|x|s|items IH|props IH] using value_ind'; intros Hwf;
    unfold readsBack; cbn [parseCanonical]; try reflexivity.
  - cbn [canonicalize]. destruct (is_finite x) eqn:F; [|reflexivity].
    cbn [canonicalize]. destruct (x =? 0)%float eqn:Z0.
    + rewrite (Number_toString_zero x Z0). reflexivity.
    + now rewrite F.
  - cbn [canonicalize]. f_equal.
    cbn [distinctKeys] in Hwf. rewrite forallb_forall in Hwf.
    unfold SerializeJSONArray. do 3 f_equal. rewrite !map_map.
    apply map_ext_in. intros i Hi.
    rewrite Forall_forall in IH. specialize (IH i Hi (Hwf i Hi)).
    unfold readsBack in IH.
    destruct (parseCanonical i) as [w|]; [now rewrite IH|].
    subst i. reflexivity.
  - destruct (distinctKeys_obj _ Hwf) as [Hnd Hall].
    destruct (replacerProps_spec props Hnd) as (S & _ & _).
    rewrite (replacerProps_map parseCanonical).
    set (sorted := replacerProps props) in *.
    assert (Hs : Forall (fun kv => readsBack (snd kv)) sorted).
    { rewrite Forall_forall in *. intros kv Hkv.
      apply (replacerProps_incl _ _ Hnd) in Hkv. now apply IH, Hall. }
    assert (Sm : StronglySorted keyBefore
                   (map fst (map (fun kv => (fst kv, parseCanonical (snd kv))) sorted))).
    { now rewrite map_map. }
    rewrite (parseMembers_sorted _ Sm).
    cbn [canonicalize]. f_equal.
    rewrite replacerProps_sorted.
    + rewrite (readsBack_members _ Hs).
      rewrite <- SerializeJSONObject_defined.
      now rewrite (replacerProps_map canonicalize).
    + rewrite map_map. cbn [fst]. now apply present_sorted.
    + rewrite map_map. cbn [fst]. intros Hin. apply present_keys in Hin.
      rewrite map_map in Hin. cbn [fst] in Hin.
      now apply (replacerProps_no_proto props Hnd).
Qed.

End ParseBack.

Section ParseBackAnchor.

Context {R : Runtime}.

Hypothesis Number_toString_zero :
  forall x, (x =? 0)%float = true -> Number_toString x = Number_toString 0%float.

(** X4: the visitor identifier is the stable hash of the canonical text
    of the object literal [anchor] that [computeAnchor] builds: parsing
    that text and canonicalizing the parsed object a second time gives
    the same text, for an engine that prints the two zeros alike and a
    literal whose objects repeat no key. *)
Theorem visitorId_hashes_literal b literal :
  Anchor.anchorLiteral b = Some literal ->
  distinctKeys literal = true ->
  exists text,
    canonicalize literal = Some text /\
    option_map Anchor.visitorId (Anchor.computeVisitorId b) =
      Some (stableHashString text).
Proof.
  intros El Hwf.
  destruct (computeVisitorId_total b) as (anchor & text & Ea & Et & Ev).
  exists text. split; [|now rewrite Ev].
  pose proof (canonicalize_parseCanonical Number_toString_zero literal Hwf) as Hr.
  unfold readsBack in Hr. unfold Anchor.computeAnchor in Ea.
  rewrite El in Ea. rewrite Ea in Hr. congruence.
Qed.

End ParseBackAnchor.

Lemma engine_prints_zero x :
  (x =? 0)%float = true ->
  @Number_toString Sample.engine x = @Number_toString Sample.engine 0%float.
Proof.
  intros H. rewrite eqb_spec in H. cbn [Number_toString Sample.engine].
  unfold Sample.integerOf.
  change (Prim2SF 0) with (S754_zero false) in *.
  destruct (Prim2SF x) as [s|[]| |[] m e]; try (cbn in H; discriminate H).
  reflexivity.
Qed.

Lemma visitorId_hashes_literal_witness :
  exists literal text,
    @Anchor.anchorLiteral Sample.engine richSignals = Some literal /\
    distinctKeys literal = true /\
    @canonicalize Sample.engine literal = Some text /\
    option_map Anchor.visitorId (@Anchor.computeVisitorId Sample.engine richSignals) =
      Some (stableHashString text).
Proof.
  eexists.
  assert (E : @Anchor.anchorLiteral Sample.engine richSignals = Some _)
    by (vm_compute; reflexivity).
  match type of E with
  | _ = Some ?l => assert (Hwf : distinctKeys l = true) by (vm_compute; reflexivity)
  end.
  destruct (@visitorId_hashes_literal Sample.engine engine_prints_zero
              richSignals _ E Hwf) as (text & Et & Ev).
  exists text.
  split; [exact E | split; [exact Hwf | split; [exact Et | exact Ev]]].
Defined.

(* ================================================================== *)
(** * Further properties of the code *)
(* ================================================================== *)

(** ** The order of the numbers *)

Lemma SFcompare_floatKey a b :
  SFcompare a b =
  match floatKey a, floatKey b with
  | Some ka, Some kb => Some (lexCompare ka kb)
  | _, _ => None
  end.
Proof.
  destruct a as [[]|[]| |[] m1 e1], b as [[]|[]| |[] m2 e2]; try reflexivity;
    cbn [SFcompare floatKey lexCompare Z.compare Pos.compare].
  change (CompOpp (1 ?= 1)%positive) with Eq. cbv iota.
  rewrite Z.compare_opp, (Z.compare_antisym e1 e2).
  now destruct (e1 ?= e2).
Qed.

Lemma lexCompare_Lt a b : lexCompare a b = Lt <-> lexLt a b.
Proof.
  destruct a as [[a1 a2] a3], b as [[b1 b2] b3]. unfold lexCompare, lexLt. cbn.
  destruct (Z.compare_spec a1 b1), (Z.compare_spec a2 b2), (Z.compare_spec a3 b3);
    split; intros K; try discriminate; try reflexivity; lia.
Qed.

Lemma lexCompare_Eq a b : lexCompare a b = Eq <-> a = b.
Proof.
  destruct a as [[a1 a2] a3], b as [[b1 b2] b3]. unfold lexCompare.
  destruct (Z.compare_spec a1 b1), (Z.compare_spec a2 b2), (Z.compare_spec a3 b3);
    split; intros K; try discriminate; try reflexivity;
    try (injection K; intros; lia); subst; reflexivity.
Qed.

(** [x < y] and [x <= y] on numbers, through their places. *)
Lemma ltb_floatKey x y :
  (x <? y)%float = true <->
  exists kx ky, floatKey (Prim2SF x) = Some kx /\ floatKey (Prim2SF y) = Some ky /\
                lexLt kx ky.
Proof.
  rewrite ltb_spec. unfold SFltb. rewrite SFcompare_floatKey.
  destruct (floatKey (Prim2SF x)) as [kx|], (floatKey (Prim2SF y)) as [ky|];
    try (split; [discriminate | intros (? & ? & ? & ? & _); discriminate]).
  split.
  - intros H. exists kx, ky. repeat split. apply lexCompare_Lt.
    now destruct (lexCompare kx ky).
  - intros (? & ? & [= <-] & [= <-] & H). apply lexCompare_Lt in H. now rewrite H.
Qed.

Lemma leb_floatKey x y :
  (x <=? y)%float = true <->
  exists kx ky, floatKey (Prim2SF x) = Some kx /\ floatKey (Prim2SF y) = Some ky /\
                (lexLt kx ky \/ kx = ky).
Proof.
  rewrite leb_spec. unfold SFleb. rewrite SFcompare_floatKey.
  destruct (floatKey (Prim2SF x)) as [kx|], (floatKey (Prim2SF y)) as [ky|];
    try (split; [discriminate | intros (? & ? & ? & ? & _); discriminate]).
  split.
  - intros H. exists kx, ky. repeat split.
    destruct (lexCompare kx ky) eqn:E; try discriminate.
    + right. now apply lexCompare_Eq.
    + left. now apply lexCompare_Lt.
  - intros (? & ? & [= <-] & [= <-] & [H|H]).
    + apply lexCompare_Lt in H. now rewrite H.
    + apply lexCompare_Eq in H. now rewrite H.
Qed.

Lemma is_nan_floatKey x : is_nan x = true <-> floatKey (Prim2SF x) = None.
Proof.
  unfold is_nan. rewrite eqb_spec. unfold SFeqb. rewrite SFcompare_floatKey.
  destruct (floatKey (Prim2SF x)) as [k|]; [|now split].
  replace (lexCompare k k) with Eq by (symmetry; now apply lexCompare_Eq).
  split; discriminate.
Qed.

Lemma lexLt_trans a b c : lexLt a b -> lexLt b c -> lexLt a c.
Proof. unfold lexLt. lia. Qed.

Lemma lexLt_irrefl a : ~ lexLt a a.
Proof. unfold lexLt. lia. Qed.

Lemma float_ltb_trans x y z :
  (x <? y)%float = true -> (y <? z)%float = true -> (x <? z)%float = true.
Proof.
  rewrite !ltb_floatKey.
  intros (kx & ky & Hx & Hy & L1) (ky' & kz & Hy' & Hz & L2).
  rewrite Hy in Hy'. injection Hy' as <-.
  exists kx, kz. repeat split; try assumption. eapply lexLt_trans; eassumption.
Qed.

Lemma float_ltb_leb x y : (x <? y)%float = true -> (x <=? y)%float = true.
Proof.
  rewrite ltb_floatKey, leb_floatKey.
  intros (kx & ky & Hx & Hy & L). exists kx, ky. auto.
Qed.

Lemma float_leb_trans x y z :
  (x <=? y)%float = true -> (y <=? z)%float = true -> (x <=? z)%float = true.
Proof.
  rewrite !leb_floatKey.
  intros (kx & ky & Hx & Hy & L1) (ky' & kz & Hy' & Hz & L2).
  rewrite Hy in Hy'. injection Hy' as <-.
  exists kx, kz. repeat split; try assumption.
  destruct L1 as [L1| ->], L2 as [L2| <-]; auto.
  left. eapply lexLt_trans; eassumption.
Qed.

Lemma float_ltb_asym x y : (x <? y)%float = true -> (y <? x)%float = false.
Proof.
  intros H. destruct (y <? x)%float eqn:E; [|reflexivity].
  pose proof (float_ltb_trans _ _ _ H E) as C.
  apply ltb_floatKey in C as (k & k' & H1 & H2 & L).
  rewrite H1 in H2. injection H2 as <-. now apply lexLt_irrefl in L.
Qed.

Lemma float_ltb_not_nan x y :
  (x <? y)%float = true -> is_nan x = false /\ is_nan y = false.
Proof.
  intros H. apply ltb_floatKey in H as (kx & ky & Hx & Hy & _).
  split; apply not_true_is_false; rewrite is_nan_floatKey; congruence.
Qed.

Lemma float_leb_refl x : is_nan x = false -> (x <=? x)%float = true.
Proof.
  intros H. apply leb_floatKey.
  destruct (floatKey (Prim2SF x)) as [k|] eqn:E.
  - exists k, k. auto.
  - apply is_nan_floatKey in E. congruence.
Qed.

Lemma float_ltb_nan_r x y : is_nan y = true -> (x <? y)%float = false.
Proof.
  intros H. apply not_true_is_false. intros L.
  apply float_ltb_not_nan in L as [_ L]. congruence.
Qed.

Lemma float_ltb_nan_l x y : is_nan x = true -> (x <? y)%float = false.
Proof.
  intros H. apply not_true_is_false. intros L.
  apply float_ltb_not_nan in L as [L _]. congruence.
Qed.

Lemma float_ltb_irrefl x : (x <? x)%float = false.
Proof.
  destruct (x <? x)%float eqn:E; [|reflexivity].
  now rewrite (float_ltb_asym _ _ E) in E.
Qed.

(** Two numbers of which neither is NaN are in order, one way or the
    other. *)
Lemma float_not_ltb_leb x y :
  is_nan x = false -> is_nan y = false ->
  (y <? x)%float = false -> (x <=? y)%float = true.
Proof.
  intros Hx Hy H. apply leb_floatKey.
  destruct (floatKey (Prim2SF x)) as [kx|] eqn:Ex;
    [|apply is_nan_floatKey in Ex; congruence].
  destruct (floatKey (Prim2SF y)) as [ky|] eqn:Ey;
    [|apply is_nan_floatKey in Ey; congruence].
  exists kx, ky. repeat split.
  assert (N : ~ lexLt ky kx).
  { intros L. assert ((y <? x)%float = true); [|congruence].
    apply ltb_floatKey. exists ky, kx. auto. }
  destruct kx as [[a1 a2] a3], ky as [[b1 b2] b3]. unfold lexLt in *. cbn in *.
  destruct (Z.eq_dec a1 b1), (Z.eq_dec a2 b2), (Z.eq_dec a3 b3);
    try (left; lia). right. congruence.
Qed.

Lemma float_leb_not_nan x y :
  (x <=? y)%float = true -> is_nan x = false /\ is_nan y = false.
Proof.
  intros H. apply leb_floatKey in H as (kx & ky & Hx & Hy & _).
  split; apply not_true_is_false; rewrite is_nan_floatKey; congruence.
Qed.

(** ** The accumulators of [stableHash] *)

Lemma ToInt32_mod x : ToInt32 x mod 2 ^ 32 = x mod 2 ^ 32.
Proof.
  unfold ToInt32. destruct (2 ^ 31 <=? x mod 2 ^ 32).
  - rewrite <- (Z.mod_mod x (2 ^ 32)) at 2 by lia.
    replace (x mod 2 ^ 32 - 2 ^ 32) with (x mod 2 ^ 32 + (-1) * 2 ^ 32) by lia.
    now rewrite Z.mod_add by lia.
  - now rewrite Z.mod_mod by lia.
Qed.

Lemma ToInt32_idem x : ToInt32 (ToInt32 x) = ToInt32 x.
Proof. unfold ToInt32 at 1. now rewrite ToInt32_mod. Qed.

Lemma ToInt32_eq x y : x mod 2 ^ 32 = y mod 2 ^ 32 -> ToInt32 x = ToInt32 y.
Proof. unfold ToInt32. now intros ->. Qed.

Lemma isInt32_mod_inj x y :
  isInt32 x -> isInt32 y -> x mod 2 ^ 32 = y mod 2 ^ 32 -> x = y.
Proof.
  unfold isInt32. intros Hx Hy H. rewrite <- Hx, <- Hy. now apply ToInt32_eq.
Qed.

Lemma bitxor_isInt32 a b : isInt32 (bitxor a b).
Proof. apply ToInt32_idem. Qed.

Lemma imul_isInt32 a b : isInt32 (imul a b).
Proof. apply ToInt32_idem. Qed.

Lemma lxor_mod x y n :
  0 <= n -> Z.lxor x y mod 2 ^ n = Z.lxor (x mod 2 ^ n) (y mod 2 ^ n).
Proof.
  intros Hn. apply Z.bits_inj'. intros i Hi.
  rewrite Z.lxor_spec.
  destruct (Z.lt_ge_cases i n) as [L|G].
  - now rewrite !Z.mod_pow2_bits_low, Z.lxor_spec by lia.
  - now rewrite !Z.mod_pow2_bits_high by lia.
Qed.

Lemma bitxor_mod a b :
  bitxor a b mod 2 ^ 32 = Z.lxor (a mod 2 ^ 32) (b mod 2 ^ 32).
Proof.
  unfold bitxor. rewrite ToInt32_mod, lxor_mod by lia.
  now rewrite !ToInt32_mod.
Qed.

Lemma lxor_cancel_r x y c : Z.lxor x c = Z.lxor y c -> x = y.
Proof.
  intros H.
  assert (E : forall z, z = Z.lxor (Z.lxor z c) c).
  { intros z. now rewrite Z.lxor_assoc, Z.lxor_nilpotent, Z.lxor_0_r. }
  now rewrite (E x), (E y), H.
Qed.

Lemma lxor_cancel_l x y c : Z.lxor c x = Z.lxor c y -> x = y.
Proof. rewrite !(Z.lxor_comm c). apply lxor_cancel_r. Qed.

(** [h ^ ch] is one-to-one in [h] and in [ch]. *)
Lemma bitxor_inj_l a b c :
  isInt32 a -> isInt32 b -> bitxor a c = bitxor b c -> a = b.
Proof.
  intros Ha Hb H. apply isInt32_mod_inj; [assumption..|].
  apply (f_equal (fun x => x mod 2 ^ 32)) in H. rewrite !bitxor_mod in H.
  now apply lxor_cancel_r in H.
Qed.

Lemma bitxor_inj_r h a b :
  bitxor h a = bitxor h b -> a mod 2 ^ 32 = b mod 2 ^ 32.
Proof.
  intros H. apply (f_equal (fun x => x mod 2 ^ 32)) in H.
  rewrite !bitxor_mod in H. now apply lxor_cancel_l in H.
Qed.

Lemma imul_mod a b : imul a b mod 2 ^ 32 = (a * b) mod 2 ^ 32.
Proof.
  unfold imul, ToUint32. rewrite ToInt32_mod. now rewrite <- Z.mul_mod by lia.
Qed.

(** [Math.imul(h, c)] is one-to-one in [h] when [c] is odd: [c] has an
    inverse modulo [2^32]. *)
Lemma imul_inj c inverse a b :
  (c * inverse) mod 2 ^ 32 = 1 ->
  isInt32 a -> isInt32 b -> imul a c = imul b c -> a = b.
Proof.
  intros Hc Ha Hb H. apply isInt32_mod_inj; [assumption..|].
  apply (f_equal (fun x => x mod 2 ^ 32)) in H. rewrite !imul_mod in H.
  assert (E : forall x, x mod 2 ^ 32 = ((x * c) mod 2 ^ 32 * inverse) mod 2 ^ 32).
  { intros x. rewrite Z.mul_mod_idemp_l by lia.
    rewrite <- Z.mul_assoc, <- Z.mul_mod_idemp_r, Hc by lia. now rewrite Z.mul_1_r. }
  now rewrite (E a), (E b), H.
Qed.

(** [h ^ (h >>> k)] is one-to-one: the top [k] bits of [h] are those of the
    result, and every other bit follows from the bits above it. *)
Lemma xorshift_bits u k i :
  0 <= u < 2 ^ 32 -> 0 < k < 32 -> 0 <= i ->
  Z.testbit (Z.lxor u (Z.shiftr u k)) i =
  xorb (Z.testbit u i) (Z.testbit u (i + k)).
Proof.
  intros Hu Hk Hi. now rewrite Z.lxor_spec, Z.shiftr_spec by lia.
Qed.

Lemma testbit_high u i : 0 <= u < 2 ^ 32 -> 32 <= i -> Z.testbit u i = false.
Proof.
  intros Hu Hi. destruct (Z.eq_dec u 0) as [->|Hn]; [apply Z.bits_0|].
  apply Z.bits_above_log2; [lia|].
  assert (Z.log2 u < 32) by (apply Z.log2_lt_pow2; lia). lia.
Qed.

Lemma xorshift_inj u v k :
  0 <= u < 2 ^ 32 -> 0 <= v < 2 ^ 32 -> 0 < k < 32 ->
  Z.lxor u (Z.shiftr u k) = Z.lxor v (Z.shiftr v k) -> u = v.
Proof.
  intros Hu Hv Hk H.
  assert (B : forall n i, 0 <= i -> 32 - i <= Z.of_nat n ->
                          Z.testbit u i = Z.testbit v i).
  { induction n as [|n IH]; intros i Hi Hn.
    - now rewrite !testbit_high by lia.
    - pose proof (xorshift_bits u k i Hu Hk Hi) as Eu.
      pose proof (xorshift_bits v k i Hv Hk Hi) as Ev.
      rewrite H, Ev in Eu.
      rewrite (IH (i + k)) in Eu by lia.
      destruct (Z.testbit u i), (Z.testbit v i), (Z.testbit v (i + k));
        try reflexivity; discriminate. }
  apply Z.bits_inj'. intros i Hi. apply (B 32%nat); lia.
Qed.

Lemma ushr_mod h k :
  0 <= k < 32 -> ushr h k = Z.shiftr (h mod 2 ^ 32) k.
Proof.
  intros Hk. unfold ushr, ToUint32.
  now rewrite (Z.mod_small k (2 ^ 32)), (Z.mod_small k 32) by lia.
Qed.

Lemma shiftr_range u k : 0 <= u < 2 ^ 32 -> 0 <= k -> 0 <= Z.shiftr u k < 2 ^ 32.
Proof.
  intros Hu Hk. rewrite Z.shiftr_div_pow2 by lia. split.
  - apply Z.div_pos; lia.
  - apply Z.le_lt_trans with u; [|lia].
    apply Z.div_le_upper_bound; [lia|]. nia.
Qed.

Lemma xorshift_inj32 a b k :
  0 < k < 32 -> isInt32 a -> isInt32 b ->
  bitxor a (ushr a k) = bitxor b (ushr b k) -> a = b.
Proof.
  intros Hk Ha Hb H. apply isInt32_mod_inj; [assumption..|].
  apply (f_equal (fun x => x mod 2 ^ 32)) in H.
  rewrite !bitxor_mod, !ushr_mod in H by lia.
  pose proof (Z.mod_pos_bound a (2 ^ 32) ltac:(lia)) as Ra.
  pose proof (Z.mod_pos_bound b (2 ^ 32) ltac:(lia)) as Rb.
  rewrite !(Z.mod_small (Z.shiftr _ k)) in H by (apply shiftr_range; lia).
  now apply xorshift_inj in H.
Qed.

(** One round is one-to-one on the pair of accumulators. *)
Lemma mix_inj h g ch :
  isInt32 (fst h) -> isInt32 (snd h) -> isInt32 (fst g) -> isInt32 (snd g) ->
  mix h ch = mix g ch -> h = g.
Proof.
  destruct h as [h1 h2], g as [g1 g2]. cbn [fst snd]. unfold mix. cbn [fst snd].
  intros A1 A2 B1 B2 [= E1 E2].
  apply (imul_inj _ 244002641) in E1;
    [|reflexivity|apply bitxor_isInt32..].
  apply (imul_inj _ 851723965) in E2;
    [|reflexivity|apply bitxor_isInt32..].
  apply bitxor_inj_l in E1; [|assumption..].
  apply bitxor_inj_l in E2; [|assumption..].
  congruence.
Qed.

Lemma mix_isInt32 h ch : isInt32 (fst (mix h ch)) /\ isInt32 (snd (mix h ch)).
Proof. split; apply imul_isInt32. Qed.

Lemma fold_mix_isInt32 s : forall h,
  isInt32 (fst h) /\ isInt32 (snd h) ->
  isInt32 (fst (fold_left mix s h)) /\ isInt32 (snd (fold_left mix s h)).
Proof.
  induction s as [|c s IH]; intros h Hh; [exact Hh|].
  cbn [fold_left]. apply IH, mix_isInt32.
Qed.

Lemma fold_mix_inj s : forall h g,
  isInt32 (fst h) /\ isInt32 (snd h) ->
  isInt32 (fst g) /\ isInt32 (snd g) ->
  fold_left mix s h = fold_left mix s g -> h = g.
Proof.
  induction s as [|c s IH]; intros h g Hh Hg E; [exact E|].
  cbn [fold_left] in E. apply IH in E; try apply mix_isInt32.
  destruct Hh, Hg. now apply mix_inj in E.
Qed.

(** The last pass is one-to-one on the pair of accumulators. *)
Lemma finalize2_inj h g :
  isInt32 (fst h) /\ isInt32 (snd h) ->
  isInt32 (fst g) /\ isInt32 (snd g) ->
  finalize2 h = finalize2 g -> h = g.
Proof.
  destruct h as [h1 h2], g as [g1 g2]. cbn [fst snd]. unfold finalize2. cbn [fst snd].
  intros [A1 A2] [B1 B2] [= E1 E2].
  rewrite E1 in E2.
  apply bitxor_inj_l in E2; [|apply imul_isInt32..].
  apply (imul_inj _ 2781581891) in E2; [|reflexivity|apply bitxor_isInt32..].
  apply xorshift_inj32 in E2; [|lia|assumption..].
  subst g2.
  apply bitxor_inj_l in E1; [|apply imul_isInt32..].
  apply (imul_inj _ 2781581891) in E1; [|reflexivity|apply bitxor_isInt32..].
  apply xorshift_inj32 in E1; [|lia|assumption..].
  now subst.
Qed.

(** ** Reading a lane back *)

Lemma hexDigitValue_hexDigit d : 0 <= d < 16 -> hexDigitValue (hexDigit d) = d.
Proof.
  intros Hd. unfold hexDigit, hexDigitValue.
  destruct (d <? 10) eqn:E; [apply Z.ltb_lt in E | apply Z.ltb_ge in E].
  - replace (48 + d <? 58) with true by (symmetry; apply Z.ltb_lt; lia). lia.
  - replace (87 + d <? 58) with false by (symmetry; apply Z.ltb_ge; lia). lia.
Qed.

Lemma parseHex_snoc s d : parseHex (s ++ [d]) = parseHex s * 16 + hexDigitValue d.
Proof. unfold parseHex. now rewrite fold_left_app. Qed.

Lemma parseHex_toString16 n : 0 <= n -> parseHex (toString16 n) = n.
Proof.
  induction n as [n IH] using (well_founded_induction (Z.lt_wf 0)). intros Hn.
  rewrite toString16_digits by lia.
  destruct (n <? 16) eqn:E; [apply Z.ltb_lt in E | apply Z.ltb_ge in E].
  - unfold parseHex. cbn [fold_left]. rewrite hexDigitValue_hexDigit; lia.
  - rewrite parseHex_snoc, hexDigitValue_hexDigit
      by (apply Z.mod_pos_bound; lia).
    rewrite IH.
    + pose proof (Z.div_mod n 16). lia.
    + split; [apply Z.div_pos; lia|]. apply Z.div_lt; lia.
    + apply Z.div_pos; lia.
Qed.

Lemma parseHex_zeros k s : parseHex (repeat 48 k ++ s) = parseHex s.
Proof.
  unfold parseHex. rewrite fold_left_app. f_equal.
  induction k as [|k IH]; [reflexivity|]. exact IH.
Qed.

Lemma parseHex_lane h : parseHex (lane h) = h mod 2 ^ 32.
Proof.
  unfold lane, padStart. rewrite parseHex_zeros, parseHex_toString16.
  - unfold ushr, ToUint32. now rewrite Z.shiftr_0_r.
  - apply ushr0_range.
Qed.

Lemma lane_inj h g : isInt32 h -> isInt32 g -> lane h = lane g -> h = g.
Proof.
  intros Hh Hg E. apply isInt32_mod_inj; [assumption..|].
  now rewrite <- !parseHex_lane, E.
Qed.

Lemma app_inj_length {A} (a c b d : list A) :
  length a = length c -> a ++ b = c ++ d -> a = c /\ b = d.
Proof.
  revert c. induction a as [|x a IH]; intros [|y c] L E; try discriminate.
  - now split.
  - injection E as -> E. injection L as L. destruct (IH _ L E) as [-> ->].
    now split.
Qed.

Lemma seeds_isInt32 s : isInt32 (fst (seeds s)) /\ isInt32 (snd (seeds s)).
Proof. split; apply bitxor_isInt32. Qed.

Lemma finalize2_isInt32 h :
  isInt32 (fst (finalize2 h)) /\ isInt32 (snd (finalize2 h)).
Proof. split; apply bitxor_isInt32. Qed.

(** Two strings of the same length have the same digest only when they
    leave the same pair of accumulators. *)
Lemma stableHashString_state s1 s2 :
  length s1 = length s2 ->
  stableHashString s1 = stableHashString s2 ->
  fold_left mix s1 (seeds s1) = fold_left mix s2 (seeds s1).
Proof.
  intros L E. rewrite !stableHashString_lanes in E.
  assert (S : seeds s2 = seeds s1) by (unfold seeds; rewrite L; reflexivity).
  rewrite S in E.
  set (f1 := fold_left mix s1 (seeds s1)) in *.
  set (f2 := fold_left mix s2 (seeds s1)) in *.
  assert (I1 : isInt32 (fst f1) /\ isInt32 (snd f1))
    by (apply fold_mix_isInt32, seeds_isInt32).
  assert (I2 : isInt32 (fst f2) /\ isInt32 (snd f2))
    by (apply fold_mix_isInt32, seeds_isInt32).
  clearbody f1 f2.
  destruct (finalize2_isInt32 f1) as [A1 A2].
  destruct (finalize2_isInt32 f2) as [B1 B2].
  apply app_inj_length in E as [E1 E2];
    [|unfold lane; rewrite !lane_length; reflexivity].
  apply (lane_inj _ _ A1 B1) in E1.
  apply (lane_inj _ _ A2 B2) in E2.
  apply (finalize2_inj _ _ I1 I2).
  destruct (finalize2 f1), (finalize2 f2). cbn [fst snd] in E1, E2.
  now subst.
Qed.

(** X1: two strings that differ in one code unit and in nothing else never
    have the same digest. *)
Theorem stableHash_one_code_unit (pre post : jsstring) (a b : Z) :
  0 <= a < 2 ^ 16 -> 0 <= b < 2 ^ 16 -> a <> b ->
  str_eqb (stableHashString (pre ++ a :: post))
          (stableHashString (pre ++ b :: post)) = false.
Proof.
  intros Ha Hb Hab. apply str_eqb_neq. intros E. apply Hab.
  apply stableHashString_state in E;
    [|rewrite !length_app; reflexivity].
  rewrite !fold_left_app in E. cbn [fold_left] in E.
  set (h := fold_left mix pre _) in E.
  assert (Hh : isInt32 (fst h) /\ isInt32 (snd h))
    by apply fold_mix_isInt32, seeds_isInt32.
  apply fold_mix_inj in E; try apply mix_isInt32.
  unfold mix in E. injection E as E _.
  apply (imul_inj _ 244002641) in E; [|reflexivity|apply bitxor_isInt32..].
  apply bitxor_inj_r in E.
  rewrite !Z.mod_small in E by lia. exact E.
Qed.

Lemma stableHash_one_code_unit_witness :
  str_eqb (stableHashString (lit "cat")) (stableHashString (lit "cot")) = false.
Proof.
  change (lit "cat") with (lit "c" ++ 97 :: lit "t").
  change (lit "cot") with (lit "c" ++ 111 :: lit "t").
  apply stableHash_one_code_unit; lia.
Defined.

Lemma firstn_skipn_app {A} (a b : list A) :
  firstn (length a) (a ++ b) = a /\ skipn (length a) (a ++ b) = b.
Proof.
  induction a as [|x a [IH1 IH2]]; [now split|]. cbn. now rewrite IH1, IH2.
Qed.

(** X2: the digest loses nothing of the two accumulators: its first eight
    characters, read as a hexadecimal numeral, are [h1 >>> 0], and its
    last eight are [h2 >>> 0]. *)
Theorem digest_reads_back (json : jsstring) :
  parseHex (firstn 8 (stableHashString json)) =
    ushr (fst (finalize2 (fold_left mix json (seeds json)))) 0 /\
  parseHex (skipn 8 (stableHashString json)) =
    ushr (snd (finalize2 (fold_left mix json (seeds json)))) 0.
Proof.
  rewrite stableHashString_lanes.
  set (h := finalize2 (fold_left mix json (seeds json))).
  assert (L : length (lane (fst h)) = 8%nat) by apply lane_length.
  destruct (firstn_skipn_app (lane (fst h)) (lane (snd h))) as [E1 E2].
  rewrite L in E1, E2. rewrite E1, E2, !parseHex_lane.
  unfold ushr, ToUint32.
  change ((0 mod 2 ^ 32) mod 32) with 0. rewrite !Z.shiftr_0_r.
  split; reflexivity.
Qed.

(** ** [normalizeString] *)

Lemma trimStart_whitespace pre s :
  forallb isWhiteSpace pre = true -> trimStart (pre ++ s) = trimStart s.
Proof.
  induction pre as [|c pre IH]; cbn; [reflexivity|]. intros H.
  apply andb_true_iff in H as [Hc H]. rewrite Hc. now apply IH.
Qed.

Lemma trimStart_app s post :
  trimStart s <> [] -> trimStart (s ++ post) = trimStart s ++ post.
Proof.
  induction s as [|c s IH]; cbn; [contradiction|].
  destruct (isWhiteSpace c); [exact IH | reflexivity].
Qed.

Lemma trimStart_all_whitespace s post :
  forallb isWhiteSpace post = true -> trimStart s = [] -> trimStart (s ++ post) = [].
Proof.
  intros Hp. induction s as [|c s IH]; cbn.
  - intros _. rewrite <- (app_nil_r post). now rewrite trimStart_whitespace.
  - destruct (isWhiteSpace c); [exact IH | discriminate].
Qed.

Lemma forallb_of_rev {A} (f : A -> bool) l : forallb f (rev l) = forallb f l.
Proof.
  induction l as [|x l IH]; [reflexivity|]. cbn.
  rewrite forallb_app, IH. cbn. rewrite andb_true_r. apply andb_comm.
Qed.

Lemma trim_padding pre s post :
  forallb isWhiteSpace pre = true -> forallb isWhiteSpace post = true ->
  trim (pre ++ s ++ post) = trim s.
Proof.
  intros Hpre Hpost. unfold trim. rewrite trimStart_whitespace by exact Hpre.
  destruct (trimStart s) as [|c t] eqn:E.
  - now rewrite trimStart_all_whitespace.
  - rewrite trimStart_app by (rewrite E; discriminate). rewrite E.
    rewrite rev_app_distr, trimStart_whitespace; [reflexivity|].
    now rewrite forallb_of_rev.
Qed.

Section NormalizeString.

Context {R : Runtime}.

(** X3: white space around a string does not count: a string that is not
    empty and the same string with white space before and after it are
    normalized to the same result. *)
Theorem normalizeString_ignores_padding (pre s post : jsstring) :
  forallb isWhiteSpace pre = true -> forallb isWhiteSpace post = true ->
  s <> [] ->
  normalizeString (Some (pre ++ s ++ post)) = normalizeString (Some s).
Proof.
  intros Hpre Hpost Hs. unfold normalizeString.
  rewrite (trim_padding pre s post Hpre Hpost).
  destruct s as [|c s]; [contradiction|].
  destruct (pre ++ (c :: s) ++ post) as [|d r] eqn:E; [|reflexivity].
  apply app_eq_nil in E as [_ E]. discriminate E.
Qed.

End NormalizeString.

Lemma normalizeString_ignores_padding_witness :
  @normalizeString Sample.engine (Some (lit "  " ++ lit "Apple Inc." ++ lit " ")) =
  @normalizeString Sample.engine (Some (lit "Apple Inc.")).
Proof.
  apply (@normalizeString_ignores_padding Sample.engine); [reflexivity..|discriminate].
Defined.

(** ** [includes] and [excludes] *)

Lemma strictEquals_nan x p : is_nan x = true -> Data.strictEquals p (Data.PNum x) = false.
Proof.
  intros Hx. destruct p as [| |b|y|s]; try reflexivity. cbn.
  rewrite eqb_spec. unfold SFeqb. rewrite SFcompare_floatKey.
  apply is_nan_floatKey in Hx. rewrite Hx.
  now destruct (floatKey (Prim2SF y)).
Qed.

(** X10: [includes] finds a needle exactly when an element is [===] to it;
    it never finds NaN, and [excludes] is true of NaN whatever the
    haystack holds. *)
Theorem includes_strict_equality :
  (forall haystack needle,
      Data.includes haystack needle = true <->
      exists x, In x haystack /\ Data.strictEquals x needle = true) /\
  (forall haystack x,
      is_nan x = true ->
      Data.includes haystack (Data.PNum x) = false /\
      Data.excludes haystack (Data.PNum x) = true) /\
  (forall haystack,
      In (Data.PNum 0%float) haystack ->
      Data.includes haystack (Data.PNum (-0)%float) = true).
Proof.
  assert (Hin : forall haystack needle,
             Data.includes haystack needle = true <->
             exists x, In x haystack /\ Data.strictEquals x needle = true).
  { induction haystack as [|y h IH]; intros needle; cbn.
    - split; [discriminate | intros (x & [] & _)].
    - destruct (Data.strictEquals y needle) eqn:E.
      + split; [|reflexivity]. intros _. exists y. auto.
      + rewrite IH. split.
        * intros (x & Hx & Hs). exists x. auto.
        * intros (x & [<-|Hx] & Hs); [congruence|]. exists x. auto. }
  split; [exact Hin|]. split.
  - intros haystack x Hx.
    assert (E : Data.includes haystack (Data.PNum x) = false).
    { apply not_true_is_false. intros H. apply Hin in H as (p & _ & Hp).
      now rewrite strictEquals_nan in Hp. }
    unfold Data.excludes. now rewrite E.
  - intros haystack H. apply Hin. exists (Data.PNum 0%float).
    split; [exact H | reflexivity].
Qed.

(** ** [countTruthy] *)

Lemma countTruthy_from values : forall sum,
  fold_left (fun sum v => sum + (if Data.ToBoolean v then 1 else 0)) values sum =
  sum + Z.of_nat (length (filter Data.ToBoolean values)).
Proof.
  induction values as [|v values IH]; intros sum; cbn [fold_left filter].
  - cbn. lia.
  - rewrite IH. destruct (Data.ToBoolean v); cbn [length]; lia.
Qed.

(** X11: [countTruthy] is the number of the values that are truthy: it
    lies between 0 and the length, adds up over a concatenation, and the
    values that do not count are [undefined], [null], [false], the numbers
    [0], [-0] and NaN, the BigInt [0n], the empty string, and an object
    with the internal slot [[IsHTMLDDA]], which is [document.all]; every
    other value, of whatever type, counts. *)
Theorem countTruthy_counts :
  (forall values,
      Data.countTruthy values = Z.of_nat (length (filter Data.ToBoolean values)) /\
      0 <= Data.countTruthy values <= Z.of_nat (length values)) /\
  (forall a b, Data.countTruthy (a ++ b) = Data.countTruthy a + Data.countTruthy b) /\
  (forall v,
      Data.countTruthy [v] = 0 <->
      v = Data.UUndefined \/ v = Data.UNull \/ v = Data.UBool false \/
      v = Data.UBigInt 0 \/ v = Data.UStr [] \/ v = Data.UObject true \/
      exists x, v = Data.UNum x /\ ((x =? 0)%float = true \/ is_nan x = true)) /\
  (forall v, Data.countTruthy [v] = 0 \/ Data.countTruthy [v] = 1).
Proof.
  assert (E : forall values,
             Data.countTruthy values =
             Z.of_nat (length (filter Data.ToBoolean values))).
  { intros values. unfold Data.countTruthy. now rewrite countTruthy_from. }
  split; [|split; [|split]].
  - intros values. split; [apply E|]. rewrite E.
    pose proof (filter_length_le Data.ToBoolean values). lia.
  - intros a b. rewrite !E, filter_app, length_app. lia.
  - intros v. rewrite E. cbn [filter].
    destruct v as [| |b|x|n|s| |h]; cbn [Data.ToBoolean].
    + split; [auto|reflexivity].
    + split; [auto|reflexivity].
    + destruct b; cbn; split; try discriminate; auto.
      intros [H|[H|[H|[H|[H|[H|(x & H & _)]]]]]]; discriminate.
    + destruct ((x =? 0)%float || is_nan x) eqn:F; cbn.
      * split; [|reflexivity]. intros _. do 6 right. exists x. split; [reflexivity|].
        now apply orb_true_iff in F.
      * split; [discriminate|].
        intros [H|[H|[H|[H|[H|[H|(y & [= <-] & H)]]]]]]; try discriminate.
        apply orb_true_iff in H. congruence.
    + destruct (n =? 0) eqn:F; cbn.
      * apply Z.eqb_eq in F. subst n. split; [auto 6|reflexivity].
      * apply Z.eqb_neq in F. split; [discriminate|].
        intros [H|[H|[H|[H|[H|[H|(x & H & _)]]]]]]; try discriminate.
        injection H as ->. contradiction.
    + destruct s; cbn; split; try discriminate; auto 6.
      intros [H|[H|[H|[H|[H|[H|(x & H & _)]]]]]]; discriminate.
    + cbn. split; [discriminate|].
      intros [H|[H|[H|[H|[H|[H|(x & H & _)]]]]]]; discriminate.
    + destruct h; cbn; split; try discriminate; auto 7.
      intros [H|[H|[H|[H|[H|[H|(x & H & _)]]]]]]; discriminate.
  - intros v. rewrite E. cbn [filter]. destruct (Data.ToBoolean v); cbn; auto.
Qed.

(** ** [areSetsEqual] *)

Section SetProperties.

Context {A : Type} (sameValue : A -> A -> bool).

Hypothesis sameValue_eq : forall x y, sameValue x y = true <-> x = y.

Lemma has_In (s : list A) x : Data.has sameValue s x = true <-> In x s.
Proof.
  unfold Data.has. rewrite existsb_exists. split.
  - intros (y & Hy & E). apply sameValue_eq in E. now subst.
  - intros H. exists x. split; [exact H|]. now apply sameValue_eq.
Qed.

Lemma allIn_incl (items set2 : list A) :
  Data.allIn sameValue items set2 = true <-> incl items set2.
Proof.
  induction items as [|x items IH]; cbn [Data.allIn].
  - split; [intros _ y [] | reflexivity].
  - destruct (Data.has sameValue set2 x) eqn:E; cbn [negb].
    + apply has_In in E. rewrite IH. split.
      * intros H y [<-|Hy]; auto.
      * intros H y Hy. apply H. now right.
    + split; [discriminate|]. intros H.
      assert (In x set2) by (apply H; now left).
      apply has_In in H0. congruence.
Qed.

(** X12: for two sets, [areSetsEqual] is true exactly when they have the
    same elements, whatever the order of insertion; the test [set1 ===
    set2] only saves the loop. *)
Theorem areSetsEqual_same_elements (set1 set2 : list A) :
  NoDup set1 -> NoDup set2 ->
  (Data.areSetsEqual sameValue false set1 set2 = true <->
   forall x, In x set1 <-> In x set2) /\
  Data.areSetsEqual sameValue false set1 set2 =
  Data.areSetsEqual sameValue false set2 set1 /\
  Data.areSetsEqual sameValue false set1 set1 =
  Data.areSetsEqual sameValue true set1 set1.
Proof.
  intros N1 N2.
  assert (E : forall s1 s2 : list A, NoDup s1 -> NoDup s2 ->
             (Data.areSetsEqual sameValue false s1 s2 = true <->
              forall x, In x s1 <-> In x s2)).
  { intros s1 s2 M1 M2. unfold Data.areSetsEqual, Data.size.
    destruct (Nat.eqb (length s1) (length s2)) eqn:L; cbn [negb].
    - apply Nat.eqb_eq in L. rewrite allIn_incl. split.
      + intros H x. split; [apply H|].
        apply (NoDup_length_incl M1); [lia | exact H].
      + intros H x Hx. now apply H.
    - apply Nat.eqb_neq in L. split; [discriminate|]. intros H. destruct L.
      apply Nat.le_antisymm; apply NoDup_incl_length; try assumption;
        intros x Hx; now apply H. }
  split; [now apply E|]. split.
  - pose proof (E set1 set2 N1 N2) as E12. pose proof (E set2 set1 N2 N1) as E21.
    destruct (Data.areSetsEqual sameValue false set1 set2),
             (Data.areSetsEqual sameValue false set2 set1); try reflexivity.
    + symmetry. apply E21. intros x. symmetry. now apply E12.
    + apply E12. intros x. symmetry. now apply E21.
  - cbn. apply E; [assumption..|]. tauto.
Qed.

End SetProperties.

Lemma areSetsEqual_same_elements_witness :
  (Data.areSetsEqual str_eqb false [lit "a"; lit "b"] [lit "b"; lit "a"] = true <->
   forall x, In x [lit "a"; lit "b"] <-> In x [lit "b"; lit "a"]) /\
  Data.areSetsEqual str_eqb false [lit "a"; lit "b"] [lit "b"; lit "a"] =
  Data.areSetsEqual str_eqb false [lit "b"; lit "a"] [lit "a"; lit "b"] /\
  Data.areSetsEqual str_eqb false [lit "a"; lit "b"] [lit "a"; lit "b"] =
  Data.areSetsEqual str_eqb true [lit "a"; lit "b"] [lit "a"; lit "b"].
Proof.
  apply (areSetsEqual_same_elements str_eqb str_eqb_eq).
  - repeat constructor; cbn; intuition discriminate.
  - repeat constructor; cbn; intuition discriminate.
Defined.

(** ** [maxInIterator] *)

Section MaxProperties.

Context {T : Type} (undefined : T) (getItemScore : T -> float).

Lemma maxStep_bestSoFar seen st item :
  bestSoFar getItemScore seen st ->
  bestSoFar getItemScore (seen ++ [item]) (Data.maxStep getItemScore st item).
Proof.
  destruct st as [m [score|]]; unfold bestSoFar, Data.maxStep; cbn.
  - intros (-> & Hin & Hmax).
    destruct (getItemScore m <? getItemScore item)%float eqn:E; cbn.
    + split; [reflexivity|]. split; [apply in_or_app; right; now left|].
      intros x Hx. apply in_app_or in Hx as [Hx|[<-|[]]].
      * destruct (getItemScore item <? getItemScore x)%float eqn:F; [|reflexivity].
        rewrite <- (Hmax x Hx). symmetry. eapply float_ltb_trans; eassumption.
      * apply float_ltb_irrefl.
    + split; [reflexivity|]. split; [apply in_or_app; now left|].
      intros x Hx. apply in_app_or in Hx as [Hx|[<-|[]]]; auto.
  - intros ->. cbn. split; [reflexivity|]. split; [now left|].
    intros x [<-|[]].
    apply float_ltb_irrefl.
Qed.

Lemma fold_maxStep_bestSoFar items : forall seen st,
  bestSoFar getItemScore seen st ->
  bestSoFar getItemScore (seen ++ items)
             (fold_left (Data.maxStep getItemScore) items st).
Proof.
  induction items as [|item items IH]; intros seen st H; cbn [fold_left].
  - now rewrite app_nil_r.
  - replace (seen ++ item :: items) with ((seen ++ [item]) ++ items)
      by now rewrite <- app_assoc.
    apply IH, maxStep_bestSoFar, H.
Qed.

Lemma fold_maxStep_nan items : forall m score,
  is_nan score = true ->
  fold_left (Data.maxStep getItemScore) items (m, Some score) = (m, Some score).
Proof.
  induction items as [|item items IH]; intros m score H; cbn [fold_left];
    [reflexivity|].
  assert (E : Data.maxStep getItemScore (m, Some score) item = (m, Some score))
    by (unfold Data.maxStep; cbn [snd]; now rewrite (float_ltb_nan_l _ _ H)).
  rewrite E. now apply IH.
Qed.

(** X13: for an iterator that yields nothing [maxInIterator] returns
    [undefined]; otherwise it returns one of the items, which may be
    [undefined] itself, and no item has a score above the score of that
    one.  So it returns [undefined] only when there is no item or
    [undefined] is an item.  When the score of the first item is NaN the
    first item is returned, whatever follows. *)
Theorem maxInIterator_maximum :
  Data.maxInIterator undefined getItemScore [] = undefined /\
  (forall items,
      items <> [] ->
      In (Data.maxInIterator undefined getItemScore items) items /\
      forall x, In x items ->
        (getItemScore (Data.maxInIterator undefined getItemScore items)
         <? getItemScore x)%float = false) /\
  (forall items,
      Data.maxInIterator undefined getItemScore items = undefined ->
      items = [] \/ In undefined items) /\
  (forall first rest,
      is_nan (getItemScore first) = true ->
      Data.maxInIterator undefined getItemScore (first :: rest) = first).
Proof.
  assert (B : forall items,
             bestSoFar getItemScore items
               (fold_left (Data.maxStep getItemScore) items (undefined, None))).
  { intros items. apply (fold_maxStep_bestSoFar items [] (undefined, None)).
    reflexivity. }
  assert (M : forall items,
             items <> [] ->
             In (Data.maxInIterator undefined getItemScore items) items /\
             forall x, In x items ->
               (getItemScore (Data.maxInIterator undefined getItemScore items)
                <? getItemScore x)%float = false).
  { intros items Hne. specialize (B items). unfold Data.maxInIterator.
    unfold bestSoFar in B.
    destruct (snd (fold_left _ items (undefined, None))) as [score|];
      [|contradiction].
    destruct B as (_ & Hin & Hmax). now split. }
  split; [reflexivity|]. split; [exact M|]. split.
  - intros items H. destruct items as [|item items]; [now left|]. right.
    rewrite <- H. apply M. discriminate.
  - intros first rest H. unfold Data.maxInIterator. cbn [fold_left].
    assert (E : Data.maxStep getItemScore (undefined, None) first =
                (first, Some (getItemScore first))) by reflexivity.
    rewrite E. now rewrite fold_maxStep_nan.
Qed.

End MaxProperties.

(** ** [getUTF8Bytes] *)

Lemma getUTF8Bytes_from_ascii rest : forall input result,
  Forall (fun c => c <= 127) rest ->
  Data.getUTF8Bytes_from input rest result = result ++ rest.
Proof.
  induction rest as [|c rest IH]; intros input result H; cbn.
  - now rewrite app_nil_r.
  - apply Forall_cons_iff in H as [Hc H].
    replace (127 <? c) with false by (symmetry; apply Z.ltb_ge; lia).
    rewrite IH by exact H. now rewrite <- app_assoc.
Qed.

Lemma TextEncoder_encode_ascii input :
  Forall (fun c => c <= 127) input -> Data.TextEncoder_encode input = input.
Proof.
  induction 1 as [|c rest Hc _ IH]; [reflexivity|]. cbn [Data.TextEncoder_encode].
  unfold isHighSurrogate, isLowSurrogate.
  replace (0xD800 <=? c) with false by (symmetry; apply Z.leb_gt; lia).
  replace (0xDC00 <=? c) with false by (symmetry; apply Z.leb_gt; lia).
  cbn [andb]. unfold Data.utf8.
  replace (c <? 0x80) with true by (symmetry; apply Z.ltb_lt; lia).
  cbn [app]. now rewrite IH.
Qed.

Lemma getUTF8Bytes_from_encoder rest : forall input result,
  Exists (fun c => 127 < c) rest ->
  Data.getUTF8Bytes_from input rest result = Data.TextEncoder_encode input.
Proof.
  induction rest as [|c rest IH]; intros input result H; cbn.
  - inversion H.
  - destruct (127 <? c) eqn:E; [reflexivity|]. apply Z.ltb_ge in E.
    apply IH. inversion H; subst; [lia | assumption].
Qed.

Lemma ascii_or_not (s : jsstring) :
  Forall (fun c => c <= 127) s \/ Exists (fun c => 127 < c) s.
Proof.
  induction s as [|c s [IH|IH]].
  - left. constructor.
  - destruct (Z_le_gt_dec c 127).
    + left. now constructor.
    + right. left. lia.
  - right. now right.
Qed.

Lemma log2_byte a : 0 <= a < 256 -> Z.log2 a < 8.
Proof.
  intros Ha. destruct (Z.eq_dec a 0) as [->|N]; [cbn; lia|].
  apply Z.log2_lt_pow2; lia.
Qed.

Lemma lor_byte a b : 0 <= a < 256 -> 0 <= b < 256 -> isByte (Z.lor a b).
Proof.
  intros Ha Hb. unfold isByte.
  assert (P : 0 <= Z.lor a b) by (apply Z.lor_nonneg; lia).
  split; [exact P|].
  destruct (Z.eq_dec (Z.lor a b) 0) as [E|N]; [rewrite E; lia|].
  change 256 with (2 ^ 8). apply Z.log2_lt_pow2; [lia|].
  rewrite Z.log2_lor by lia. apply Z.max_lub_lt; now apply log2_byte.
Qed.

Lemma land_3F x : 0 <= x -> 0 <= Z.land x 0x3F < 64.
Proof.
  intros Hx. change 0x3F with (Z.ones 6). rewrite Z.land_ones by lia.
  apply Z.mod_pos_bound. lia.
Qed.

Lemma shiftr_lt x k m :
  0 <= x < m * 2 ^ k -> 0 <= k -> 0 <= Z.shiftr x k < m.
Proof.
  intros Hx Hk. rewrite Z.shiftr_div_pow2 by lia. split.
  - apply Z.div_pos; lia.
  - apply Z.div_lt_upper_bound; lia.
Qed.

Ltac byte_bound :=
  match goal with
  | |- _ <= Z.land ?x _ < _ =>
      pose proof (land_3F x ltac:(try apply Z.shiftr_nonneg; lia)); lia
  | |- _ <= Z.shiftr ?x ?k < _ => apply (shiftr_lt x k 256); lia
  | |- _ => lia
  end.

Lemma utf8_bytes cp :
  0 <= cp < 0x110000 ->
  Forall isByte (Data.utf8 cp) /\ (1 <= length (Data.utf8 cp) <= 4)%nat.
Proof.
  intros Hcp. unfold Data.utf8.
  destruct (cp <? 0x80) eqn:E1; [apply Z.ltb_lt in E1 | apply Z.ltb_ge in E1].
  { split; [|cbn; lia]. repeat constructor; unfold isByte; lia. }
  destruct (cp <? 0x800) eqn:E2; [apply Z.ltb_lt in E2 | apply Z.ltb_ge in E2].
  { split; [|cbn; lia]. repeat constructor; apply lor_byte; byte_bound. }
  destruct (cp <? 0x10000) eqn:E3; [apply Z.ltb_lt in E3 | apply Z.ltb_ge in E3].
  { split; [|cbn; lia]. repeat constructor; apply lor_byte; byte_bound. }
  split; [|cbn; lia]. repeat constructor; apply lor_byte; byte_bound.
Qed.

Lemma utf8_unit c :
  isCodeUnit c -> (length (Data.utf8 c) <= 3)%nat.
Proof.
  unfold isCodeUnit, Data.utf8. intros Hc.
  destruct (c <? 0x80); [cbn; lia|]. destruct (c <? 0x800); [cbn; lia|].
  destruct (c <? 0x10000) eqn:E; [cbn; lia|]. apply Z.ltb_ge in E. lia.
Qed.

Lemma TextEncoder_encode_bytes input :
  Forall isCodeUnit input ->
  Forall isByte (Data.TextEncoder_encode input) /\
  (length input <= length (Data.TextEncoder_encode input) <= 3 * length input)%nat.
Proof.
  assert (G : forall n input, (length input <= n)%nat -> Forall isCodeUnit input ->
             Forall isByte (Data.TextEncoder_encode input) /\
             (length input <= length (Data.TextEncoder_encode input)
              <= 3 * length input)%nat).
  { clear input. induction n as [|n IH]; intros [|c rest] L H;
      try (cbn in L; lia); try (split; [constructor | cbn; lia]).
    apply Forall_cons_iff in H as [Hc H]. cbn [length] in L.
    pose proof (utf8_bytes 0xFFFD ltac:(lia)) as [BF LF].
    assert (L3 : length (Data.utf8 0xFFFD) = 3%nat) by reflexivity.
    cbn [Data.TextEncoder_encode].
    destruct (isHighSurrogate c) eqn:Hh.
    - destruct rest as [|d rest'].
      + split; [exact BF | cbn; lia].
      + destruct (isLowSurrogate d) eqn:Hl.
        * apply Forall_cons_iff in H as [Hd H]. cbn [length] in L.
          destruct (IH rest' ltac:(lia) H) as [B1 L1].
          unfold isHighSurrogate in Hh. unfold isLowSurrogate in Hl.
          apply andb_true_iff in Hh as [Hh1 Hh2]. apply andb_true_iff in Hl as [Hl1 Hl2].
          apply Z.leb_le in Hh1, Hh2, Hl1, Hl2.
          pose proof (utf8_bytes (0x10000 + (c - 0xD800) * 0x400 + (d - 0xDC00))
                        ltac:(lia)) as [BP LP].
          assert (L4 : length (Data.utf8 (0x10000 + (c - 0xD800) * 0x400 + (d - 0xDC00)))
                       = 4%nat).
          { unfold Data.utf8.
            replace (_ <? 0x80) with false by (symmetry; apply Z.ltb_ge; lia).
            replace (_ <? 0x800) with false by (symmetry; apply Z.ltb_ge; lia).
            replace (_ <? 0x10000) with false by (symmetry; apply Z.ltb_ge; lia).
            reflexivity. }
          split; [apply Forall_app; now split|].
          rewrite length_app, L4. cbn [length]. lia.
        * destruct (IH (d :: rest') ltac:(lia) H) as [B1 L1].
          split; [apply Forall_app; now split|].
          rewrite length_app, L3. cbn [length] in *. lia.
    - destruct (IH rest ltac:(lia) H) as [B1 L1].
      destruct (isLowSurrogate c).
      + split; [apply Forall_app; now split|].
        rewrite length_app, L3. cbn [length]. lia.
      + pose proof (utf8_bytes c ltac:(unfold isCodeUnit in Hc; lia)) as [BC LC].
        pose proof (utf8_unit c Hc).
        split; [apply Forall_app; now split|].
        rewrite length_app. cbn [length]. lia. }
  intros H. now apply (G (length input)).
Qed.

(** X14: [getUTF8Bytes] returns what the encoder returns for every input:
    the loop over the code units is a shortcut for the strings of code
    units below 128, whose bytes are the code units. The result holds
    bytes, at least one and at most three for every code unit. *)
Theorem getUTF8Bytes_is_the_encoding :
  (forall input, Data.getUTF8Bytes input = Data.TextEncoder_encode input) /\
  (forall input,
      Forall (fun c => c <= 127) input -> Data.getUTF8Bytes input = input) /\
  (forall input,
      Forall isCodeUnit input ->
      Forall isByte (Data.getUTF8Bytes input) /\
      (length input <= length (Data.getUTF8Bytes input) <= 3 * length input)%nat).
Proof.
  assert (E : forall input, Data.getUTF8Bytes input = Data.TextEncoder_encode input).
  { intros input. unfold Data.getUTF8Bytes.
    destruct (ascii_or_not input) as [H|H].
    - now rewrite getUTF8Bytes_from_ascii, TextEncoder_encode_ascii.
    - now apply getUTF8Bytes_from_encoder. }
  split; [exact E|]. split.
  - intros input H. unfold Data.getUTF8Bytes. now rewrite getUTF8Bytes_from_ascii.
  - intros input H. rewrite E. now apply TextEncoder_encode_bytes.
Qed.

(** ** [errorToObject] *)

Lemma split_nonempty sep s : Misc.split sep s <> [].
Proof.
  destruct s as [|c rest]; cbn; [discriminate|].
  destruct (c =? sep); [discriminate|].
  destruct (Misc.split sep rest); discriminate.
Qed.

Lemma joinWith_split sep s : joinWith sep (Misc.split sep s) = s.
Proof.
  induction s as [|c rest IH]; [reflexivity|]. cbn [Misc.split].
  destruct (c =? sep) eqn:E.
  - apply Z.eqb_eq in E. subst c.
    pose proof (split_nonempty sep rest) as N.
    destruct (Misc.split sep rest) as [|line lines]; [contradiction|].
    cbn [joinWith app]. cbn [joinWith] in IH. now rewrite IH.
  - pose proof (split_nonempty sep rest) as N.
    destruct (Misc.split sep rest) as [|line lines]; [contradiction|].
    destruct lines as [|line2 lines]; cbn [joinWith app] in *; now rewrite IH.
Qed.

Lemma split_lines sep s :
  Forall (fun line => ~ In sep line) (Misc.split sep s) /\
  length (Misc.split sep s) = S (length (filter (Z.eqb sep) s)).
Proof.
  induction s as [|c rest [IH1 IH2]]; cbn [Misc.split filter].
  - split; [repeat constructor; intros [] | reflexivity].
  - rewrite (Z.eqb_sym sep c). destruct (c =? sep) eqn:E.
    + split; [constructor; [intros []|exact IH1] | cbn [length]; now rewrite IH2].
    + apply Z.eqb_neq in E.
      destruct (Misc.split sep rest) as [|line lines]; [discriminate|].
      apply Forall_cons_iff in IH1 as [H1 H2].
      split; [|exact IH2]. constructor; [|exact H2].
      intros [H|H]; [congruence | contradiction].
Qed.

Lemma getProperty_objectLiteral_from {A} (fields : list (jsstring * A)) :
  forall o k,
    NoDup (map fst fields) ->
    getProperty (fold_left (fun o kv => defineProperty o (fst kv) (snd kv)) fields o) k =
    match getProperty fields k with
    | Some v => Some v
    | None => getProperty o k
    end.
Proof.
  induction fields as [|[k1 v1] fields IH]; intros o k Hnd; cbn [fold_left fst snd];
    [reflexivity|].
  cbn [map fst] in Hnd. apply NoDup_cons_iff in Hnd as [Hn Hnd].
  rewrite IH by exact Hnd. cbn [getProperty].
  rewrite getProperty_defineProperty.
  destruct (str_eqb k k1) eqn:E; [|reflexivity].
  apply str_eqb_eq in E. subst k1. now rewrite getProperty_not_key.
Qed.

(** X15: an own enumerable property of the error wins over the three
    properties that [errorToObject] names; without one, [name] and
    [message] are those of the error and [stack] is always a property,
    [undefined] when the error has no stack and the lines of the stack
    otherwise: no line holds a line feed, and the lines joined by line
    feeds are the stack. *)
Theorem errorToObject_properties (error : Misc.ErrorObject) :
  NoDup (map fst (Misc.ownEnumerable error)) ->
  (forall k,
      getProperty (Misc.errorToObject error) k =
      match getProperty (Misc.ownEnumerable error) k with
      | Some v => Some v
      | None =>
          if str_eqb k (lit "name") then Some (Misc.errorName error)
          else if str_eqb k (lit "message") then Some (Misc.errorMessage error)
          else if str_eqb k (lit "stack") then Some (Misc.stackLines error)
          else None
      end) /\
  (Misc.errorStack error = None -> Misc.stackLines error = VUndefined) /\
  (forall stack,
      Misc.errorStack error = Some stack ->
      exists lines,
        Misc.stackLines error = VArr (map VStr lines) /\
        joinWith 10 lines = stack /\
        Forall (fun line => ~ In 10 line) lines /\
        length lines = S (length (filter (Z.eqb 10) stack))).
Proof.
  intros Hnd. split; [|split].
  - intros k. unfold Misc.errorToObject, objectLiteral.
    rewrite fold_left_app, getProperty_objectLiteral_from by exact Hnd.
    destruct (getProperty (Misc.ownEnumerable error) k); [reflexivity|].
    cbn [fold_left fst snd]. rewrite !getProperty_defineProperty.
    cbn [getProperty].
    destruct (str_eqb k (lit "stack")) eqn:E1, (str_eqb k (lit "message")) eqn:E2,
             (str_eqb k (lit "name")) eqn:E3; try reflexivity; exfalso;
      repeat match goal with
             | H : str_eqb _ _ = true |- _ => apply str_eqb_eq in H
             end;
      subst; discriminate.
  - unfold Misc.stackLines. now intros ->.
  - intros stack E. unfold Misc.stackLines. rewrite E.
    exists (Misc.split 10 stack). split; [reflexivity|].
    split; [apply joinWith_split|]. apply split_lines.
Qed.

(** ** The fields of the anchor *)

Lemma mem_rev x l : mem x (rev l) = mem x l.
Proof.
  destruct (mem x l) eqn:E.
  - apply mem_In. apply -> in_rev. now apply mem_In.
  - apply not_true_is_false. intros H. apply mem_In in H. apply in_rev in H.
    apply mem_In in H. congruence.
Qed.

Lemma uniq_from a : forall seen,
  NoDup seen ->
  NoDup (fold_left (fun seen x => if mem x seen then seen else x :: seen) a seen) /\
  forall x, In x (fold_left (fun seen x => if mem x seen then seen else x :: seen) a seen)
            <-> In x seen \/ In x a.
Proof.
  induction a as [|y a IH]; intros seen Hnd; cbn [fold_left].
  - split; [exact Hnd|]. intros x. cbn. tauto.
  - destruct (mem y seen) eqn:E.
    + destruct (IH seen Hnd) as [N I]. split; [exact N|].
      intros x. rewrite I. cbn. apply mem_In in E. intuition (subst; auto).
    + assert (Hn : ~ In y seen) by (intros H; apply mem_In in H; congruence).
      destruct (IH (y :: seen) (NoDup_cons _ Hn Hnd)) as [N I]. split; [exact N|].
      intros x. rewrite I. cbn. tauto.
Qed.

Lemma uniq_NoDup a : NoDup (uniq a).
Proof.
  unfold uniq. apply NoDup_rev. apply (uniq_from a []). constructor.
Qed.

Lemma uniq_In a x : In x (uniq a) <-> In x a.
Proof.
  unfold uniq. rewrite <- in_rev.
  destruct (uniq_from a [] (NoDup_nil _)) as [_ I]. rewrite I. cbn. tauto.
Qed.

Lemma uniq_same_elements a b :
  (forall x, In x a <-> In x b) -> Permutation (uniq a) (uniq b).
Proof.
  intros H. apply NoDup_Permutation; try apply uniq_NoDup.
  intros x. rewrite !uniq_In. apply H.
Qed.

Section AnchorFieldProperties.

Import Audio Anchor.

Context {R : Runtime}.

Lemma anchorLiteral_explicit b :
  anchorLiteral b =
  match ptHash b, extHash b, xExtHash b, paramsHash b, shaderHash b with
  | Some pt, Some ext, Some xExt, Some params, Some shader =>
      Some (VObj [(lit "gpu", gpuValue b);
                  (lit "webgl", VObj [(lit "ext", ext); (lit "xExt", xExt);
                                      (lit "params", params); (lit "shader", shader)]);
                  (lit "hw", ofOption VNum (hardwareConcurrency b));
                  (lit "mem", ofOption VNum (deviceMemory b));
                  (lit "audio", audioValue b);
                  (lit "math", mathValue b);
                  (lit "webgpu", webgpuValue b);
                  (lit "eme", emeValue b);
                  (lit "pt", pt)])
  | _, _, _, _, _ => None
  end.
Proof. reflexivity. Qed.

Lemma hashNonEmpty_same prepare l1 l2 :
  (l1 = [] <-> l2 = []) -> prepare l1 = prepare l2 ->
  hashNonEmpty prepare (Some l1) = hashNonEmpty prepare (Some l2).
Proof.
  intros He Hp. destruct l1 as [|x l1], l2 as [|y l2]; try reflexivity.
  - destruct He as [He _]. now specialize (He eq_refl).
  - destruct He as [_ He]. now specialize (He eq_refl).
  - unfold hashNonEmpty. now rewrite Hp.
Qed.

Lemma Permutation_nil_iff {A} (l1 l2 : list A) :
  Permutation l1 l2 -> (l1 = [] <-> l2 = []).
Proof.
  intros P. split; intros ->.
  - now apply Permutation_nil.
  - apply Permutation_nil. now symmetry.
Qed.

Lemma sameDeviceSignals_literal b1 b2 :
  sameDeviceSignals b1 b2 -> anchorLiteral b1 = anchorLiteral b2.
Proof.
  intros (Hhw & Hmem & Hgl & Hext & Haudio & Hmath & Hgpu & Heme & Hpt).
  rewrite !anchorLiteral_explicit.
  assert (E1 : ptHash b1 = ptHash b2) by (unfold ptHash; now rewrite Hpt).
  assert (E2 : gpuValue b1 = gpuValue b2 /\ extHash b1 = extHash b2).
  { unfold gpuValue, extHash, optionRel in *.
    destruct (webgl b1) as [g1|], (webgl b2) as [g2|]; try contradiction;
      [|now split].
    destruct Hgl as (Hv & Hvu & Hr & Hru & Hx). cbn [optField].
    rewrite Hv, Hvu, Hr, Hru. split; [reflexivity|].
    destruct (extensions g1) as [l1|], (extensions g2) as [l2|]; try contradiction;
      [|reflexivity].
    cbn [option_map]. now rewrite (Array_sort_Permutation l1 l2 Hx). }
  destruct E2 as [E2 E3].
  assert (E4 : xExtHash b1 = xExtHash b2 /\ paramsHash b1 = paramsHash b2 /\
               shaderHash b1 = shaderHash b2).
  { unfold xExtHash, paramsHash, shaderHash, optionRel in *.
    destruct (webgExtensions b1) as [e1|], (webgExtensions b2) as [e2|];
      try contradiction; [|now repeat split].
    destruct Hext as (Hp & Hs & Hx). cbn [optField option_map].
    split; [|split].
    - destruct (supportedExtensions e1) as [l1|], (supportedExtensions e2) as [l2|];
        try contradiction; [|reflexivity].
      apply hashNonEmpty_same.
      + split; intros ->.
        * destruct l2 as [|y l2]; [reflexivity|]. destruct (proj2 (Hx y)). now left.
        * destruct l1 as [|y l1]; [reflexivity|]. destruct (proj1 (Hx y)). now left.
      + apply Array_sort_Permutation. now apply uniq_same_elements.
    - apply hashNonEmpty_same; [now apply Permutation_nil_iff|].
      now apply Array_sort_Permutation.
    - apply hashNonEmpty_same; [now apply Permutation_nil_iff|].
      now apply Array_sort_Permutation. }
  destruct E4 as (E4 & E5 & E6).
  assert (E7 : webgpuValue b1 = webgpuValue b2).
  { unfold webgpuValue, optionRel in *.
    destruct (webgpu b1) as [g1|], (webgpu b2) as [g2|]; try contradiction;
      [|reflexivity].
    destruct Hgpu as [Hs Hf]. cbn [ofOption]. now rewrite Hs, Hf. }
  assert (E8 : emeValue b1 = emeValue b2) by (unfold emeValue; now rewrite Heme).
  assert (E9 : mathValue b1 = mathValue b2) by (unfold mathValue; now rewrite Hmath).
  now rewrite E1, E2, E3, E4, E5, E6, E7, E8, E9, Hhw, Hmem, Haudio.
Qed.

(** X6: the anchor and the visitor identifier do not depend on the order
    of the lists of WebGL extensions, parameters and shader precisions, on
    repetitions in [webgExtensions.extensions], or on the fields that
    [computeAnchor] never reads (the WebGL version strings, the context
    attributes, the extension parameters, the unsupported extensions, the
    vendor, architecture and device of the WebGPU adapter). *)
Theorem anchor_of_same_device (b1 b2 : BrowserSignals) :
  sameDeviceSignals b1 b2 ->
  computeAnchor b1 = computeAnchor b2 /\
  option_map visitorId (computeVisitorId b1) =
  option_map visitorId (computeVisitorId b2).
Proof.
  intros H. apply sameDeviceSignals_literal in H.
  assert (Ea : computeAnchor b1 = computeAnchor b2)
    by (unfold computeAnchor; now rewrite H).
  split; [exact Ea|]. unfold computeVisitorId. now rewrite Ea.
Qed.

(** The properties of the anchor: what [JSON.parse] reads back of the
    fields of the literal. *)
Lemma computeAnchor_lookup b gpu webgl hw mem audio math webgpu eme pt :
  anchorLiteral b =
    Some (VObj [(lit "gpu", gpu); (lit "webgl", webgl); (lit "hw", hw);
                (lit "mem", mem); (lit "audio", audio); (lit "math", math);
                (lit "webgpu", webgpu); (lit "eme", eme); (lit "pt", pt)]) ->
  exists props,
    computeAnchor b = Some (VObj props) /\
    forall k,
      getProperty props k =
      match getProperty [(lit "gpu", gpu); (lit "webgl", webgl); (lit "hw", hw);
                         (lit "mem", mem); (lit "audio", audio); (lit "math", math);
                         (lit "webgpu", webgpu); (lit "eme", eme); (lit "pt", pt)] k with
      | Some v => parseCanonical v
      | None => None
      end.
Proof.
  intros E. unfold computeAnchor. rewrite E.
  cbn [parseCanonical map fst snd]. rewrite anchor_sorted_keys.
  eexists. split; [reflexivity|]. intros k.
  rewrite getProperty_parseMembers
    by (cbn; repeat constructor; cbn; intuition discriminate).
  cbn [getProperty].
  repeat match goal with
         | |- context [str_eqb k ?key] =>
             let E := fresh "E" in
             destruct (str_eqb k key) eqn:E;
             [apply str_eqb_eq in E; subst k; cbn;
              match goal with |- context [parseCanonical ?v] =>
                destruct (parseCanonical v); reflexivity end|]
         end.
  reflexivity.
Qed.

End AnchorFieldProperties.

(** ** [getPerformanceTiming] *)

Lemma binary_round_aux_not_nan s m e l :
  0 <= m -> binary_round_aux prec emax s m e l <> S754_nan.
Proof.
  intros H. unfold binary_round_aux.
  pose proof (shr_fexp_m_nonneg m e l H) as H1.
  destruct (shr_fexp prec emax m e l) as [mrs' e']. simpl in H1.
  pose proof (shr_fexp_m_nonneg _ e' loc_Exact
                (round_nearest_even_nonneg _ (loc_of_shr_record mrs') H1)) as H2.
  destruct (shr_fexp prec emax (round_nearest_even _ _) e' loc_Exact) as [mrs'' e''].
  simpl in H2. destruct (shr_m mrs'') as [|p|p]; [discriminate| |lia].
  destruct (e'' <=? emax - prec); discriminate.
Qed.

Lemma binary_normalize_not_nan m e szero :
  binary_normalize prec emax m e szero <> S754_nan.
Proof.
  unfold binary_normalize, binary_round. destruct m as [|p|p]; [discriminate| |];
    destruct (shl_align _ _ _) as [mz ez]; apply binary_round_aux_not_nan; lia.
Qed.

(** The difference of two numbers in order is a number. *)
Lemma sub_not_nan prev curr :
  (prev <? curr)%float = true -> is_nan (curr - prev) = false.
Proof.
  intros H. apply not_true_is_false. intros N.
  apply is_nan_floatKey in N. rewrite sub_spec in N.
  rewrite ltb_spec in H. unfold SFltb in H.
  destruct (Prim2SF prev) as [sp|sp| |sp mp ep], (Prim2SF curr) as [sc|sc| |sc mc ec];
    cbn in H; try discriminate H;
    try (destruct sp; destruct sc; discriminate).
  unfold SF64sub, SFsub in N.
  destruct (binary_normalize _ _ _ _ _) eqn:E; try discriminate N.
  now apply binary_normalize_not_nan in E.
Qed.

Lemma float_ltb_leb_trans x y z :
  (x <? y)%float = true -> (y <=? z)%float = true -> (x <=? z)%float = true.
Proof. intros H1 H2. eapply float_leb_trans; [apply float_ltb_leb|]; eassumption. Qed.

Lemma timingStep_bounds now t :
  timingBounds t -> timingBounds (Signals.timingStep now t).
Proof.
  intros [H1 H2]. unfold Signals.timingStep, timingBounds.
  destruct (Signals.curr t <? now)%float; [|now split].
  destruct (Signals.min t <? now - Signals.curr t)%float eqn:E1.
  - destruct (now - Signals.curr t <? Signals.max t)%float eqn:E2; cbn; [|now split].
    split; [now apply float_ltb_leb|]. eapply float_ltb_leb_trans; eassumption.
  - destruct (now - Signals.curr t <? Signals.min t)%float eqn:E2; cbn; [|now split].
    split; [now apply float_ltb_leb|]. eapply float_leb_trans; eassumption.
Qed.

(** The step never raises [min], and leaves it at or below a tick that
    it has seen. *)
Lemma timingStep_min now t :
  timingBounds t ->
  (Signals.min (Signals.timingStep now t) <=? Signals.min t)%float = true /\
  ((Signals.curr t <? now)%float = true ->
   (Signals.min (Signals.timingStep now t) <=? now - Signals.curr t)%float = true) /\
  Signals.curr (Signals.timingStep now t) = now.
Proof.
  intros [H1 H2].
  assert (Hm : is_nan (Signals.min t) = false) by now apply float_leb_not_nan in H1.
  unfold Signals.timingStep.
  destruct (Signals.curr t <? now)%float eqn:E0; cbn;
    [|split; [now apply float_leb_refl | split; [discriminate | reflexivity]]].
  pose proof (sub_not_nan _ _ E0) as Hd.
  destruct (Signals.min t <? now - Signals.curr t)%float eqn:E1.
  - destruct (now - Signals.curr t <? Signals.max t)%float; cbn;
      (split; [now apply float_leb_refl | split; [|reflexivity]]);
      intros _; now apply float_ltb_leb.
  - destruct (now - Signals.curr t <? Signals.min t)%float eqn:E2; cbn.
    + split; [now apply float_ltb_leb|]. split; [|reflexivity].
      intros _. now apply float_leb_refl.
    + split; [now apply float_leb_refl|]. split; [|reflexivity].
      intros _. now apply float_not_ltb_leb.
Qed.

Section TimingLoop.

Variable now : nat -> option float.

Lemma timingLoop_invariant turns : forall i t t',
  timingBounds t -> seenTicks now i t ->
  Signals.timingLoop now turns i t = Some t' ->
  timingBounds t' /\ seenTicks now (turns + i) t'.
Proof.
  induction turns as [|turns IH]; intros i t t' Hb Hs E; cbn in E.
  - injection E as <-. now split.
  - destruct (now i) as [time|] eqn:En; [|discriminate].
    replace (S turns + i)%nat with (turns + S i)%nat by lia.
    apply (IH (S i) (Signals.timingStep time t)); [now apply timingStep_bounds| |exact E].
    destruct (timingStep_min time t Hb) as (Hmin & Htick & Hcurr).
    destruct Hs as [(j0 & -> & Hj0) Hs]. split.
    + exists (S j0). split; [reflexivity|]. now rewrite Hcurr.
    + intros j prev curr Hj Hp Hc Hlt.
      destruct (Nat.eq_dec j j0) as [->|Hne].
      * rewrite Hj0 in Hp. injection Hp as <-. rewrite En in Hc. injection Hc as <-.
        now apply Htick.
      * eapply float_leb_trans; [exact Hmin|].
        apply (Hs j prev curr); try assumption. lia.
Qed.

End TimingLoop.

(** X16: whatever the clock does, [precision <= baseline <= 1], so neither
    is NaN, and [precision] is at most every tick of the clock between two
    calls that follow each other. *)
Theorem getPerformanceTiming_bounds (now : nat -> option float)
  (timing : Anchor.PerformanceTimingInfo) :
  Signals.getPerformanceTiming (Some now) = Some timing ->
  (Anchor.precision timing <=? Anchor.baseline timing)%float = true /\
  (Anchor.baseline timing <=? 1)%float = true /\
  forall j prev curr,
    (j < Signals.timingTurns)%nat ->
    now j = Some prev -> now (S j) = Some curr -> (prev <? curr)%float = true ->
    (Anchor.precision timing <=? curr - prev)%float = true.
Proof.
  unfold Signals.getPerformanceTiming. intros E.
  destruct (now O) as [first|] eqn:E0; [|discriminate].
  destruct (Signals.timingLoop now _ 1 _) as [t|] eqn:El; [|discriminate].
  injection E as <-. cbn [Anchor.precision Anchor.baseline].
  apply timingLoop_invariant in El as [[B1 B2] [_ S]].
  - split; [exact B1|]. split; [exact B2|].
    intros j prev curr Hj. apply S. lia.
  - split; reflexivity.
  - split; [exists O; now split|]. intros j prev curr Hj. lia.
Qed.

Lemma timingStep_coarse time t :
  Signals.min t = 1%float -> Signals.max t = 1%float ->
  ((Signals.curr t <? time)%float = true ->
   (time - Signals.curr t <? 1)%float = false) ->
  Signals.min (Signals.timingStep time t) = 1%float /\
  Signals.max (Signals.timingStep time t) = 1%float /\
  Signals.curr (Signals.timingStep time t) = time.
Proof.
  intros Hmin Hmax H. unfold Signals.timingStep. rewrite Hmin, Hmax.
  destruct (Signals.curr t <? time)%float; [|now repeat split].
  rewrite (H eq_refl).
  destruct (1 <? time - Signals.curr t)%float; now repeat split.
Qed.

Lemma timingLoop_coarse now turns : forall i t t',
  coarseClock now ->
  Signals.min t = 1%float -> Signals.max t = 1%float ->
  (exists j, i = S j /\ now j = Some (Signals.curr t)) ->
  Signals.timingLoop now turns i t = Some t' ->
  Signals.min t' = 1%float /\ Signals.max t' = 1%float.
Proof.
  induction turns as [|turns IH]; intros i t t' Hc Hmin Hmax (j & -> & Hj) E; cbn in E.
  - injection E as <-. now split.
  - destruct (now (S j)) as [time|] eqn:En; [|discriminate].
    destruct (timingStep_coarse time t Hmin Hmax) as (H1 & H2 & H3).
    { now apply (Hc j). }
    apply (IH (S (S j)) _ t' Hc H1 H2); [|exact E].
    exists (S j). split; [reflexivity|]. now rewrite H3.
Qed.

Lemma timingLoop_returns now turns : forall i t,
  (forall j, exists time, now j = Some time) ->
  exists t', Signals.timingLoop now turns i t = Some t'.
Proof.
  induction turns as [|turns IH]; intros i t H; cbn; [eauto|].
  destruct (H i) as [time ->]. now apply IH.
Qed.

(** X17: on a clock whose ticks are never below one, the measurement is [{
    precision: 1, baseline: 1 }], as on a clock that stands still. *)
Theorem getPerformanceTiming_coarse (now : nat -> option float) :
  (forall j, exists time, now j = Some time) ->
  coarseClock now ->
  Signals.getPerformanceTiming (Some now) =
  Some {| Anchor.precision := 1; Anchor.baseline := 1 |}.
Proof.
  intros Ht Hc. unfold Signals.getPerformanceTiming.
  destruct (Ht O) as [first E0]. rewrite E0.
  destruct (timingLoop_returns now Signals.timingTurns 1
              {| Signals.min := 1; Signals.max := 1; Signals.curr := first |} Ht)
    as [t El].
  rewrite El.
  apply timingLoop_coarse in El as [-> ->]; try reflexivity; try assumption.
  exists O. now split.
Qed.

Lemma getPerformanceTiming_bounds_witness :
  let timing := {| Anchor.precision := 0.25; Anchor.baseline := 1 |} in
  Signals.getPerformanceTiming (Some quarterClock) = Some timing /\
  (Anchor.precision timing <=? Anchor.baseline timing)%float = true /\
  (Anchor.baseline timing <=? 1)%float = true /\
  forall j prev curr,
    (j < Signals.timingTurns)%nat ->
    quarterClock j = Some prev -> quarterClock (S j) = Some curr ->
    (prev <? curr)%float = true ->
    (Anchor.precision timing <=? curr - prev)%float = true.
Proof.
  assert (E : Signals.getPerformanceTiming (Some quarterClock) =
              Some {| Anchor.precision := 0.25; Anchor.baseline := 1 |})
    by (vm_compute; reflexivity).
  split; [exact E|].
  exact (getPerformanceTiming_bounds quarterClock _ E).
Defined.

Lemma getPerformanceTiming_coarse_witness :
  Signals.getPerformanceTiming (Some millisecondClock) =
  Some {| Anchor.precision := 1; Anchor.baseline := 1 |}.
Proof.
  apply (getPerformanceTiming_coarse millisecondClock).
  - intros j. unfold millisecondClock. eauto.
  - unfold coarseClock, millisecondClock. intros j prev curr Hp Hc Hlt.
    assert (Ep : prev = if (j <? 3)%nat then 7%float else 8%float)
      by congruence.
    assert (Ec : curr = if (S j <? 3)%nat then 7%float else 8%float)
      by congruence.
    clear Hp Hc. subst prev curr.
    destruct (j <? 3)%nat, (S j <? 3)%nat; try reflexivity;
      vm_compute in Hlt; discriminate.
Defined.

(** ** The signals that [computeBrowserSignals] collects *)

Lemma uniq_from_NoDup a : forall seen,
  NoDup a -> (forall x, In x a -> ~ In x seen) ->
  fold_left (fun seen x => if mem x seen then seen else x :: seen) a seen =
  rev a ++ seen.
Proof.
  induction a as [|y a IH]; intros seen Hnd Hd; cbn [fold_left rev]; [reflexivity|].
  apply NoDup_cons_iff in Hnd as [Hy Hnd].
  replace (mem y seen) with false.
  - rewrite IH; [now rewrite <- app_assoc|exact Hnd|].
    intros x Hx [<-|H]; [contradiction|]. apply (Hd x); [now right | exact H].
  - symmetry. apply not_true_is_false. intros H. apply mem_In in H.
    apply (Hd y); [now left | exact H].
Qed.

Lemma uniq_NoDup_id a : NoDup a -> uniq a = a.
Proof.
  intros H. unfold uniq. rewrite uniq_from_NoDup; [|exact H|intros x _ []].
  now rewrite app_nil_r, rev_involutive.
Qed.

Section CollectedSignals.

Context {R : Runtime}.

(** The two lists of extensions of the collected signals are one list. *)
Lemma collected_extensions env g l :
  Anchor.webgl (Signals.computeBrowserSignals env) = Some g ->
  Anchor.extensions g = Some l ->
  exists e,
    Anchor.webgExtensions (Signals.computeBrowserSignals env) = Some e /\
    Anchor.supportedExtensions e = Some l.
Proof.
  unfold Signals.computeBrowserSignals.
  generalize (fst (WebGl.getWebGlBasics (Signals.engine env) None
                     (Signals.canvasOfBasics env))).
  generalize (fst (WebGl.getWebGlExtensions (Signals.engine env) None
                     (Signals.canvasOfExtensions env))).
  intros extensions basics. cbn [Anchor.webgl Anchor.webgExtensions].
  destruct basics as [status|basics]; [intros H; discriminate H|].
  intros H. assert (Hg : g = _) by (symmetry; injection H; intros H'; exact H').
  clear H. subst g. cbn [Anchor.extensions].
  destruct extensions as [status|payload]; [intros H; discriminate H|].
  intros E. now exists payload.
Qed.

(** The [webgl] of the anchor: what [JSON.parse] reads back of the four
    digests. *)
Lemma webgl_lookup ext xExt params shader :
  exists webgl,
    parseCanonical (VObj [(lit "ext", ext); (lit "xExt", xExt);
                          (lit "params", params); (lit "shader", shader)])
    = Some (VObj webgl) /\
    forall k,
      getProperty webgl k =
      match getProperty [(lit "ext", ext); (lit "xExt", xExt);
                         (lit "params", params); (lit "shader", shader)] k with
      | Some v => parseCanonical v
      | None => None
      end.
Proof.
  cbn [parseCanonical map fst snd].
  change (replacerProps [(lit "ext", parseCanonical ext); (lit "xExt", parseCanonical xExt);
                         (lit "params", parseCanonical params);
                         (lit "shader", parseCanonical shader)])
    with [(lit "ext", parseCanonical ext); (lit "params", parseCanonical params);
          (lit "shader", parseCanonical shader); (lit "xExt", parseCanonical xExt)].
  eexists. split; [reflexivity|]. intros k.
  rewrite getProperty_parseMembers
    by (cbn; repeat constructor; cbn; intuition discriminate).
  cbn [getProperty].
  repeat match goal with
         | |- context [str_eqb k ?key] =>
             let E := fresh "E" in
             destruct (str_eqb k key) eqn:E;
             [apply str_eqb_eq in E; subst k; cbn;
              match goal with |- context [parseCanonical ?v] =>
                destruct (parseCanonical v); reflexivity end|]
         end.
  reflexivity.
Qed.

(** X19: in the anchor of collected signals whose list of WebGL extensions
    is not empty and repeats nothing, [webgl.ext] and [webgl.xExt] are the
    same digest: both hash the sorted list. *)
Theorem collected_ext_is_xExt (env : Signals.Environment) (g : Anchor.WebGl)
  (l : list jsstring) :
  Anchor.webgl (Signals.computeBrowserSignals env) = Some g ->
  Anchor.extensions g = Some l ->
  l <> [] -> NoDup l ->
  exists props webgl digest,
    Anchor.computeAnchor (Signals.computeBrowserSignals env) = Some (VObj props) /\
    getProperty props (lit "webgl") = Some (VObj webgl) /\
    getProperty webgl (lit "ext") = Some (VStr digest) /\
    getProperty webgl (lit "xExt") = Some (VStr digest) /\
    stableHash (Anchor.strings (Array_sort l)) = Some digest.
Proof.
  intros Eg El Hne Hnd.
  destruct (collected_extensions env g l Eg El) as (e & Ee & Es).
  set (b := Signals.computeBrowserSignals env) in *.
  pose proof (anchorLiteral_explicit b) as L.
  assert (E1 : extHash b = option_map VStr (stableHash (Anchor.strings (Array_sort l)))).
  { unfold extHash. rewrite Eg. cbn [Anchor.optField]. now rewrite El. }
  assert (E2 : xExtHash b = option_map VStr (stableHash (Anchor.strings (Array_sort l)))).
  { unfold xExtHash. rewrite Ee. cbn [Anchor.optField]. rewrite Es.
    destruct l as [|x l]; [contradiction|]. unfold Anchor.hashNonEmpty.
    now rewrite uniq_NoDup_id. }
  assert (Ed : exists digest, stableHash (Anchor.strings (Array_sort l)) = Some digest).
  { unfold stableHash, Anchor.strings. cbn [canonicalize]. eauto. }
  destruct Ed as [digest Ed]. rewrite Ed in E1, E2. cbn [option_map] in E1, E2.
  rewrite E1, E2 in L.
  destruct (ptHash b) as [pt|] eqn:Ept;
    [|unfold ptHash in Ept; destruct (Anchor.performanceTiming b); discriminate].
  destruct (paramsHash b) as [params|] eqn:Epa;
    [|destruct (hashNonEmpty_defined Array_sort
                 (option_map Anchor.parameters (Anchor.webgExtensions b))) as [? E];
      unfold paramsHash in Epa; rewrite E in Epa; discriminate].
  destruct (shaderHash b) as [shader|] eqn:Esh;
    [|destruct (hashNonEmpty_defined Array_sort
                 (option_map Anchor.shaderPrecisions (Anchor.webgExtensions b))) as [? E];
      unfold shaderHash in Esh; rewrite E in Esh; discriminate].
  destruct (computeAnchor_lookup b _ _ _ _ _ _ _ _ _ L) as (props & Ea & Hp).
  destruct (webgl_lookup (VStr digest) (VStr digest) params shader) as (w & Ew & Hw).
  exists props, w, digest. split; [exact Ea|].
  split; [rewrite Hp; exact Ew|].
  split; [now rewrite Hw|]. split; [now rewrite Hw | exact Ed].
Qed.

Lemma anchor_of_literal b :
  exists props,
    Anchor.computeAnchor b = Some (VObj props) /\
    forall k,
      getProperty props k =
      if str_eqb k (lit "gpu") then parseCanonical (gpuValue b)
      else if str_eqb k (lit "hw")
      then parseCanonical (Anchor.ofOption VNum (Anchor.hardwareConcurrency b))
      else if str_eqb k (lit "mem")
      then parseCanonical (Anchor.ofOption VNum (Anchor.deviceMemory b))
      else if str_eqb k (lit "audio") then parseCanonical (audioValue b)
      else if str_eqb k (lit "math") then parseCanonical (mathValue b)
      else if str_eqb k (lit "webgpu") then parseCanonical (webgpuValue b)
      else if str_eqb k (lit "eme") then parseCanonical (emeValue b)
      else getProperty props k.
Proof.
  pose proof (anchorLiteral_explicit b) as L.
  destruct (ptHash b) as [pt|] eqn:Ept;
    [|unfold ptHash in Ept; destruct (Anchor.performanceTiming b); discriminate].
  destruct (extHash b) as [ext|] eqn:Eex;
    [|unfold extHash in Eex;
      destruct (option_map Array_sort _); discriminate].
  destruct (xExtHash b) as [xExt|] eqn:Exe;
    [|destruct (hashNonEmpty_defined (fun l => Array_sort (uniq l))
                 (Anchor.optField (Anchor.webgExtensions b) Anchor.supportedExtensions))
        as [? E];
      unfold xExtHash in Exe; rewrite E in Exe; discriminate].
  destruct (paramsHash b) as [params|] eqn:Epa;
    [|destruct (hashNonEmpty_defined Array_sort
                 (option_map Anchor.parameters (Anchor.webgExtensions b))) as [? E];
      unfold paramsHash in Epa; rewrite E in Epa; discriminate].
  destruct (shaderHash b) as [shader|] eqn:Esh;
    [|destruct (hashNonEmpty_defined Array_sort
                 (option_map Anchor.shaderPrecisions (Anchor.webgExtensions b))) as [? E];
      unfold shaderHash in Esh; rewrite E in Esh; discriminate].
  destruct (computeAnchor_lookup b _ _ _ _ _ _ _ _ _ L) as (props & Ea & Hp).
  exists props. split; [exact Ea|]. intros k.
  repeat match goal with
         | |- context [str_eqb k ?key] =>
             let E := fresh "E" in
             destruct (str_eqb k key) eqn:E;
             [apply str_eqb_eq in E; subst k; rewrite Hp; reflexivity|]
         end.
  reflexivity.
Qed.

(** X18: what the audio source returns is kept as it is and never called,
    so the anchor of collected signals has an [audio] only when the source
    answers at once, with one of its codes -1, -2 and -4; when it starts a
    render job the anchor has no [audio], and nothing that the job meets
    changes the visitor identifier. *)
Theorem collected_audio (env : Signals.Environment) :
  (exists props,
      Anchor.computeAnchor (Signals.computeBrowserSignals env) = Some (VObj props) /\
      match Audio.getAudioFingerprint (WebGl.browser (Signals.engine env))
                                      (Signals.firstAttempt env) with
      | Audio.Immediate x =>
          getProperty props (lit "audio") = Some (VNum x) /\
          (x = (-1)%float \/ x = (-2)%float \/ x = (-4)%float)
      | Audio.Deferred _ => getProperty props (lit "audio") = None
      end) /\
  forall attempt,
    Anchor.computeVisitorId (Signals.computeBrowserSignals env) =
    Anchor.computeVisitorId (Signals.computeBrowserSignals
      {| Signals.navigator := Signals.navigator env;
         Signals.engine := Signals.engine env;
         Signals.canvasOfBasics := Signals.canvasOfBasics env;
         Signals.canvasOfExtensions := Signals.canvasOfExtensions env;
         Signals.webgpu := Signals.webgpu env;
         Signals.eme := Signals.eme env;
         Signals.mathFingerprint := Signals.mathFingerprint env;
         Signals.firstAttempt := attempt;
         Signals.performance := Signals.performance env |}).
Proof.
  split.
  - destruct (anchor_of_literal (Signals.computeBrowserSignals env))
      as (props & Ea & Hp).
    exists props. split; [exact Ea|].
    specialize (Hp (lit "audio")). cbn [str_eqb lit] in Hp.
    change (str_eqb (lit "audio") (lit "gpu")) with false in Hp.
    change (str_eqb (lit "audio") (lit "hw")) with false in Hp.
    change (str_eqb (lit "audio") (lit "mem")) with false in Hp.
    change (str_eqb (lit "audio") (lit "audio")) with true in Hp.
    cbv iota in Hp. rewrite Hp. unfold audioValue.
    cbn [Signals.computeBrowserSignals Anchor.audioFingerprint].
    destruct (Audio.getAudioFingerprint _ _) as [x|job] eqn:E; [|reflexivity].
    apply immediate_answers in E.
    assert (Hx : x = (-1)%float \/ x = (-2)%float \/ x = (-4)%float).
    { destruct E as [->|[->| ->]]; cbn; auto. }
    split; [|exact Hx].
    destruct Hx as [->|[->| ->]]; reflexivity.
  - intros attempt.
    assert (El : Anchor.anchorLiteral (Signals.computeBrowserSignals env) =
                 Anchor.anchorLiteral (Signals.computeBrowserSignals
                   {| Signals.navigator := Signals.navigator env;
                      Signals.engine := Signals.engine env;
                      Signals.canvasOfBasics := Signals.canvasOfBasics env;
                      Signals.canvasOfExtensions := Signals.canvasOfExtensions env;
                      Signals.webgpu := Signals.webgpu env;
                      Signals.eme := Signals.eme env;
                      Signals.mathFingerprint := Signals.mathFingerprint env;
                      Signals.firstAttempt := attempt;
                      Signals.performance := Signals.performance env |})).
    { rewrite !anchorLiteral_explicit.
      assert (Ha : forall a1 a2 br,
                 match Audio.getAudioFingerprint br a1 with
                 | Audio.Immediate x => VNum x
                 | Audio.Deferred _ => VUndefined
                 end =
                 match Audio.getAudioFingerprint br a2 with
                 | Audio.Immediate x => VNum x
                 | Audio.Deferred _ => VUndefined
                 end).
      { intros a1 a2 br.
        unfold Audio.getAudioFingerprint, Audio.getUnstableAudioFingerprint.
        destruct (Audio.isSafari17OrNewer br); [reflexivity|].
        destruct (Audio.doesBrowserPerformAntifingerprinting br); [reflexivity|].
        destruct (negb _); [reflexivity|].
        destruct (Audio.doesBrowserSuspendAudioContext br); reflexivity. }
      unfold audioValue.
      cbn [Signals.computeBrowserSignals Anchor.audioFingerprint Signals.navigator
           Signals.engine Signals.canvasOfBasics Signals.canvasOfExtensions
           Signals.webgpu Signals.eme Signals.mathFingerprint Signals.firstAttempt
           Signals.performance].
      now rewrite (Ha (Signals.firstAttempt env) attempt). }
    unfold Anchor.computeVisitorId, Anchor.computeAnchor. now rewrite El.
Qed.

Ltac anchor_key Hp key :=
  specialize (Hp key);
  repeat match type of Hp with
         | context [str_eqb key ?other] =>
             let b := eval vm_compute in (str_eqb key other) in
             change (str_eqb key other) with b in Hp
         end;
  cbv iota in Hp.

(** X20: of what [getWebGpuInfo] finds, the anchor of collected signals
    keeps two booleans: [supported], false when the probe throws or there
    is nothing to request an adapter from, and [isFallbackAdapter], true
    when the request resolves to no adapter or to one whose
    [isFallbackAdapter] is [true]. The vendor, the architecture and the
    device of the adapter are not in the anchor. *)
Theorem collected_webgpu (env : Signals.Environment) :
  exists props,
    Anchor.computeAnchor (Signals.computeBrowserSignals env) = Some (VObj props) /\
    getProperty props (lit "webgpu") =
    Some (VObj [(lit "isFallbackAdapter",
                 VBool match Signals.webgpu env with
                       | WebGpu.Resolves None => true
                       | WebGpu.Resolves (Some adapter) =>
                           WebGpu.isTrue (WebGpu.adapterIsFallbackAdapter adapter)
                       | _ => false
                       end);
                (lit "supported",
                 VBool match Signals.webgpu env with
                       | WebGpu.Resolves _ => true
                       | _ => false
                       end)]).
Proof.
  destruct (anchor_of_literal (Signals.computeBrowserSignals env)) as (props & Ea & Hp).
  exists props. split; [exact Ea|].
  anchor_key Hp (lit "webgpu"). rewrite Hp. unfold webgpuValue.
  cbn [Signals.computeBrowserSignals Anchor.webgpu Anchor.ofOption].
  destruct (Signals.webgpu env) as [| |[adapter|]]; reflexivity.
Qed.

(** X21: the anchor of collected signals has [eme: 1] exactly when the
    request for the key system is made and granted, and [eme: 0] exactly
    when it is made and refused. When the Permissions Policy forbids
    encrypted media, when the context is not secure, or when there is
    nothing to ask, the request is not made and the anchor has no [eme]: a
    probe that could not be made is not reported as a refusal. *)
Theorem collected_eme (env : Signals.Environment) :
  exists props,
    Anchor.computeAnchor (Signals.computeBrowserSignals env) = Some (VObj props) /\
    getProperty props (lit "eme") =
    if match Eme.policy (Signals.eme env) with
       | Eme.AllowsFeature (VBool false) => true
       | _ => false
       end
       || match Eme.secureContext (Signals.eme env) with
          | Eme.IsSecureContext (VBool false) => true
          | _ => false
          end
    then None
    else match Eme.keySystem (Signals.eme env) with
         | Eme.AccessGranted => Some (VNum 1)
         | Eme.AccessDenied => Some (VNum 0)
         | _ => None
         end.
Proof.
  destruct (anchor_of_literal (Signals.computeBrowserSignals env)) as (props & Ea & Hp).
  exists props. split; [exact Ea|].
  anchor_key Hp (lit "eme"). rewrite Hp. unfold emeValue.
  cbn [Signals.computeBrowserSignals Anchor.eme Anchor.optField].
  unfold Eme.getEmeInfo.
  destruct (Eme.policy (Signals.eme env)) as [| |[| |[]| | | |]];
    destruct (Eme.secureContext (Signals.eme env)) as [|[| |[]| | | |]];
    destruct (Eme.keySystem (Signals.eme env)); reflexivity.
Qed.

End CollectedSignals.

(** ** [getWebGlExtensions] *)

Lemma sortInsert_ascending x l : ascending l -> ascending (sortInsert x l).
Proof.
  unfold ascending. induction l as [|y l IH]; cbn; intros Hs.
  - repeat constructor.
  - apply StronglySorted_inv in Hs as [Hs Hall].
    destruct (str_ltb y x) eqn:E.
    + constructor; [now apply IH|].
      eapply Permutation_Forall; [symmetry; apply sortInsert_Permutation|].
      constructor; [now apply str_ltb_asym | exact Hall].
    + constructor; [now constructor|]. constructor; [exact E|].
      rewrite Forall_forall in *. intros z Hz. specialize (Hall z Hz).
      destruct (str_ltb z x) eqn:F; [|reflexivity].
      destruct (str_ltb y z) eqn:G.
      * now rewrite (str_ltb_trans _ _ _ G F) in E.
      * rewrite (str_ltb_total _ _ G Hall) in E. congruence.
Qed.

Lemma Array_sort_ascending l : ascending (Array_sort l).
Proof.
  unfold Array_sort. induction l as [|x l IH]; cbn.
  - constructor.
  - now apply sortInsert_ascending.
Qed.

Section Collectors.

Context {R : Runtime}.

Lemma extensionLoop_spec e gl names : forall unsupported lines,
  WebGl.extensionLoop e gl names unsupported lines =
  (unsupported ++
   filter (fun name => negb (passedOver e name)
                       && match WebGl.getExtension gl name with
                          | Some _ => false
                          | None => true
                          end) names,
   lines ++
   flat_map (fun name =>
               if passedOver e name then []
               else match WebGl.getExtension gl name with
                    | Some extension =>
                        map (fun constant =>
                               WebGl.parameterLine gl WebGl.validExtensionParams constant
                                 (WebGl.extensionConstant extension constant))
                            (WebGl.getConstantsFromPrototype
                               (WebGl.extensionPrototypeKeys extension))
                    | None => []
                    end) names).
Proof.
  induction names as [|name names IH]; intros unsupported lines;
    cbn [WebGl.extensionLoop filter flat_map].
  - now rewrite !app_nil_r.
  - fold (passedOver e name). destruct (passedOver e name); cbn [negb andb app].
    + apply IH.
    + destruct (WebGl.getExtension gl name) as [extension|]; rewrite IH.
      * now rewrite <- app_assoc.
      * now rewrite <- app_assoc.
Qed.

(** What the collector returns comes from a context with [getParameter]. *)
Lemma getWebGlExtensions_context e canvas payload :
  fst (WebGl.getWebGlExtensions e None canvas) = inr payload ->
  exists gl,
    fst (WebGl.getWebGLContext None canvas) = Some gl /\
    WebGl.hasGetParameter gl = true /\
    Anchor.supportedExtensions payload = WebGl.getSupportedExtensions gl /\
    Anchor.unsupportedExtensions payload =
      match WebGl.getSupportedExtensions gl with
      | Some names => fst (WebGl.extensionLoop e gl names [] [])
      | None => []
      end /\
    Anchor.extensionParameters payload =
      Array_sort match WebGl.getSupportedExtensions gl with
                 | Some names => snd (WebGl.extensionLoop e gl names [] [])
                 | None => []
                 end /\
    Anchor.parameters payload =
      Array_sort (map (fun constant =>
                         WebGl.parameterLine gl WebGl.validContextParameters constant
                           (WebGl.constant gl constant))
                      (WebGl.getConstantsFromPrototype (WebGl.prototypeKeys gl))) /\
    Anchor.shaderPrecisions payload =
      flat_map (fun shaderType =>
                  map (WebGl.shaderPrecisionLine gl shaderType) WebGl.precisionTypes)
               WebGl.shaderTypes.
Proof.
  unfold WebGl.getWebGlExtensions.
  destruct (WebGl.getWebGLContext None canvas) as [[gl|] cache]; cbn [fst];
    [|intros H; discriminate H].
  unfold WebGl.isValidParameterGetter.
  destruct (WebGl.hasGetParameter gl) eqn:Hp; cbn [negb]; [|intros H; discriminate H].
  destruct (WebGl.getSupportedExtensions gl) as [names|] eqn:Es.
  - destruct (WebGl.extensionLoop e gl names [] []) as [u p] eqn:El.
    intros H. injection H as <-. exists gl. rewrite Es, El. cbn.
    repeat split; try reflexivity; exact Hp.
  - intros H. injection H as <-. exists gl. rewrite Es. cbn.
    repeat split; try reflexivity; exact Hp.
Qed.

(** X22: of the supported extensions, the collector reports as unsupported
    exactly those that it asks for and does not get, in their order: never
    one of the two names that the browser is not asked for. Its two lists
    of parameter lines are sorted, so the [sort()] of [computeAnchor]
    leaves [parameters] as it is, and there are twelve shader precision
    lines. *)
Theorem getWebGlExtensions_lists (e : WebGl.Engine) (canvas : WebGl.Canvas)
  (payload : Anchor.WebGlExtensionsPayload) :
  fst (WebGl.getWebGlExtensions e None canvas) = inr payload ->
  exists gl,
    fst (WebGl.getWebGLContext None canvas) = Some gl /\
    (forall name,
        In name (Anchor.unsupportedExtensions payload) <->
        exists names,
          Anchor.supportedExtensions payload = Some names /\ In name names /\
          passedOver e name = false /\ WebGl.getExtension gl name = None) /\
    Array_sort (Anchor.parameters payload) = Anchor.parameters payload /\
    Array_sort (Anchor.extensionParameters payload) = Anchor.extensionParameters payload /\
    ascending (Anchor.parameters payload) /\
    ascending (Anchor.extensionParameters payload) /\
    length (Anchor.shaderPrecisions payload) = 12%nat.
Proof.
  intros H.
  destruct (getWebGlExtensions_context e canvas payload H)
    as (gl & Eg & _ & Es & Eu & Ep & Epar & Esh).
  exists gl. split; [exact Eg|]. split; [|split; [|split; [|split; [|split]]]].
  - intros name. rewrite Eu, Es.
    destruct (WebGl.getSupportedExtensions gl) as [names|].
    + rewrite extensionLoop_spec. cbn [fst app]. rewrite filter_In. split.
      * intros [Hin Hc]. apply andb_true_iff in Hc as [Hc1 Hc2].
        exists names. split; [reflexivity|]. split; [exact Hin|].
        split; [now apply negb_true_iff|].
        now destruct (WebGl.getExtension gl name).
      * intros (names' & [= <-] & Hin & Hpo & Hex). split; [exact Hin|].
        now rewrite Hpo, Hex.
    + split; [intros []|]. intros (names & E & _). discriminate E.
  - rewrite Epar. apply Array_sort_idempotent.
  - rewrite Ep. apply Array_sort_idempotent.
  - rewrite Epar. apply Array_sort_ascending.
  - rewrite Ep. apply Array_sort_ascending.
  - rewrite Esh. reflexivity.
Qed.

(** X24: a cache that one collector has filled serves the other: with the
    cache that [getWebGlBasics] leaves, [getWebGlExtensions] returns what
    it would have returned for the canvas of the first call, a failure
    included, and the canvas of the second call is not asked. The two
    collectors fail alike, with the same status, and on Gecko the two
    unmasked strings are empty. *)
Theorem collectors_share_the_cache (e : WebGl.Engine) (canvas later : WebGl.Canvas) :
  WebGl.getWebGlExtensions e (snd (WebGl.getWebGlBasics e None canvas)) later =
    (fst (WebGl.getWebGlExtensions e None canvas),
     snd (WebGl.getWebGlBasics e None canvas)) /\
  (forall status,
      fst (WebGl.getWebGlBasics e None canvas) = inl status <->
      fst (WebGl.getWebGlExtensions e None canvas) = inl status) /\
  (forall basics,
      fst (WebGl.getWebGlBasics e None canvas) = inr basics ->
      WebGl.isGecko e = true ->
      WebGl.vendorUnmasked basics = Some [] /\ WebGl.rendererUnmasked basics = Some []).
Proof.
  unfold WebGl.getWebGlBasics, WebGl.getWebGlExtensions.
  destruct (WebGl.getWebGLContext None canvas) as [context cache] eqn:Ec.
  assert (Hc : cache = Some context).
  { unfold WebGl.getWebGLContext in Ec. now injection Ec as <- <-. }
  subst cache. cbn [fst snd WebGl.getWebGLContext].
  split; [reflexivity|]. split.
  - intros status. destruct context as [gl|];
      [|split; intros [= <-]; reflexivity].
    unfold WebGl.isValidParameterGetter.
    destruct (WebGl.hasGetParameter gl); cbn [negb];
      [|split; intros [= <-]; reflexivity].
    destruct (match WebGl.getSupportedExtensions gl with
              | Some names => WebGl.extensionLoop e gl names [] []
              | None => ([], [])
              end) as [u p].
    split; intros H; discriminate H.
  - intros basics H Hg. destruct context as [gl|]; [|discriminate H].
    destruct (negb (WebGl.isValidParameterGetter gl)); [discriminate H|].
    injection H as <-. unfold WebGl.shouldAvoidDebugRendererInfo. rewrite Hg.
    now split.
Qed.

End Collectors.

(** ** [agent.get] *)

Section AgentProperties.

Context {R : Runtime}.

Lemma collected_payload env e :
  Anchor.webgExtensions (Signals.computeBrowserSignals env) = Some e ->
  fst (WebGl.getWebGlExtensions (Signals.engine env) None
         (Signals.canvasOfExtensions env)) = inr e.
Proof.
  unfold Signals.computeBrowserSignals. cbn [Anchor.webgExtensions].
  generalize (fst (WebGl.getWebGlExtensions (Signals.engine env) None
                     (Signals.canvasOfExtensions env))).
  intros [status|payload] H; [discriminate H|]. now injection H as ->.
Qed.

(** The collector writes the line of [MEDIUM_FLOAT] before the line of
    [HIGH_FLOAT], which is below it. *)
Lemma shaderPrecisions_not_ascending gl :
  ~ ascending (flat_map (fun shaderType =>
                           map (WebGl.shaderPrecisionLine gl shaderType)
                               WebGl.precisionTypes)
                        WebGl.shaderTypes).
Proof.
  unfold ascending. cbn [flat_map map WebGl.shaderTypes WebGl.precisionTypes app].
  intros H. apply StronglySorted_inv in H as [H _].
  apply StronglySorted_inv in H as [_ H].
  apply Forall_inv in H. vm_compute in H. discriminate H.
Qed.

(** X23: the signals of the result of [get] are the collected signals
    after [computeAnchor] has sorted two of their arrays in place: the
    shader precision lines come back in sorted order, which is never the
    order in which [getWebGlExtensions] collected them, and the lines of
    the parameters come back as they were, since the collector had sorted
    them. *)
Theorem get_returns_sorted_signals (version : jsstring) (debug : bool)
  (creationTime : Z) (env : Signals.Environment) (optionsDebug : bool)
  (startTime : Z) (collected : Anchor.WebGlExtensionsPayload) :
  Anchor.webgExtensions (Signals.computeBrowserSignals env) = Some collected ->
  exists result log returned,
    Agent.loadAndGet version debug creationTime env optionsDebug startTime =
      Some (result, log) /\
    Anchor.webgExtensions (Agent.signals result) = Some returned /\
    Anchor.shaderPrecisions returned = Array_sort (Anchor.shaderPrecisions collected) /\
    Anchor.shaderPrecisions returned <> Anchor.shaderPrecisions collected /\
    Anchor.parameters returned = Anchor.parameters collected.
Proof.
  intros E.
  destruct (computeVisitorId_total (Signals.computeBrowserSignals env))
    as (anchor & text & _ & _ & Ev).
  unfold Agent.loadAndGet, Agent.get. rewrite Ev.
  eexists. eexists. eexists. split; [reflexivity|].
  cbn [Agent.signals Anchor.sortedInPlace Anchor.webgExtensions].
  rewrite E. cbn [option_map]. split; [reflexivity|].
  cbn [Anchor.shaderPrecisions Anchor.parameters].
  apply collected_payload in E.
  destruct (getWebGlExtensions_context _ _ _ E) as (gl & _ & _ & _ & _ & _ & Ep & Es).
  split; [reflexivity|]. split.
  - intros C. apply (shaderPrecisions_not_ascending gl).
    rewrite <- Es, <- C. apply Array_sort_ascending.
  - rewrite Ep. apply Array_sort_idempotent.
Qed.

Lemma sortedInPlace_idempotent (b : Anchor.BrowserSignals) :
  Anchor.sortedInPlace (Anchor.sortedInPlace b) = Anchor.sortedInPlace b.
Proof.
  unfold Anchor.sortedInPlace.
  cbn [Anchor.userAgent Anchor.hardwareConcurrency Anchor.deviceMemory Anchor.webgl
       Anchor.webgExtensions Anchor.audioFingerprint Anchor.mathFingerprint
       Anchor.webgpu Anchor.eme Anchor.performanceTiming Anchor.others].
  destruct (Anchor.webgExtensions b) as [e|]; [|reflexivity].
  cbn [option_map Anchor.contextAttributes Anchor.parameters Anchor.shaderPrecisions
       Anchor.supportedExtensions Anchor.extensionParameters
       Anchor.unsupportedExtensions].
  now rewrite !Array_sort_idempotent.
Qed.

(** X5: every call of [get] on an agent gives the same result. The first
    call leaves the two arrays of the shared signals sorted; a later call,
    which finds them so, whenever it is made and whatever its options,
    returns the same visitor identifier, the same anchor and the same
    signals. *)
Theorem get_again_same_result (version : jsstring) (debug : bool) (creationTime : Z)
  (collected : Anchor.BrowserSignals) (optionsDebug optionsDebug' : bool)
  (startTime startTime' : Z) :
  option_map fst (Agent.get version debug creationTime
                            (Anchor.sortedInPlace collected) optionsDebug' startTime') =
  option_map fst (Agent.get version debug creationTime collected optionsDebug startTime).
Proof.
  unfold Agent.get, Anchor.computeVisitorId.
  rewrite computeAnchor_sortedInPlace, sortedInPlace_idempotent.
  destruct (Anchor.computeAnchor collected) as [anchor|]; [|reflexivity].
  now destruct (stableHash (Anchor.ofOption VStr (canonicalize anchor))).
Qed.

End AgentProperties.

(** ** The fingerprint of any buffer *)

Lemma add_abs_nanOrNotNegative hash x :
  nanOrNotNegative (Prim2SF hash) = true ->
  nanOrNotNegative (Prim2SF (hash + abs x)) = true.
Proof.
  intros H. destruct (is_nan x) eqn:Ex.
  - apply is_nan_floatKey in Ex. rewrite add_spec, abs_spec.
    destruct (Prim2SF x) as [sx|sx| |sx mx ex]; try discriminate Ex.
    now destruct (Prim2SF hash) as [s|s| |s m e].
  - destruct (Prim2SF hash) as [s|s| |s m e] eqn:Eh.
    + assert (N : notNegative (Prim2SF (hash + abs x)) = true)
        by (apply add_abs_notNegative; [now rewrite Eh | exact Ex]).
      now destruct (Prim2SF (hash + abs x)).
    + assert (N : notNegative (Prim2SF (hash + abs x)) = true)
        by (apply add_abs_notNegative; [now rewrite Eh | exact Ex]).
      now destruct (Prim2SF (hash + abs x)).
    + rewrite add_spec, Eh. reflexivity.
    + assert (N : notNegative (Prim2SF (hash + abs x)) = true)
        by (apply add_abs_notNegative; [now rewrite Eh | exact Ex]).
      now destruct (Prim2SF (hash + abs x)).
Qed.

Lemma getHash_nanOrNotNegative signal :
  nanOrNotNegative (Prim2SF (Audio.getHash signal)) = true.
Proof.
  unfold Audio.getHash.
  assert (H0 : nanOrNotNegative (Prim2SF 0) = true) by reflexivity.
  revert H0. generalize 0%float as hash.
  induction signal as [|x signal IH]; intros hash H0; cbn [fold_left]; [exact H0|].
  apply IH, add_abs_nanOrNotNegative, H0.
Qed.

Lemma add_nan_l hash x : is_nan hash = true -> is_nan (hash + abs x) = true.
Proof.
  intros H. apply is_nan_floatKey in H. apply is_nan_floatKey. rewrite add_spec.
  now destruct (Prim2SF hash) as [s|s| |s m e]; try discriminate H.
Qed.

Lemma add_nan_r hash x : is_nan x = true -> is_nan (hash + abs x) = true.
Proof.
  intros H. apply is_nan_floatKey in H. apply is_nan_floatKey.
  rewrite add_spec, abs_spec.
  destruct (Prim2SF x) as [sx|sx| |sx mx ex]; try discriminate H.
  now destruct (Prim2SF hash) as [s|s| |s m e].
Qed.

Lemma fold_nan signal : forall hash,
  is_nan hash = true ->
  is_nan (fold_left (fun hash x => (hash + abs x)%float) signal hash) = true.
Proof.
  induction signal as [|x signal IH]; intros hash H; cbn [fold_left]; [exact H|].
  now apply IH, add_nan_l.
Qed.

Lemma getHash_nan signal :
  Exists (fun x => is_nan x = true) signal -> is_nan (Audio.getHash signal) = true.
Proof.
  unfold Audio.getHash. intros H. generalize 0%float.
  induction H as [x signal Hx|x signal _ IH]; intros hash; cbn [fold_left].
  - now apply fold_nan, add_nan_r.
  - apply IH.
Qed.

(** X7: whatever the rendered buffer holds, the fingerprint is NaN or a
    number that is not negative, so it is never one of the four codes; it
    is NaN as soon as one sample of the window is, and it is 0 for a
    buffer that ends before the window. *)
Theorem fingerprint_of_any_buffer (buffer : Audio.AudioBuffer) :
  exists hash,
    Audio.fingerprintPromise (Audio.Fulfilled buffer) = Audio.Fulfilled hash /\
    (is_nan hash = true \/ (0 <=? hash)%float = true) /\
    (forall s, hash <> Audio.code s) /\
    (Exists (fun x => is_nan x = true)
            (skipn Audio.hashFromIndex (Audio.channel0 buffer)) ->
     is_nan hash = true) /\
    ((length (Audio.channel0 buffer) <= Audio.hashFromIndex)%nat -> hash = 0%float).
Proof.
  eexists. split; [reflexivity|].
  set (signal := Audio.subarray (Audio.channel0 buffer) Audio.hashFromIndex).
  pose proof (getHash_nanOrNotNegative signal) as N.
  split; [|split; [|split]].
  - rewrite leb_zero_notNegative.
    destruct (Prim2SF (Audio.getHash signal)) eqn:E; auto.
    left. apply is_nan_floatKey. now rewrite E.
  - intros s E. rewrite E in N. now destruct s.
  - apply getHash_nan.
  - intros L. unfold signal, Audio.subarray. now rewrite skipn_all2.
Qed.

(** ** The fingerprint of the rendered buffer *)

Section RenderedBuffer.

Import Audio.

(** A fulfilled promise stays as it is. *)
Lemma fulfilled_step j ev buffer :
  resultPromise j = Fulfilled buffer -> resultPromise (step j ev) = Fulfilled buffer.
Proof.
  intros H. destruct ev as [now|b|i a]; cbn.
  - unfold finalize, startRunningTimeout, setTimeout.
    destruct (isFinalized j); cbn; [exact H|].
    destruct (0 <? startedRunningAt j); exact H.
  - unfold resolve. now rewrite H.
  - destruct (nth_error (timers j) i) as [t|]; [|exact H].
    destruct (callback t).
    + destruct j as [fin cnt st pr tm], a as [thr cs hid n1 n2]. cbn in H. subst pr.
      unfold tryRender, reject, startRunningTimeout, setTimeout. cbn.
      destruct thr as [[en em]|]; [|destruct cs; [|destruct hid|]]; cbn;
        try destruct fin; cbn; try reflexivity;
        destruct (renderTryMaxCount <=? _); reflexivity.
    + unfold reject. cbn. now rewrite H.
Qed.

Lemma fulfilled_run evs : forall j buffer,
  resultPromise j = Fulfilled buffer -> resultPromise (run j evs) = Fulfilled buffer.
Proof.
  unfold run. induction evs as [|ev evs IH]; intros j buffer H; cbn; [exact H|].
  now apply IH, fulfilled_step.
Qed.

(** C6, amended: when the context completes while the promise of the job
    is pending, the promise is fulfilled with the rendered buffer for
    good, and the fingerprint is the sum, from left to right, of the
    magnitudes of the samples 4500 to 4999 of channel 0 of that buffer; it
    depends on these samples alone; it is not negative when none of them
    is NaN, and it is NaN when one of them is. *)
Theorem fingerprint_of_rendered_buffer (j : Job) (buffer : AudioBuffer) :
  resultPromise j = Pending ->
  length (channel0 buffer) = hashToIndex ->
  let j' := step j (Complete buffer) in
  exists h : float,
    resultPromise j' = Fulfilled buffer /\
    (forall evs, resultPromise (run j' evs) = Fulfilled buffer) /\
    fingerprintPromise (resultPromise j') = Fulfilled h /\
    h = fold_left (fun hash i => (hash + abs (nth i (channel0 buffer) 0))%float)
                  (seq 4500 500) 0%float /\
    (Forall (fun x => is_nan x = false) (skipn 4500 (channel0 buffer)) ->
     (0 <=? h)%float = true) /\
    (Exists (fun x => is_nan x = true) (skipn 4500 (channel0 buffer)) ->
     is_nan h = true /\ (0 <=? h)%float = false) /\
    forall buffer' : AudioBuffer,
      skipn 4500 (channel0 buffer') = skipn 4500 (channel0 buffer) ->
      fingerprintPromise (Fulfilled buffer') = Fulfilled h.
Proof.
  intros Hp Hlen j'.
  assert (Hj' : resultPromise j' = Fulfilled buffer)
    by (unfold j'; cbn [step]; unfold resolve; now rewrite Hp).
  exists (getHash (subarray (channel0 buffer) hashFromIndex)).
  split; [exact Hj'|]. split; [|split; [|split; [|split; [|split]]]].
  - intros evs. now apply fulfilled_run.
  - now rewrite Hj'.
  - unfold getHash, subarray, hashFromIndex.
    rewrite (fold_left_skipn _ 0%float) by (rewrite Hlen; unfold hashToIndex; lia).
    rewrite Hlen. reflexivity.
  - intros Hnan. apply getHash_notNegative. exact Hnan.
  - intros Hnan. apply getHash_nan in Hnan. split; [exact Hnan|].
    apply not_true_is_false. intros L.
    apply float_leb_not_nan in L as [_ L]. unfold subarray, hashFromIndex in L.
    congruence.
  - intros buffer' E. unfold fingerprintPromise, subarray, hashFromIndex.
    now rewrite E.
Qed.

(** C6, counterexample: a job that completes with a buffer whose last
    sample is NaN is fulfilled, and the fingerprint is NaN, which is not a
    number that is not negative. *)
Lemma rendered_buffer_nan_counterexample :
  let j' := step (startRenderingAudio runningAt1000) (Complete nanBuffer) in
  length (channel0 nanBuffer) = hashToIndex /\
  resultPromise j' = Fulfilled nanBuffer /\
  exists h : float,
    fingerprintPromise (resultPromise j') = Fulfilled h /\
    is_nan h = true /\ (0 <=? h)%float = false.
Proof.
  cbv zeta. split; [reflexivity|]. split; [reflexivity|].
  eexists. split; [reflexivity|]. split; vm_compute; reflexivity.
Qed.

Lemma fingerprint_of_rendered_buffer_witness :
  let j' := step (startRenderingAudio runningAt1000) (Complete flatBuffer) in
  resultPromise (startRenderingAudio runningAt1000) = Pending /\
  length (channel0 flatBuffer) = hashToIndex /\
  exists h : float,
    resultPromise j' = Fulfilled flatBuffer /\
    (forall evs, resultPromise (run j' evs) = Fulfilled flatBuffer) /\
    fingerprintPromise (resultPromise j') = Fulfilled h /\
    h = fold_left (fun hash i => (hash + abs (nth i (channel0 flatBuffer) 0))%float)
                  (seq 4500 500) 0%float /\
    (Forall (fun x => is_nan x = false) (skipn 4500 (channel0 flatBuffer)) ->
     (0 <=? h)%float = true) /\
    (Exists (fun x => is_nan x = true) (skipn 4500 (channel0 flatBuffer)) ->
     is_nan h = true /\ (0 <=? h)%float = false) /\
    forall buffer' : AudioBuffer,
      skipn 4500 (channel0 buffer') = skipn 4500 (channel0 flatBuffer) ->
      fingerprintPromise (Fulfilled buffer') = Fulfilled h.
Proof.
  cbv zeta. split; [reflexivity|]. split; [reflexivity|].
  apply (fingerprint_of_rendered_buffer (startRenderingAudio runningAt1000) flatBuffer);
    reflexivity.
Defined.

End RenderedBuffer.

(** ** The render job before the callable is invoked *)

Section RenderJobBeforeFinalize.

Import Audio.

Lemma notGivenUp_tryRender a j : notGivenUp j -> notGivenUp (tryRender a j).
Proof.
  intros (Hf & Ht & Hr). destruct j as [fin cnt st pr tm]. cbn in *. subst fin.
  unfold notGivenUp, tryRender, reject, setTimeout. cbn.
  destruct (startRenderingThrows a) as [[name message]|].
  - destruct pr; cbn; repeat split; auto; intros n; try discriminate; apply Hr.
  - destruct (contextState a); cbn; [now repeat split| |now repeat split].
    destruct (documentHidden a); cbn; repeat split; auto;
      apply Forall_app; split; auto.
Qed.

Lemma In_removeNth_Forall {A} (P : A -> Prop) l : forall i,
  Forall P l -> Forall P (removeNth i l).
Proof.
  induction l as [|x l IH]; intros [|i] H; cbn; auto.
  - now apply Forall_inv_tail in H.
  - apply Forall_cons_iff in H as [Hx H]. constructor; auto.
Qed.

Lemma notGivenUp_step j ev :
  isFinalizeEvent ev = false -> notGivenUp j -> notGivenUp (step j ev).
Proof.
  intros Hev H. destruct ev as [now|buffer|i a]; [discriminate| |]; cbn.
  - destruct H as (Hf & Ht & Hr). destruct j as [fin cnt st pr tm]. cbn in *.
    unfold notGivenUp, resolve. cbn.
    destruct pr; cbn; repeat split; auto; intros n; discriminate.
  - destruct (nth_error (timers j) i) as [t|] eqn:En; [|exact H].
    destruct H as (Hf & Ht & Hr).
    assert (Hcb : callback t = CallTryRender).
    { rewrite Forall_forall in Ht. apply Ht. eapply nth_error_In; eassumption. }
    rewrite Hcb. apply notGivenUp_tryRender.
    repeat split; cbn; auto. now apply In_removeNth_Forall.
Qed.

Lemma notGivenUp_run evs : forall j,
  forallb (fun ev => negb (isFinalizeEvent ev)) evs = true ->
  notGivenUp j -> notGivenUp (run j evs).
Proof.
  unfold run. induction evs as [|ev evs IH]; intros j H Hj; cbn in *; [exact Hj|].
  apply andb_true_iff in H as [Hev Hevs]. apply IH; [exact Hevs|].
  apply notGivenUp_step; [now apply negb_true_iff | exact Hj].
Qed.

(** X8: until the callable is invoked the render job does not give up:
    whatever happens, it is not finalized, no completion timeout is
    pending, and its promise is not rejected with the timeout or the
    suspension error. So before that the fingerprint is -3 only if
    [startRendering] itself threw an error of one of the two names. *)
Theorem no_give_up_before_finalize (first : Attempt) (evs : list Event) :
  forallb (fun ev => negb (isFinalizeEvent ev)) evs = true ->
  let j := run (startRenderingAudio first) evs in
  isFinalized j = false /\
  countTimeout j = 0%nat /\
  (forall n, resultPromise j <> Rejected (InnerError n)) /\
  (fingerprintPromise (resultPromise j) = Fulfilled (code Timeout) ->
   exists name message, resultPromise j = Rejected (Thrown name message)).
Proof.
  intros H j.
  assert (N : notGivenUp j).
  { apply notGivenUp_run; [exact H|]. apply notGivenUp_tryRender.
    repeat split; cbn; [constructor | discriminate]. }
  destruct N as (Hf & Ht & Hr). split; [exact Hf|]. split; [|split; [exact Hr|]].
  - unfold countTimeout.
    induction (timers j) as [|t tm IH]; [reflexivity|].
    apply Forall_cons_iff in Ht as [Hc Ht]. cbn. unfold isTimeout at 1.
    rewrite Hc. now apply IH.
  - intros Hp. destruct (resultPromise j) as [|buffer|[n|name message]] eqn:E.
    + discriminate Hp.
    + exfalso. unfold fingerprintPromise in Hp.
      pose proof (getHash_nanOrNotNegative
                    (subarray (channel0 buffer) hashFromIndex)) as N.
      set (hash := getHash (subarray (channel0 buffer) hashFromIndex)) in *.
      clearbody hash. injection Hp as ->. discriminate N.
    + now destruct (Hr n).
    + eauto.
Qed.

End RenderJobBeforeFinalize.

(** ** A suspended context in a hidden tab *)

Section HiddenTab.

Import Audio.

Lemma stillTrying_step j ev :
  inBackground ev -> stillTrying j ->
  stillTrying (step j ev) /\ renderTryCount (step j ev) = renderTryCount j.
Proof.
  intros Hev (Hst & Hp & Hc & Htm). destruct ev as [now|buffer|i a]; cbn in *.
  - destruct j as [fin cnt st pr tm]. cbn in *. subst.
    unfold finalize. destruct fin; cbn; now repeat split.
  - contradiction.
  - rewrite Htm. destruct i as [|i]; cbn [nth_error].
    + destruct Hev as (Ht & Hs & Hh). destruct j as [fin cnt st pr tm].
      cbn in *. subst. unfold tryRender. rewrite Ht, Hs, Hh. cbn.
      apply Z.leb_gt in Hc. rewrite Hc, andb_false_r. cbn.
      apply Z.leb_gt in Hc. now repeat split.
    + destruct i; cbn; now repeat split.
Qed.

(** X9: a job that is still trying, with fewer than three suspensions
    counted in the foreground, never settles and never counts a try while
    the tab is hidden and the context stays suspended, however many
    retries fire and whether or not the callable has been invoked: the
    promise stays pending with its one retry pending, so the promise that
    the callable returns stays pending too.  Every job whose first attempt
    finds the context suspended starts as such a job.  With three
    suspensions counted, the first hidden retry after the callable has
    been invoked rejects the job with the suspension error. *)
Theorem hidden_tab_never_settles (j : Job) (evs : list Event) :
  stillTrying j -> Forall inBackground evs ->
  let j' := run j evs in
  (resultPromise j' = Pending /\ renderTryCount j' = renderTryCount j /\
   timers j' = [retryTimer] /\
   fingerprintPromise (resultPromise j') = Pending) /\
  (forall first,
      startRenderingThrows first = None -> contextState first = StateSuspended ->
      stillTrying (startRenderingAudio first)) /\
  (forall k i t a,
      resultPromise k = Pending -> isFinalized k = true ->
      renderTryMaxCount <= renderTryCount k ->
      nth_error (timers k) i = Some t -> callback t = CallTryRender ->
      hiddenAndSuspended a ->
      resultPromise (step k (Fire i a)) = Rejected (InnerError InnerSuspended)).
Proof.
  intros Hj Hevs j'. split; [|split].
  - assert (W : stillTrying j' /\ renderTryCount j' = renderTryCount j).
    { unfold j', run. clear j'. revert j Hj.
      induction Hevs as [|ev l Hev _ IH]; intros j Hj; cbn; [now split|].
      destruct (stillTrying_step j ev Hev Hj) as [Hs Hc].
      destruct (IH _ Hs) as [Hs' Hc']. split; [exact Hs' | congruence]. }
    destruct W as [(_ & Hp & _ & Ht) Hc]. rewrite Hp. now repeat split.
  - intros first Ht Hs. unfold startRenderingAudio, tryRender, stillTrying.
    rewrite Ht, Hs. cbn. destruct (documentHidden first); cbn; now repeat split.
  - intros k i t a Hp Hf Hc Et Hcb (Ht & Hs & Hh). cbn [step].
    rewrite Et, Hcb. destruct k as [fin cnt st pr tm]. cbn in *. subst.
    unfold tryRender. rewrite Ht, Hs, Hh. cbn.
    apply Z.leb_le in Hc. now rewrite Hc.
Qed.

(** Two suspensions in the foreground, then a hidden tab: the retries and
    the invocation of the callable leave the job pending. *)
Lemma hidden_tab_never_settles_witness :
  let j := run (startRenderingAudio suspendedInForeground)
               [Fire 0 suspendedInForeground] in
  let j' := run j [Fire 0 suspendedInBackground; Finalize 2000;
                   Fire 0 suspendedInBackground; Fire 3 suspendedInBackground;
                   Fire 0 suspendedInBackground] in
  stillTrying j /\ renderTryCount j = 2 /\ isFinalized j' = true /\
  resultPromise j' = Pending /\ renderTryCount j' = renderTryCount j /\
  timers j' = [retryTimer] /\
  fingerprintPromise (resultPromise j') = Pending.
Proof.
  cbv zeta.
  assert (H : stillTrying (run (startRenderingAudio suspendedInForeground)
                               [Fire 0 suspendedInForeground]))
    by (cbn; now repeat split).
  split; [exact H|]. split; [reflexivity|]. split; [reflexivity|].
  apply (hidden_tab_never_settles _
           [Fire 0 suspendedInBackground; Finalize 2000;
            Fire 0 suspendedInBackground; Fire 3 suspendedInBackground;
            Fire 0 suspendedInBackground] H).
  repeat constructor.
Defined.

End HiddenTab.

(** ** The properties on the concrete inputs *)

Lemma anchor_of_same_device_witness :
  @Anchor.computeAnchor Sample.engine richSignals =
  @Anchor.computeAnchor Sample.engine richSignalsShuffled /\
  option_map Anchor.visitorId (@Anchor.computeVisitorId Sample.engine richSignals) =
  option_map Anchor.visitorId (@Anchor.computeVisitorId Sample.engine richSignalsShuffled).
Proof.
  apply (@anchor_of_same_device Sample.engine richSignals richSignalsShuffled).
  unfold sameDeviceSignals. cbn.
  repeat split; try reflexivity.
  - apply perm_swap.
  - apply perm_swap.
  - apply perm_swap.
  - cbn. intuition.
  - cbn. intuition.
Defined.

Lemma no_give_up_before_finalize_witness :
  let j := Audio.run (Audio.startRenderingAudio suspendedInForeground)
                     [Audio.Fire 0 suspendedInForeground;
                      Audio.Fire 0 runningAt1000; Audio.Complete flatBuffer] in
  Audio.isFinalized j = false /\
  countTimeout j = 0%nat /\
  (forall n, Audio.resultPromise j <> Audio.Rejected (Audio.InnerError n)) /\
  (Audio.fingerprintPromise (Audio.resultPromise j) = Audio.Fulfilled (Audio.code Audio.Timeout) ->
   exists name message,
     Audio.resultPromise j = Audio.Rejected (Audio.Thrown name message)).
Proof.
  apply (no_give_up_before_finalize suspendedInForeground
           [Audio.Fire 0 suspendedInForeground;
            Audio.Fire 0 runningAt1000; Audio.Complete flatBuffer]).
  reflexivity.
Defined.

Lemma errorToObject_properties_witness :
  (forall k,
      getProperty (Misc.errorToObject sampleError) k =
      match getProperty (Misc.ownEnumerable sampleError) k with
      | Some v => Some v
      | None =>
          if str_eqb k (lit "name") then Some (Misc.errorName sampleError)
          else if str_eqb k (lit "message") then Some (Misc.errorMessage sampleError)
          else if str_eqb k (lit "stack") then Some (Misc.stackLines sampleError)
          else None
      end) /\
  (Misc.errorStack sampleError = None -> Misc.stackLines sampleError = VUndefined) /\
  (forall stack,
      Misc.errorStack sampleError = Some stack ->
      exists lines,
        Misc.stackLines sampleError = VArr (map VStr lines) /\
        joinWith 10 lines = stack /\
        Forall (fun line => ~ In 10 line) lines /\
        length lines = S (length (filter (Z.eqb 10) stack))).
Proof.
  apply (errorToObject_properties sampleError).
  cbn. repeat constructor; cbn; intuition discriminate.
Defined.

Lemma collected_ext_is_xExt_witness :
  exists props webgl digest,
    @Anchor.computeAnchor Sample.engine
      (@Signals.computeBrowserSignals Sample.engine sampleEnvironment)
    = Some (VObj props) /\
    getProperty props (lit "webgl") = Some (VObj webgl) /\
    getProperty webgl (lit "ext") = Some (VStr digest) /\
    getProperty webgl (lit "xExt") = Some (VStr digest) /\
    @stableHash Sample.engine
      (Anchor.strings (Array_sort [lit "OES_vertex_array_object"; lit "EXT_blend_minmax";
                                   lit "WEBGL_polygon_mode"])) = Some digest.
Proof.
  eapply (@collected_ext_is_xExt Sample.engine sampleEnvironment).
  - vm_compute. reflexivity.
  - reflexivity.
  - discriminate.
  - repeat constructor; cbn; intuition discriminate.
Defined.

Lemma getWebGlExtensions_lists_witness :
  exists payload gl,
    fst (@WebGl.getWebGlExtensions Sample.engine (Signals.engine sampleEnvironment) None
           (Signals.canvasOfExtensions sampleEnvironment)) = inr payload /\
    fst (WebGl.getWebGLContext None (Signals.canvasOfExtensions sampleEnvironment))
      = Some gl /\
    (forall name,
        In name (Anchor.unsupportedExtensions payload) <->
        exists names,
          Anchor.supportedExtensions payload = Some names /\ In name names /\
          passedOver (Signals.engine sampleEnvironment) name = false /\
          WebGl.getExtension gl name = None) /\
    Array_sort (Anchor.parameters payload) = Anchor.parameters payload /\
    Array_sort (Anchor.extensionParameters payload) = Anchor.extensionParameters payload /\
    ascending (Anchor.parameters payload) /\
    ascending (Anchor.extensionParameters payload) /\
    length (Anchor.shaderPrecisions payload) = 12%nat.
Proof.
  eexists.
  assert (E : fst (@WebGl.getWebGlExtensions Sample.engine
                     (Signals.engine sampleEnvironment) None
                     (Signals.canvasOfExtensions sampleEnvironment)) = inr _)
    by (vm_compute; reflexivity).
  destruct (@getWebGlExtensions_lists Sample.engine _ _ _ E) as (gl & H).
  exists gl. split; [exact E | exact H].
Defined.

Lemma get_returns_sorted_signals_witness :
  exists collected result log returned,
    Anchor.webgExtensions (@Signals.computeBrowserSignals Sample.engine sampleEnvironment)
      = Some collected /\
    @Agent.loadAndGet Sample.engine (lit "0.1.0") false 1000 sampleEnvironment true 1500 =
      Some (result, log) /\
    Anchor.webgExtensions (Agent.signals result) = Some returned /\
    Anchor.shaderPrecisions returned = Array_sort (Anchor.shaderPrecisions collected) /\
    Anchor.shaderPrecisions returned <> Anchor.shaderPrecisions collected /\
    Anchor.parameters returned = Anchor.parameters collected.
Proof.
  eexists.
  assert (E : Anchor.webgExtensions
                (@Signals.computeBrowserSignals Sample.engine sampleEnvironment) = Some _)
    by (vm_compute; reflexivity).
  destruct (@get_returns_sorted_signals Sample.engine (lit "0.1.0") false 1000
              sampleEnvironment true 1500 _ E) as (result & log & returned & H).
  exists result, log, returned. split; [exact E | exact H].
Defined.
